(** * ChatPineWriter: the similarity index and the query pipeline

    A shallow embedding of the retrieval core of the repository:

    - [PineconeService] (server/services/pinecone.ts): the in-memory vector
      index with [upsert], [query], [cosineSimilarity], [deleteAll];
    - [generateChatResponse] (server/services/openai.ts): prompt assembly;
    - the [POST /api/query] handler of [registerRoutes] (server/routes.ts);
    - [MemStorage] (server/storage.ts) over the tables of shared/schema.ts,
      and the other handlers of [registerRoutes].

    JavaScript numbers are IEEE 754 binary64 values; they are modelled with
    the executable specification [spec_float] of the standard library at
    precision 53 and maximal exponent 1024, so every arithmetic step of
    the source rounds here as it does in the engine. *)

From Stdlib Require Import ZArith Lia Bool List Ascii String Sorted Permutation.
From Stdlib Require Import Floats.SpecFloat.
From stdpp Require Import gmap strings list pretty.

Local Open Scope Z_scope.

(** ** JavaScript numbers *)

Module Float64.

Definition prec : Z := 53.
Definition emax : Z := 1024.

Abbreviation number := spec_float.
Abbreviation emin := (SpecFloat.emin prec emax).
Abbreviation fexp := (SpecFloat.fexp prec emax).

Definition fadd : number -> number -> number := SFadd prec emax.
Definition fsub : number -> number -> number := SFsub prec emax.
Definition fmul : number -> number -> number := SFmul prec emax.
Definition fdiv : number -> number -> number := SFdiv prec emax.
Definition fsqrt : number -> number := SFsqrt prec emax.

(** The number an integer literal or an array length denotes. *)
Definition of_Z (z : Z) : number := binary_normalize prec emax z 0 false.

Definition fzero : number := S754_zero false.
Definition fNaN : number := S754_nan.

Definition is_nan (x : number) : bool :=
  match x with S754_nan => true | _ => false end.


(** A value of the binary64 format: canonical mantissa, exponent in range. *)
Definition fvalid (x : number) : bool := valid_binary prec emax x.

(** [x >= y], [x > y], [x < y], [x <= y] and [x === y] on numbers: false as
    soon as one side is NaN. *)
Definition num_ge (x y : number) : bool :=
  match SFcompare x y with Some Gt | Some Eq => true | _ => false end.
Definition num_gt (x y : number) : bool :=
  match SFcompare x y with Some Gt => true | _ => false end.
Definition num_lt (x y : number) : bool :=
  match SFcompare x y with Some Lt => true | _ => false end.
Definition num_le (x y : number) : bool :=
  match SFcompare x y with Some Lt | Some Eq => true | _ => false end.
Definition num_strict_eq (x y : number) : bool :=
  match SFcompare x y with Some Eq => true | _ => false end.

(** The result of rounding, before it is packed into a float: mantissa
    [m] at exponent [e] with sign [s]. *)
Definition pack (s : bool) (m e : Z) : number :=
  match m with
  | Z0 => S754_zero s
  | Zpos p => if e <=? emax - prec then S754_finite s p e else S754_infinity s
  | Zneg _ => S754_nan
  end.

(** The mantissa of a finite float once shifted to the exponent [ez]. *)
Definition aligned (s : bool) (m : positive) (e ez : Z) : Z :=
  cond_Zopp s (Z.pos (fst (shl_align m e ez))).

(** The exact comparison [n <= x] of an integer with a number. *)
Definition Z_le_number (n : Z) (x : number) : Prop :=
  match x with
  | S754_nan => False
  | S754_infinity s => s = false
  | S754_zero _ => n <= 0
  | S754_finite s m e =>
      if 0 <=? e then n <= cond_Zopp s (Z.pos m * 2 ^ e)
      else n * 2 ^ (- e) <= cond_Zopp s (Z.pos m)
  end.

(** Literals of the source. *)
Definition lit_5 : number := S754_finite false 5629499534213120 (-50).
Definition lit_1 : number := S754_finite false 4503599627370496 (-52).
Definition lit_minus_1 : number := S754_finite true 4503599627370496 (-52).
(** [0.7]: the double nearest to 7/10. *)
Definition lit_0_7 : number := S754_finite false 6305039478318694 (-53).

End Float64.

Import Float64.

(** ** JavaScript values, strings and arrays *)

Module Js.

(** The values that reach the service through JSON bodies and metadata
    objects. [JObject] stands for an object or an array, carried with the
    string its [ToString] conversion produces; it is always truthy. *)
Inductive jsval : Type :=
  | JUndefined
  | JNull
  | JBool (b : bool)
  | JNum (n : number)
  | JStr (s : string)
  | JObject (repr : string).

(** [ToBoolean]. *)
Definition truthy (v : jsval) : bool :=
  match v with
  | JUndefined | JNull => false
  | JBool b => b
  | JNum n => match n with S754_zero _ | S754_nan => false | _ => true end
  | JStr s => negb (String.eqb s "")
  | JObject _ => true
  end.

(** [a || b]. *)
Definition js_or (a b : jsval) : jsval := if truthy a then a else b.

(** Property access [o.k] on an object: a missing property reads as
    [undefined]. *)
Definition get (o : gmap string jsval) (k : string) : jsval :=
  default JUndefined (o !! k).

(** Thrown exceptions. *)
Inductive exn : Type :=
  | Error (message : string)
  | TypeError (message : string).

Definition result (A : Type) : Type := exn + A.

Definition ret {A} (a : A) : result A := inr a.
Definition throw {A} (e : exn) : result A := inl e.
Definition bind {A B} (m : result A) (k : A -> result B) : result B :=
  match m with inl e => inl e | inr a => k a end.

Definition nl : string := String (ascii_of_nat 10) EmptyString.

(** *** [Array.prototype.join] *)

Fixpoint join (sep : string) (l : list string) : string :=
  match l with
  | [] => ""
  | [s] => s
  | s :: rest => s +:+ sep +:+ join sep rest
  end.

(** *** [Array.prototype.sort]

    [SortCompare] calls the comparison function and reads a NaN result as
    [+0]. The sort itself is stable; for a comparison function that is
    consistent on the elements, the standard fixes the result as the one
    stable ordering, which the insertion below computes: an element moves
    right past [y] exactly when the comparison with [y] is positive.
    The section on the stable sort, below, shows that, on the scores
    [query] sorts, no other sorted and stable arrangement exists. *)

Section Sort.
Context {A : Type}.
Variable comparefn : A -> A -> number.

Definition SortCompare (x y : A) : number :=
  let v := comparefn x y in
  if is_nan v then fzero else v.

Fixpoint sort_insert (x : A) (l : list A) : list A :=
  match l with
  | [] => [x]
  | y :: l' =>
      if num_gt (SortCompare x y) fzero then y :: sort_insert x l' else x :: l
  end.

Definition sort (l : list A) : list A := fold_right sort_insert [] l.

End Sort.

(** *** [Array.prototype.slice] *)

Inductive int_or_inf : Type := NegInf | Int (z : Z) | PosInf.

(** [ToIntegerOrInfinity]: NaN and the zeros give 0, the infinities
    themselves, any other number is truncated toward zero. *)
Definition ToIntegerOrInfinity (x : number) : int_or_inf :=
  match x with
  | S754_nan | S754_zero _ => Int 0
  | S754_infinity s => if s then NegInf else PosInf
  | S754_finite s m e => Int (cond_Zopp s (Z.shiftl (Z.pos m) e))
  end.

(** A relative index clamped into [0, len]: a negative one counts from
    the end of the array. *)
Definition clamp_index (len : Z) (i : int_or_inf) : Z :=
  match i with
  | NegInf => 0
  | Int z => if z <? 0 then Z.max (len + z) 0 else Z.min z len
  | PosInf => len
  end.

Definition slice {A} (l : list A) (start end_ : number) : list A :=
  let len := Z.of_nat (length l) in
  let k := clamp_index len (ToIntegerOrInfinity start) in
  let final := clamp_index len (ToIntegerOrInfinity end_) in
  take (Z.to_nat (Z.max (final - k) 0)) (drop (Z.to_nat k) l).

(** *** [parseInt] and [parseFloat] on strings

    Both skip leading white space, read the longest prefix that is a
    numeral and ignore the rest; no numeral gives NaN. The value read is
    rounded once to the nearest double: the standard lets an engine
    approximate past 20 significant digits, which the engines in use do
    not.

    A string is held as the bytes of its UTF-8 encoding. The white space
    skipped is the standard's [StrWhiteSpaceChar]: the white space
    U+0009, U+000B, U+000C, U+FEFF and the space separators U+0020,
    U+00A0, U+1680, U+2000 to U+200A, U+202F, U+205F, U+3000, and the
    line terminators U+000A, U+000D, U+2028, U+2029. [is_white_space]
    recognises the encoding of one of them, of one, two or three bytes. *)

Definition byte_code (c : ascii) : Z := Z.of_nat (nat_of_ascii c).

Definition is_white_space (bytes : list ascii) : bool :=
  match map byte_code bytes with
  | [b] => (9 <=? b) && (b <=? 13) || (b =? 32)
  | [194; 160] => true
  | [225; 154; 128] => true
  | [226; 128; b] =>
      (128 <=? b) && (b <=? 138) || (b =? 168) || (b =? 169) || (b =? 175)
  | [226; 129; 159] => true
  | [227; 128; 128] => true
  | [239; 187; 191] => true
  | _ => false
  end.

Fixpoint trim_start (s : string) : string :=
  match s with
  | String c1 s1 =>
      if is_white_space [c1] then trim_start s1
      else
        match s1 with
        | String c2 s2 =>
            if is_white_space [c1; c2] then trim_start s2
            else
              match s2 with
              | String c3 s3 =>
                  if is_white_space [c1; c2; c3] then trim_start s3 else s
              | EmptyString => s
              end
        | EmptyString => s
        end
  | EmptyString => EmptyString
  end.

Definition digit_value (radix : Z) (c : ascii) : option Z :=
  let n := Z.of_nat (nat_of_ascii c) in
  let v :=
    if (48 <=? n) && (n <=? 57) then Some (n - 48)
    else if (97 <=? n) && (n <=? 122) then Some (n - 87)
    else if (65 <=? n) && (n <=? 90) then Some (n - 55)
    else None in
  match v with
  | Some d => if d <? radix then Some d else None
  | None => None
  end.

(** Reads digits of the radix: the value accumulated, how many digits
    were read, and the rest of the string. *)
Fixpoint read_digits (radix : Z) (s : string) (acc : Z) (count : Z)
  : Z * Z * string :=
  match s with
  | String c s' =>
      match digit_value radix c with
      | Some d => read_digits radix s' (acc * radix + d) (count + 1)
      | None => (acc, count, s)
      end
  | EmptyString => (acc, count, s)
  end.

Definition read_sign (s : string) : bool * string :=
  match s with
  | String "-"%char s' => (true, s')
  | String "+"%char s' => (false, s')
  | _ => (false, s)
  end.

Definition parseInt_string (input : string) : number :=
  let '(neg, s) := read_sign (trim_start input) in
  let '(radix, s) :=
    match s with
    | String "0"%char (String "x"%char s') => (16, s')
    | String "0"%char (String "X"%char s') => (16, s')
    | _ => (10, s)
    end in
  let '(z, count, _) := read_digits radix s 0 0 in
  if count =? 0 then fNaN
  else if z =? 0 then S754_zero neg
  else of_Z (if neg then - z else z).

(** The double nearest to [±m * 10 ^ e10]. *)
Definition decimal_to_number (neg : bool) (m e10 : Z) : number :=
  match m with
  | Z0 => S754_zero neg
  | Zpos p =>
      if 0 <=? e10 then of_Z (cond_Zopp neg (m * 10 ^ e10))
      else SFdiv prec emax (S754_finite neg p 0)
             (S754_finite false (Z.to_pos (10 ^ (- e10))) 0)
  | Zneg _ => fNaN
  end.

Definition parseFloat_string (input : string) : number :=
  let '(neg, s) := read_sign (trim_start input) in
  if String.prefix "Infinity" s then S754_infinity neg
  else
    let '(ip, ni, s1) := read_digits 10 s 0 0 in
    let '(m, nf, s2) :=
      match s1 with
      | String "."%char s' => read_digits 10 s' ip 0
      | _ => (ip, 0, s1)
      end in
    if ni + nf =? 0 then fNaN
    else
      let e :=
        match s2 with
        | String c s' =>
            if Ascii.eqb c "e" || Ascii.eqb c "E" then
              let '(eneg, s'') := read_sign s' in
              let '(ev, ne, _) := read_digits 10 s'' 0 0 in
              if ne =? 0 then 0 else if eneg then - ev else ev
            else 0
        | EmptyString => 0
        end in
      decimal_to_number neg m (e - nf).

(** [ToString], [parseInt] and [parseFloat] on values. The conversion of
    a number to its decimal string is the engine's [Number::toString]; it
    is a parameter here. *)
Section Conversions.
Variable NumberToString : number -> string.

Definition ToString (v : jsval) : string :=
  match v with
  | JUndefined => "undefined"
  | JNull => "null"
  | JBool true => "true"
  | JBool false => "false"
  | JNum n => NumberToString n
  | JStr s => s
  | JObject repr => repr
  end.

Definition parseInt (v : jsval) : number := parseInt_string (ToString v).
Definition parseFloat (v : jsval) : number := parseFloat_string (ToString v).

End Conversions.

End Js.

(** ** The vector index (server/services/pinecone.ts) *)

Module Pinecone.

(** A stored vector. [metadata] is typed [any] in the source: [None] is
    [null] or [undefined], on which property access throws. *)
Record stored_vector : Type := {
  embedding : list number;
  metadata : option (gmap string Js.jsval);
}.

(** The [Map] from identifiers to stored vectors, in iteration order:
    the order in which the keys were first set. *)
Definition vector_map : Type := list (string * stored_vector).

(** [Map.prototype.set]: an existing key keeps its place and takes the
    new value, a new key goes last. *)
Fixpoint Map_set (k : string) (v : stored_vector) (m : vector_map) : vector_map :=
  match m with
  | [] => [(k, v)]
  | (k', v') :: m' =>
      if String.eqb k k' then (k, v) :: m' else (k', v') :: Map_set k v m'
  end.

Definition upsert (id : string) (emb : list number)
  (md : option (gmap string Js.jsval)) (vectors : vector_map) : vector_map :=
  Map_set id {| embedding := emb; metadata := md |} vectors.

Definition deleteAll (vectors : vector_map) : vector_map := [].

Definition getVectorCount (vectors : vector_map) : nat := length vectors.

(** The three running sums of the loop of [cosineSimilarity]. *)
Definition sums_step (acc : number * number * number) (xy : number * number)
  : number * number * number :=
  let '(dotProduct, normA, normB) := acc in
  let '(x, y) := xy in
  (fadd dotProduct (fmul x y), fadd normA (fmul x x), fadd normB (fmul y y)).

Definition sums (a b : list number) : number * number * number :=
  fold_left sums_step (combine a b) (fzero, fzero, fzero).

Definition cosineSimilarity (a b : list number) : Js.result number :=
  if negb (Nat.eqb (length a) (length b)) then
    Js.throw (Js.Error "Vectors must have the same length")
  else
    let '(dotProduct, normA, normB) := sums a b in
    let normA := fsqrt normA in
    let normB := fsqrt normB in
    if num_strict_eq normA fzero || num_strict_eq normB fzero then Js.ret fzero
    else Js.ret (fdiv dotProduct (fmul normA normB)).

(** An element of the local array [results] of [query]. *)
Record scored : Type := {
  s_id : string;
  s_score : number;
  s_metadata : option (gmap string Js.jsval);
}.

Record SimilaritySearchResult : Type := {
  r_id : string;
  r_score : number;
  r_text : Js.jsval;
  r_category : Js.jsval;
  r_timestamp : Js.jsval;
  r_metadata : gmap string Js.jsval;
}.

(** The loop over the entries of the map: an exception of
    [cosineSimilarity] leaves it at once. *)
Fixpoint scan (emb : list number) (threshold : number) (entries : vector_map)
  : Js.result (list scored) :=
  match entries with
  | [] => Js.ret []
  | (id, vector) :: rest =>
      Js.bind (cosineSimilarity emb (embedding vector)) (fun score =>
      Js.bind (scan emb threshold rest) (fun results =>
      Js.ret (if num_ge score threshold
              then {| s_id := id; s_score := score;
                      s_metadata := metadata vector |} :: results
              else results)))
  end.

(** [(a, b) => b.score - a.score]. *)
Definition by_score_desc (a b : scored) : number := fsub (s_score b) (s_score a).

Section Query.
(** The string [new Date().toISOString()] returns at the n-th reading of
    the clock; the number of readings made so far is threaded as state. *)
Variable toISOString : nat -> string.

Definition to_result (r : scored) (tick : nat)
  : Js.result (SimilaritySearchResult * nat) :=
  match s_metadata r with
  | None =>
      Js.throw (Js.TypeError "Cannot read properties of undefined (reading 'content')")
  | Some md =>
      let '(timestamp, tick') :=
        if Js.truthy (Js.get md "createdAt") then (Js.get md "createdAt", tick)
        else (Js.JStr (toISOString tick), S tick) in
      Js.ret ({| r_id := s_id r;
                 r_score := s_score r;
                 r_text := Js.js_or (Js.get md "content") (Js.JStr "");
                 r_category := Js.js_or (Js.get md "category") (Js.JStr "unknown");
                 r_timestamp := timestamp;
                 r_metadata := md |}, tick')
  end.

Fixpoint map_results (l : list scored) (tick : nat)
  : Js.result (list SimilaritySearchResult * nat) :=
  match l with
  | [] => Js.ret ([], tick)
  | r :: rest =>
      Js.bind (to_result r tick) (fun '(x, tick') =>
      Js.bind (map_results rest tick') (fun '(xs, tick'') =>
      Js.ret (x :: xs, tick'')))
  end.

(** [query(embedding, topK = 5, threshold = 0.7)]: an argument left out
    ([None]) takes its default. *)
Definition query (vectors : vector_map) (emb : list number)
  (topK threshold : option number) (tick : nat)
  : Js.result (list SimilaritySearchResult * nat) :=
  let topK := default lit_5 topK in
  let threshold := default lit_0_7 threshold in
  Js.bind (scan emb threshold vectors) (fun results =>
  let sorted := Js.sort by_score_desc results in
  let topResults := Js.slice sorted fzero topK in
  map_results topResults tick).

End Query.

End Pinecone.

(** ** Prompt assembly and the providers (server/services/openai.ts) *)

Module OpenAI.

Definition context_marker : string := "Context from knowledge base".

Definition question_label : string := "User question: ".

Definition instruction : string :=
  "Please provide a comprehensive answer based on the provided context. If context is provided, reference it in your response. If no relevant context is available, provide a helpful general answer.".

(** The blank line that separates two snippets, and the context block
    from the question. *)
Definition blank_line : string := Js.nl +:+ Js.nl.

(** The template literal [prompt] of [generateChatResponse]. *)
Definition build_prompt (query : string) (context : list string) : string :=
  let contextText :=
    if (0 <? length context)%nat
    then context_marker +:+ ":" +:+ Js.nl +:+ Js.join blank_line context +:+ blank_line
    else "" in
  contextText +:+ question_label +:+ query +:+ blank_line +:+ instruction.

(** What happens during a request, in order: calls to the storage and to
    the two providers. *)
Inductive event : Type :=
  | EvCreateQuery (query : string)
  | EvEmbeddingsCreate (model input : string)
  | EvChatCompletionsCreate (model : Js.jsval) (prompt : string)
  | EvUpdateQuery
  | EvApiLog (status : Z).

(** A computation that logs events and may throw. *)
Definition traced (A : Type) : Type := list event * Js.result A.

Definition tret {A} (a : A) : traced A := ([], Js.ret a).
Definition emit (e : event) : traced unit := ([e], Js.ret tt).
Definition lift {A} (r : Js.result A) : traced A := ([], r).
Definition tbind {A B} (m : traced A) (k : A -> traced B) : traced B :=
  match m with
  | (tr, inl e) => (tr, inl e)
  | (tr, inr a) => let '(tr', r) := k a in (tr ++ tr', r)
  end.

Declare Scope traced_scope.
Delimit Scope traced_scope with traced.
Notation "x <- m ;; k" := (tbind m (fun x => k))
  (at level 100, m at next level, right associativity) : traced_scope.

Record EmbeddingResponse : Type := {
  e_embedding : list number;
  e_dimensions : nat;
  e_model : string;
}.

Record ChatResponse : Type := {
  c_response : Js.jsval;
  c_tokensUsed : Js.jsval;
  c_model : Js.jsval;
}.

Section Providers.
Variable NumberToString : number -> string.
(** [openai.embeddings.create]: the embedding of the input, or a failure. *)
Variable embeddings_create : string -> string -> Js.result (list number).
(** [openai.chat.completions.create]: the content of the first choice and
    the total token count ([undefined] when the usage is missing). *)
Variable chat_completions_create :
  Js.jsval -> string -> Js.result (Js.jsval * Js.jsval).

Definition generateEmbedding (text : string) : traced EmbeddingResponse :=
  (_ <- emit (EvEmbeddingsCreate "text-embedding-3-small" text) ;;
   emb <- lift (embeddings_create "text-embedding-3-small" text) ;;
   tret {| e_embedding := emb;
           e_dimensions := length emb;
           e_model := "text-embedding-3-small" |})%traced.

(** What [join] writes for an element of the array. *)
Definition element_string (v : Js.jsval) : string :=
  match v with
  | Js.JUndefined | Js.JNull => ""
  | _ => Js.ToString NumberToString v
  end.

(** [generateChatResponse(query, context, model = "gpt-4o")]. *)
Definition generateChatResponse (query : string) (context : list Js.jsval)
  (model : option Js.jsval) : traced ChatResponse :=
  let model := default (Js.JStr "gpt-4o") model in
  let prompt := build_prompt query (map element_string context) in
  (_ <- emit (EvChatCompletionsCreate model prompt) ;;
   completion <- lift (chat_completions_create model prompt) ;;
   tret {| c_response := Js.js_or (fst completion) (Js.JStr "");
           c_tokensUsed := Js.js_or (snd completion) (Js.JNum fzero);
           c_model := model |})%traced.

End Providers.

End OpenAI.

(** ** The query route (server/routes.ts, [POST /api/query]) *)

Module Routes.
Import OpenAI.

Record chat_payload : Type := {
  cp_response : Js.jsval;
  cp_tokensUsed : Js.jsval;
  cp_model : Js.jsval;
  contextCount : nat;
  avgSimilarity : number;
}.

Record query_payload : Type := {
  p_dimensions : nat;
  p_model : string;
  p_preview : list number;
  searchResults : list Pinecone.SimilaritySearchResult;
  chatResponse : chat_payload;
}.

Inductive response : Type :=
  | Ok (body : query_payload)
  | BadRequest (error : string) (details : Js.exn).

(** [searchResults.reduce((sum, r) => sum + r.score, 0)]. *)
Definition sum_scores (l : list Pinecone.SimilaritySearchResult) : number :=
  fold_left (fun sum r => fadd sum (Pinecone.r_score r)) l fzero.

Definition average_similarity (l : list Pinecone.SimilaritySearchResult) : number :=
  if (0 <? length l)%nat
  then fdiv (sum_scores l) (of_Z (Z.of_nat (length l)))
  else fzero.

Section Handler.
Variable NumberToString : number -> string.
Variable toISOString : nat -> string.
Variable embeddings_create : string -> string -> Js.result (list number).
Variable chat_completions_create :
  Js.jsval -> string -> Js.result (Js.jsval * Js.jsval).
(** [insertQuerySchema.parse] of shared/schema.ts, which is not among the
    sources: it returns the validated query text or throws. *)
Variable insertQuerySchema_parse : gmap string Js.jsval -> Js.result string.

(** The arguments the handler reads from the body. *)
Definition body_topK (body : gmap string Js.jsval) : number :=
  Js.parseInt NumberToString (Js.js_or (Js.get body "topK") (Js.JStr "5")).

Definition body_threshold (body : gmap string Js.jsval) : number :=
  Js.parseFloat NumberToString (Js.js_or (Js.get body "threshold") (Js.JStr "0.7")).

Definition body_chatModel (body : gmap string Js.jsval) : Js.jsval :=
  Js.js_or (Js.get body "chatModel") (Js.JStr "gpt-4o").

(** The [try] block once the body is validated. The handler reads [topK],
    [threshold] and [chatModel] from the body just before it uses them;
    reading them has no effect, so they are passed here as arguments. *)
Definition run_pipeline (vectors : Pinecone.vector_map) (queryData : string)
  (topK threshold : number) (chatModel : Js.jsval) (tick : nat)
  : traced query_payload :=
  (_ <- emit (EvCreateQuery queryData) ;;
   embeddingResponse <- generateEmbedding embeddings_create queryData ;;
   found <- lift (Pinecone.query toISOString vectors
                    (e_embedding embeddingResponse)
                    (Some topK) (Some threshold) tick) ;;
   let results := fst found in
   let context := map Pinecone.r_text results in
   chat <- generateChatResponse NumberToString chat_completions_create
             queryData context (Some chatModel) ;;
   _ <- emit EvUpdateQuery ;;
   _ <- emit (EvApiLog 200) ;;
   tret {| p_dimensions := e_dimensions embeddingResponse;
           p_model := e_model embeddingResponse;
           p_preview := take 10 (e_embedding embeddingResponse);
           searchResults := results;
           chatResponse :=
             {| cp_response := c_response chat;
                cp_tokensUsed := c_tokensUsed chat;
                cp_model := c_model chat;
                contextCount := length results;
                avgSimilarity := average_similarity results |} |})%traced.

(** The body of the [try] block. *)
Definition process_query (vectors : Pinecone.vector_map)
  (body : gmap string Js.jsval) (tick : nat) : traced query_payload :=
  (queryData <- lift (insertQuerySchema_parse body) ;;
   run_pipeline vectors queryData
     (body_topK body) (body_threshold body) (body_chatModel body) tick)%traced.

(** The handler: the [catch] block logs the failure and answers 400. *)
Definition post_api_query (vectors : Pinecone.vector_map)
  (body : gmap string Js.jsval) (tick : nat) : list event * response :=
  match process_query vectors body tick with
  | (tr, inr payload) => (tr, Ok payload)
  | (tr, inl e) => (tr ++ [EvApiLog 400], BadRequest "Failed to process query" e)
  end.

End Handler.

End Routes.

(** ** Vocabulary of the statements *)

Module Spec.
Import Pinecone.

(** The exception of [cosineSimilarity] on vectors of different lengths. *)
Definition mismatch : Js.exn := Js.Error "Vectors must have the same length".

(** A score the comparison function orders: a double that is not NaN. *)
Definition good (r : scored) : Prop :=
  fvalid (s_score r) = true /\ is_nan (s_score r) = false.

Definition score_ge (a b : scored) : Prop := num_ge (s_score a) (s_score b) = true.

(** [before a b l]: [a] occurs in [l] with an occurrence of [b] after it. *)
Inductive before {A : Type} (a b : A) : list A -> Prop :=
  | before_here l : In b l -> before a b (a :: l)
  | before_later x l : before a b l -> before a b (x :: l).

(** The element [query] pushes for an entry of score [s]. *)
Definition scored_of (id : string) (v : stored_vector) (s : number) : scored :=
  {| s_id := id; s_score := s; s_metadata := metadata v |}.

(** The number of elements [slice(0, e)] keeps of an array of [len]. *)
Definition kept (len : nat) (e : number) : nat :=
  Z.to_nat (Js.clamp_index (Z.of_nat len) (Js.ToIntegerOrInfinity e)).

(** The result built from an element of metadata [md], when the clock
    has been read [tick] times. *)
Definition result_of (toISOString : nat -> string) (r : scored)
  (md : gmap string Js.jsval) (tick : nat) : SimilaritySearchResult :=
  {| r_id := s_id r;
     r_score := s_score r;
     r_text := Js.js_or (Js.get md "content") (Js.JStr "");
     r_category := Js.js_or (Js.get md "category") (Js.JStr "unknown");
     r_timestamp :=
       if Js.truthy (Js.get md "createdAt") then Js.get md "createdAt"
       else Js.JStr (toISOString tick);
     r_metadata := md |}.

(** The sums of [cosineSimilarity], one at a time. *)
Definition dot (a b : list number) : number :=
  fold_left (fun acc xy => fadd acc (fmul (fst xy) (snd xy))) (combine a b) fzero.

Definition norm_sq (a : list number) : number :=
  fold_left (fun acc x => fadd acc (fmul x x)) a fzero.

(** The Euclidean norm as the code computes it. *)
Definition norm (a : list number) : number := fsqrt (norm_sq a).

Definition is_zero (x : number) : bool :=
  match x with S754_zero _ => true | _ => false end.

(** [contains needle s]: [needle] occurs in [s]. *)
Definition contains (needle s : string) : Prop :=
  exists pre post, s = pre +:+ needle +:+ post.

Definition starts_with (p s : string) : Prop := exists rest, s = p +:+ rest.

Definition ends_with (x s : string) : Prop := exists pre, s = pre +:+ x.

Fixpoint occurs (c : ascii) (s : string) : bool :=
  match s with
  | EmptyString => false
  | String c' s' => Ascii.eqb c c' || occurs c s'
  end.

Fixpoint containsb (needle s : string) : bool :=
  String.prefix needle s ||
  match s with
  | EmptyString => false
  | String _ s' => containsb needle s'
  end.

End Spec.

Import Spec.

(** ** Data of the examples *)

Module Examples.
Import Pinecone.

(** The clock of the examples stands still. *)
Definition clock (n : nat) : string := "2024-05-13T00:00:00.000Z".

(** No number is converted to a string in the examples: the bodies and
    the metadata hold strings only. *)
Definition number_to_string (n : number) : string := "".

Definition lit_0_5 : number := S754_finite false 4503599627370496 (-53).
Definition lit_2 : number := S754_finite false 4503599627370496 (-51).

Definition no_metadata : gmap string Js.jsval := ∅.

Definition paris : gmap string Js.jsval :=
  {[ "content" := Js.JStr "Paris is the capital of France." ]}.

(** The index of the end-to-end scenario: one entry [d1] at [[1, 0]]. *)
Definition index_d1 : vector_map := upsert "d1" [lit_1; fzero] (Some paris) [].

(** Two entries of the same direction, [a] inserted before [b]. *)
Definition index_ab : vector_map :=
  upsert "b" [lit_2; fzero] (Some no_metadata)
    (upsert "a" [lit_1; fzero] (Some no_metadata) []).

(** One entry of length 2 and one of length 3. *)
Definition index_mixed : vector_map :=
  upsert "long" [lit_1; fzero; fzero] (Some no_metadata)
    (upsert "short" [lit_1; fzero] (Some no_metadata) []).




(** A schema that asks for a string [query] and nothing else. *)
Definition schema_query_only (body : gmap string Js.jsval) : Js.result string :=
  match body !! "query" with
  | Some (Js.JStr q) => Js.ret q
  | _ => Js.throw (Js.Error "ZodError")
  end.

Definition embed_unit (model input : string) : Js.result (list number) :=
  Js.ret [lit_1; fzero].


Definition chat_fixed (model : Js.jsval) (prompt : string)
  : Js.result (Js.jsval * Js.jsval) :=
  Js.ret (Js.JStr "An answer.", Js.JUndefined).

Definition body_plain : gmap string Js.jsval := {[ "query" := Js.JStr "capital?" ]}.

Definition body_invalid : gmap string Js.jsval :=
  <[ "threshold" := Js.JStr "2" ]> (<[ "topK" := Js.JStr "-1" ]> body_plain).


(** The handler over the providers of the examples. *)
Definition example_handler :=
  Routes.post_api_query number_to_string clock embed_unit chat_fixed schema_query_only.

End Examples.

(** Case analysis on every comparison of integers in sight. *)
Ltac cmp_cases :=
  repeat match goal with
  | H : context [Z.compare ?a ?b] |- _ => destruct (Z.compare_spec a b)
  | |- context [Z.compare ?a ?b] => destruct (Z.compare_spec a b)
  | H : context [Pos.compare_cont Eq ?a ?b] |- _ =>
      change (Pos.compare_cont Eq a b) with (Pos.compare a b) in H
  | |- context [Pos.compare_cont Eq ?a ?b] =>
      change (Pos.compare_cont Eq a b) with (Pos.compare a b)
  | H : context [Pos.compare ?a ?b] |- _ => destruct (Pos.compare_spec a b)
  | |- context [Pos.compare ?a ?b] => destruct (Pos.compare_spec a b)
  end.

(** Evaluates a call of [query] and names its results. *)
Ltac run_query q Hq :=
  let r := eval vm_compute in q in
  lazymatch r with
  | inr (?res, ?t) =>
      exists res, t;
      assert (Hq : q = inr (res, t)) by (vm_compute; reflexivity)
  end.


(** ** The tables (shared/schema.ts) *)

Module Schema.

(** A [Date] object is identified by the reading of the clock that made
    it: the n-th reading, counted from 0. *)
Definition Date : Type := nat.

(** A value of a [jsonb] column, as far as the code looks into it: the
    elements of an array and the properties of an object are values of
    the kind the index stores. *)
Inductive Json : Type :=
  | JsonNull
  | JsonBool (b : bool)
  | JsonNum (n : number)
  | JsonStr (s : string)
  | JsonArray (elements : list Js.jsval)
  | JsonObject (properties : gmap string Js.jsval).

Record InsertUser : Type := {
  iu_username : string;
  iu_password : string;
}.

Record User : Type := {
  u_id : string;
  u_username : string;
  u_password : string;
}.

(** [metadata] is optional: [None] is a property left out. *)
Record InsertDocument : Type := {
  i_content : string;
  i_category : string;
  i_documentId : string;
  i_metadata : option Json;
}.

Record Document : Type := {
  d_id : string;
  d_content : string;
  d_category : string;
  d_documentId : string;
  d_embedding : option (list number);
  d_metadata : Json;
  d_createdAt : option Date;
}.

Record InsertQuery : Type := {
  iq_query : string;
}.

(** In the nullable columns [None] is [null]. [contextDocuments] is a
    [jsonb] column; the one value the code writes there is an array of
    search results. *)
Record Query : Type := {
  q_id : string;
  q_query : string;
  q_embedding : option (list number);
  q_response : option string;
  q_contextDocuments : option (list Pinecone.SimilaritySearchResult);
  q_similarityScores : option (list number);
  q_tokensUsed : option number;
  q_responseTime : option number;
  q_createdAt : option Date;
}.

(** [Partial<Query>]: a property is left out ([None]) or holds a value of
    its column. *)
Record PartialQuery : Type := {
  pq_id : option string;
  pq_query : option string;
  pq_embedding : option (option (list number));
  pq_response : option (option string);
  pq_contextDocuments : option (option (list Pinecone.SimilaritySearchResult));
  pq_similarityScores : option (option (list number));
  pq_tokensUsed : option (option number);
  pq_responseTime : option (option number);
  pq_createdAt : option (option Date);
}.

(** [Omit<ApiLog, 'id' | 'timestamp'>]. *)
Record InsertApiLog : Type := {
  il_method : string;
  il_endpoint : string;
  il_status : Z;
  il_duration : number;
}.

Record ApiLog : Type := {
  l_id : string;
  l_method : string;
  l_endpoint : string;
  l_status : Z;
  l_duration : number;
  l_timestamp : option Date;
}.

(** [ToBoolean] on a [jsonb] value. *)
Definition json_truthy (j : Json) : bool :=
  match j with
  | JsonNull => false
  | JsonBool b => b
  | JsonNum n => match n with S754_zero _ | S754_nan => false | _ => true end
  | JsonStr s => negb (String.eqb s "")
  | JsonArray _ | JsonObject _ => true
  end.

(** [typeof j === 'object']. *)
Definition json_is_object (j : Json) : bool :=
  match j with
  | JsonNull | JsonArray _ | JsonObject _ => true
  | _ => false
  end.

(** The own enumerable properties [{...j}] copies from an object or an
    array; an array has its indices for keys. *)
Definition own_properties (j : Json) : gmap string Js.jsval :=
  match j with
  | JsonObject o => o
  | JsonArray l => list_to_map (imap (fun i v => (pretty i, v)) l)
  | _ => ∅
  end.

End Schema.

(** ** The in-memory storage (server/storage.ts) *)

Module Storage.
Import Schema.

(** A [Map] with string keys, in iteration order: the order in which the
    keys were first set. *)
Section JsMap.
Context {V : Type}.

Fixpoint Map_set (k : string) (v : V) (m : list (string * V)) : list (string * V) :=
  match m with
  | [] => [(k, v)]
  | (k', v') :: m' =>
      if String.eqb k k' then (k, v) :: m' else (k', v') :: Map_set k v m'
  end.

Fixpoint Map_get (k : string) (m : list (string * V)) : option V :=
  match m with
  | [] => None
  | (k', v) :: m' => if String.eqb k k' then Some v else Map_get k m'
  end.

(** [Array.from(m.values())]. *)
Definition Map_values (m : list (string * V)) : list V := map snd m.

End JsMap.

Record MemStorage : Type := {
  users : list (string * User);
  documents : list (string * Document);
  queries : list (string * Query);
  apiLogs : list (string * ApiLog);
}.

(** The constructor. *)
Definition new_MemStorage : MemStorage :=
  {| users := []; documents := []; queries := []; apiLogs := [] |}.

Definition with_users (m : list (string * User)) (s : MemStorage) : MemStorage :=
  {| users := m; documents := documents s; queries := queries s; apiLogs := apiLogs s |}.
Definition with_documents (m : list (string * Document)) (s : MemStorage) : MemStorage :=
  {| users := users s; documents := m; queries := queries s; apiLogs := apiLogs s |}.
Definition with_queries (m : list (string * Query)) (s : MemStorage) : MemStorage :=
  {| users := users s; documents := documents s; queries := m; apiLogs := apiLogs s |}.
Definition with_apiLogs (m : list (string * ApiLog)) (s : MemStorage) : MemStorage :=
  {| users := users s; documents := documents s; queries := queries s; apiLogs := m |}.

(** The state of the server process: the two exported singletons
    [storage] and [pineconeService], the requests sent to the providers
    so far, and how many times the clock and [randomUUID] have been
    asked. *)
Record world : Type := {
  storage : MemStorage;
  vectors : Pinecone.vector_map;
  calls : list OpenAI.event;
  readings : nat;
  uuids : nat;
}.

Definition with_storage (s : MemStorage) (w : world) : world :=
  {| storage := s; vectors := vectors w; calls := calls w;
     readings := readings w; uuids := uuids w |}.
Definition with_vectors (v : Pinecone.vector_map) (w : world) : world :=
  {| storage := storage w; vectors := v; calls := calls w;
     readings := readings w; uuids := uuids w |}.
Definition with_calls (c : list OpenAI.event) (w : world) : world :=
  {| storage := storage w; vectors := vectors w; calls := c;
     readings := readings w; uuids := uuids w |}.

(** One more reading of the clock, one more identifier drawn. *)
Definition tick (w : world) : world :=
  {| storage := storage w; vectors := vectors w; calls := calls w;
     readings := S (readings w); uuids := uuids w |}.
Definition drawn (w : world) : world :=
  {| storage := storage w; vectors := vectors w; calls := calls w;
     readings := readings w; uuids := S (uuids w) |}.

(** The server at start-up. *)
Definition boot : world :=
  {| storage := new_MemStorage; vectors := []; calls := [];
     readings := 0; uuids := 0 |}.

(** [x || 0] on a number. *)
Definition number_or_0 (x : number) : number :=
  match x with S754_zero _ | S754_nan => fzero | _ => x end.

Section Methods.
(** The identifier the n-th call of [randomUUID] returns. *)
Variable randomUUID : nat -> string.
(** The time value, in milliseconds, of the n-th reading of the clock. *)
Variable getTime : Date -> number.

Definition getUser (id : string) (w : world) : option User :=
  Map_get id (users (storage w)).

Definition getUserByUsername (username : string) (w : world) : option User :=
  List.find (fun user => String.eqb (u_username user) username)
    (Map_values (users (storage w))).

Definition createUser (insertUser : InsertUser) (w : world) : User * world :=
  let id := randomUUID (uuids w) in
  let user := {| u_id := id;
                 u_username := iu_username insertUser;
                 u_password := iu_password insertUser |} in
  (user, with_storage (with_users (Map_set id user (users (storage w))) (storage w))
           (drawn w)).

Definition createDocument (insertDocument : InsertDocument) (w : world)
  : Document * world :=
  let id := randomUUID (uuids w) in
  let document :=
    {| d_id := id;
       d_content := i_content insertDocument;
       d_category := i_category insertDocument;
       d_documentId := i_documentId insertDocument;
       d_embedding := None;
       d_createdAt := Some (readings w);
       d_metadata :=
         match i_metadata insertDocument with
         | Some j => if json_truthy j then j else JsonNull
         | None => JsonNull
         end |} in
  (document,
   with_storage (with_documents (Map_set id document (documents (storage w))) (storage w))
     (tick (drawn w))).

Definition getDocuments (w : world) : list Document :=
  Map_values (documents (storage w)).

Definition getDocumentById (id : string) (w : world) : option Document :=
  Map_get id (documents (storage w)).

Definition clearDocuments (w : world) : world :=
  with_storage (with_documents [] (storage w)) w.

Definition createQuery (insertQuery : InsertQuery) (w : world) : Query * world :=
  let id := randomUUID (uuids w) in
  let query :=
    {| q_id := id;
       q_query := iq_query insertQuery;
       q_embedding := None;
       q_response := None;
       q_contextDocuments := None;
       q_similarityScores := None;
       q_tokensUsed := None;
       q_responseTime := None;
       q_createdAt := Some (readings w) |} in
  (query,
   with_storage (with_queries (Map_set id query (queries (storage w))) (storage w))
     (tick (drawn w))).

Definition getQueries (w : world) : list Query :=
  Map_values (queries (storage w)).

(** [{ ...query, ...updates }]: a property of [updates] replaces the one
    of [query]. *)
Definition merge (query : Query) (updates : PartialQuery) : Query :=
  {| q_id := default (q_id query) (pq_id updates);
     q_query := default (q_query query) (pq_query updates);
     q_embedding := default (q_embedding query) (pq_embedding updates);
     q_response := default (q_response query) (pq_response updates);
     q_contextDocuments :=
       default (q_contextDocuments query) (pq_contextDocuments updates);
     q_similarityScores :=
       default (q_similarityScores query) (pq_similarityScores updates);
     q_tokensUsed := default (q_tokensUsed query) (pq_tokensUsed updates);
     q_responseTime := default (q_responseTime query) (pq_responseTime updates);
     q_createdAt := default (q_createdAt query) (pq_createdAt updates) |}.

Definition updateQuery (id : string) (updates : PartialQuery) (w : world)
  : option Query * world :=
  match Map_get id (queries (storage w)) with
  | None => (None, w)
  | Some query =>
      let updatedQuery := merge query updates in
      (Some updatedQuery,
       with_storage (with_queries (Map_set id updatedQuery (queries (storage w)))
                       (storage w)) w)
  end.

Definition createApiLog (log : InsertApiLog) (w : world) : ApiLog * world :=
  let id := randomUUID (uuids w) in
  let apiLog :=
    {| l_id := id;
       l_method := il_method log;
       l_endpoint := il_endpoint log;
       l_status := il_status log;
       l_duration := il_duration log;
       l_timestamp := Some (readings w) |} in
  (apiLog,
   with_storage (with_apiLogs (Map_set id apiLog (apiLogs (storage w))) (storage w))
     (tick (drawn w))).

(** [log.timestamp?.getTime() || 0]. *)
Definition time_or_0 (log : ApiLog) : number :=
  match l_timestamp log with
  | Some d => number_or_0 (getTime d)
  | None => fzero
  end.

(** [(a, b) => (b.timestamp?.getTime() || 0) - (a.timestamp?.getTime() || 0)]. *)
Definition by_time_desc (a b : ApiLog) : number := fsub (time_or_0 b) (time_or_0 a).

Definition getApiLogs (w : world) : list ApiLog :=
  Js.sort by_time_desc (Map_values (apiLogs (storage w))).

Definition clearApiLogs (w : world) : world :=
  with_storage (with_apiLogs [] (storage w)) w.

End Methods.

End Storage.

(** ** The other routes (server/routes.ts) *)

Module Api.
Import Schema Storage.

(** A computation of a handler: it changes the state of the process and
    returns or throws. *)
Definition io (A : Type) : Type := world -> Js.result A * world.

Definition io_ret {A} (a : A) : io A := fun w => (inr a, w).
Definition io_bind {A B} (m : io A) (k : A -> io B) : io B :=
  fun w => match m w with
           | (inl e, w') => (inl e, w')
           | (inr a, w') => k a w'
           end.

Declare Scope io_scope.
Delimit Scope io_scope with io.
Notation "x <- m ;; k" := (io_bind m (fun x => k))
  (at level 100, m at next level, right associativity) : io_scope.

(** A pure step that may throw; a method of the storage; a change of the
    state; a call of a provider, whose requests are recorded. *)
Definition io_lift {A} (r : Js.result A) : io A := fun w => (r, w).
Definition io_call {A} (f : world -> A * world) : io A :=
  fun w => let '(a, w') := f w in (inr a, w').
Definition io_read {A} (f : world -> A) : io A := fun w => (inr (f w), w).
Definition io_update (f : world -> world) : io unit := fun w => (inr tt, f w).
Definition io_traced {A} (m : OpenAI.traced A) : io A :=
  fun w => (snd m, with_calls (calls w ++ fst m) w).

(** [try { m } catch (error) { h }]. *)
Definition try_catch {A} (m : io A) (h : Js.exn -> io A) : io A :=
  fun w => match m w with
           | (inl e, w') => h e w'
           | (inr a, w') => (inr a, w')
           end.

(** [error instanceof Error ? error.message : "Unknown error"]: every
    exception of the model is an [Error]. *)
Definition details_of (e : Js.exn) : string :=
  match e with Js.Error m | Js.TypeError m => m end.

(** What a handler sends: [res.status(s).json(body)], and the answer of a
    [catch] block. *)
Inductive reply (A : Type) : Type :=
  | Sent (status : Z) (body : A)
  | Failed (status : Z) (error details : string).
Arguments Sent {A} status body.
Arguments Failed {A} status error details.

Record connections : Type := {
  openai : bool;
  pinecone : bool;
  vectorCount : nat;
}.

Record created : Type := {
  document : Document;
  dimensions : nat;
  model : string;
}.

Section Handlers.
Variable randomUUID : nat -> string.
(** The time [Date.now()] returns at the n-th reading of the clock, and
    the string [toISOString] gives for the [Date] made by that reading. *)
Variable getTime : nat -> number.
Variable toISOString : nat -> string.
Variable embeddings_create : string -> string -> Js.result (list number).
(** [openai.models.list()]: it returns or fails. *)
Variable models_list : Js.result unit.
(** The body of a request, and [insertDocumentSchema.parse] on it: the
    schema is built by a library; it returns the validated document or
    throws. *)
Variable request_body : Type.
Variable insertDocumentSchema_parse : request_body -> Js.result InsertDocument.

Definition Date_now : io number :=
  fun w => (inr (getTime (readings w)), tick w).

(** The log entry every handler writes: [duration] is measured from
    [startTime] and stored in seconds. *)
Definition log_request (method endpoint : string) (status : Z) (startTime : number)
  : io unit :=
  (now <- Date_now ;;
   let duration := fsub now startTime in
   _ <- io_call (createApiLog randomUUID
          {| il_method := method; il_endpoint := endpoint; il_status := status;
             il_duration := fdiv duration (of_Z 1000) |}) ;;
   io_ret tt)%io.

(** [testOpenAIConnection] (server/services/openai.ts). *)
Definition testOpenAIConnection : bool :=
  match models_list with inr _ => true | inl _ => false end.

(** [PineconeService.testConnection]. *)
Definition testConnection : bool := true.

(** [GET /api/test-connections]. *)
Definition get_api_test_connections : io (reply connections) :=
  (startTime <- Date_now ;;
   try_catch
     (let openaiStatus := testOpenAIConnection in
      let pineconeStatus := testConnection in
      _ <- log_request "GET" "/api/test-connections" 200 startTime ;;
      count <- io_read (fun w => Pinecone.getVectorCount (vectors w)) ;;
      io_ret (Sent 200 {| openai := openaiStatus; pinecone := pineconeStatus;
                          vectorCount := count |}))
     (fun error =>
      _ <- log_request "GET" "/api/test-connections" 500 startTime ;;
      io_ret (Failed 500 "Failed to test connections" (details_of error))))%io.

(** The metadata object written to the index with a document: the
    properties of the document's own [metadata], when it is an object,
    are spread last and replace the four the handler sets. *)
Definition index_metadata (documentData : InsertDocument) (document : Document)
  : gmap string Js.jsval :=
  let base : gmap string Js.jsval :=
    <[ "createdAt" := match d_createdAt document with
                      | Some d => Js.JStr (toISOString d)
                      | None => Js.JUndefined
                      end ]>
    (<[ "documentId" := Js.JStr (i_documentId documentData) ]>
     (<[ "category" := Js.JStr (i_category documentData) ]>
      (<[ "content" := Js.JStr (i_content documentData) ]> ∅))) in
  let spread : gmap string Js.jsval :=
    match i_metadata documentData with
    | Some j => if json_truthy j && json_is_object j then own_properties j else ∅
    | None => ∅
    end in
  spread ∪ base.

(** [POST /api/documents]. *)
Definition post_api_documents (body : request_body) : io (reply created) :=
  (startTime <- Date_now ;;
   try_catch
     (documentData <- io_lift (insertDocumentSchema_parse body) ;;
      embeddingResponse <-
        io_traced (OpenAI.generateEmbedding embeddings_create (i_content documentData)) ;;
      document <- io_call (createDocument randomUUID documentData) ;;
      let metadata := index_metadata documentData document in
      _ <- io_update (fun w =>
             with_vectors
               (Pinecone.upsert (d_id document)
                  (OpenAI.e_embedding embeddingResponse) (Some metadata) (vectors w)) w) ;;
      _ <- log_request "POST" "/api/documents" 201 startTime ;;
      io_ret (Sent 201 {| document := document;
                          dimensions := OpenAI.e_dimensions embeddingResponse;
                          model := OpenAI.e_model embeddingResponse |}))
     (fun error =>
      _ <- log_request "POST" "/api/documents" 400 startTime ;;
      io_ret (Failed 400 "Failed to add document" (details_of error))))%io.

(** [GET /api/documents]. *)
Definition get_api_documents : io (reply (list Document)) :=
  (startTime <- Date_now ;;
   try_catch
     (documents <- io_read getDocuments ;;
      _ <- log_request "GET" "/api/documents" 200 startTime ;;
      io_ret (Sent 200 documents))
     (fun error =>
      _ <- log_request "GET" "/api/documents" 500 startTime ;;
      io_ret (Failed 500 "Failed to get documents" (details_of error))))%io.

(** [DELETE /api/documents]. *)
Definition delete_api_documents : io (reply string) :=
  (startTime <- Date_now ;;
   try_catch
     (_ <- io_update clearDocuments ;;
      _ <- io_update (fun w => with_vectors (Pinecone.deleteAll (vectors w)) w) ;;
      _ <- log_request "DELETE" "/api/documents" 200 startTime ;;
      io_ret (Sent 200 "Knowledge base cleared successfully"))
     (fun error =>
      _ <- log_request "DELETE" "/api/documents" 500 startTime ;;
      io_ret (Failed 500 "Failed to clear knowledge base" (details_of error))))%io.

(** [GET /api/logs]. *)
Definition get_api_logs : io (reply (list ApiLog)) :=
  try_catch
    (logs <- io_read (getApiLogs getTime) ;;
     io_ret (Sent 200 logs))%io
    (fun error => io_ret (Failed 500 "Failed to get API logs" (details_of error))).

(** [DELETE /api/logs]. *)
Definition delete_api_logs : io (reply string) :=
  try_catch
    (_ <- io_update clearApiLogs ;;
     io_ret (Sent 200 "API logs cleared successfully"))%io
    (fun error => io_ret (Failed 500 "Failed to clear API logs" (details_of error))).

End Handlers.

End Api.

(** ** Data of the examples of the storage and of the routes *)

Module Scenario.
Import Schema Storage.

(** Identifiers [id-0], [id-1], ... in the order they are drawn. *)
Definition uuid (n : nat) : string := "id-" +:+ pretty n.

(** A clock that advances by one millisecond at every reading, from
    2024-05-13T00:00:00Z. *)
Definition millis (n : nat) : number := of_Z (1715558400000 + Z.of_nat n).

Definition iso (n : nat) : string := "2024-05-13T00:00:00.00" +:+ pretty n +:+ "Z".

(** A schema that asks for a content that is not empty. *)
Definition accept_document (body : InsertDocument) : Js.result InsertDocument :=
  if String.eqb (i_content body) "" then Js.throw (Js.Error "ZodError") else Js.ret body.

Definition paris_document : InsertDocument :=
  {| i_content := "Paris is the capital of France.";
     i_category := "geography";
     i_documentId := "doc-1";
     i_metadata := Some (JsonObject {[ "source" := Js.JStr "atlas" ]}) |}.

Definition log_at (id : string) (status : Z) (timestamp : option Date) : ApiLog :=
  {| l_id := id; l_method := "GET"; l_endpoint := "/api/documents";
     l_status := status; l_duration := fzero; l_timestamp := timestamp |}.

(** Three log entries: two written at the reading 7, in the order [a],
    [b], and an earlier one without a time. *)
Definition three_logs : world :=
  with_storage
    (with_apiLogs [("n", log_at "n" 500 None);
                   ("a", log_at "a" 200 (Some 7%nat));
                   ("b", log_at "b" 400 (Some 7%nat))] new_MemStorage) boot.

(** An index of two entries: [x] in the direction of [[1, 0]], [y] at 45
    degrees from it. *)
Definition index_xy : Pinecone.vector_map :=
  Pinecone.upsert "y" [lit_1; lit_1] (Some Examples.no_metadata)
    (Pinecone.upsert "x" [lit_1; fzero] (Some Examples.no_metadata) []).

(** Two scored elements, the lower score first. *)
Definition low : Pinecone.scored :=
  {| Pinecone.s_id := "low"; Pinecone.s_score := fzero; Pinecone.s_metadata := None |}.
Definition high : Pinecone.scored :=
  {| Pinecone.s_id := "high"; Pinecone.s_score := lit_1; Pinecone.s_metadata := None |}.

End Scenario.

(** Answers with the reply computed, the state reached and the log entry
    written. *)
Ltac answer_with_log :=
  eexists; eexists; eexists ?[log]; split; [reflexivity|]; simpl;
  split;
  [instantiate (log := {| Schema.l_id := _; Schema.l_method := _;
                          Schema.l_endpoint := _; Schema.l_status := _;
                          Schema.l_duration := _; Schema.l_timestamp := _ |});
   reflexivity
  |repeat split].

(** * Properties *)

(** ** Rounding: what the operations of binary64 return *)

Section Rounding.

Lemma digits2_pos_size p : digits2_pos p = Pos.size p.
Proof. induction p; simpl; congruence. Qed.

Lemma Zdigits2_nonneg m : 0 <= Zdigits2 m.
Proof. destruct m; simpl; lia. Qed.

Lemma Zdigits2_log2 m : 0 < m -> Zdigits2 m = Z.log2 m + 1.
Proof.
  destruct m as [|p|p]; try lia. intros _. simpl. rewrite digits2_pos_size.
  destruct p; simpl; lia.
Qed.

Lemma Zdigits2_bounds m : 0 < m -> 2 ^ (Zdigits2 m - 1) <= m < 2 ^ Zdigits2 m.
Proof.
  intros H. rewrite Zdigits2_log2 by assumption.
  replace (Z.log2 m + 1 - 1) with (Z.log2 m) by lia.
  replace (Z.log2 m + 1) with (Z.succ (Z.log2 m)) by lia.
  apply Z.log2_spec. assumption.
Qed.

Lemma Zdigits2_unique m k : 2 ^ (k - 1) <= m < 2 ^ k -> 0 < m -> Zdigits2 m = k.
Proof.
  intros H Hm. rewrite Zdigits2_log2 by assumption.
  assert (0 < k).
  { destruct (Z.lt_trichotomy k 0) as [Hk|[Hk|Hk]]; try assumption.
    - rewrite (Z.pow_neg_r 2 k) in H by assumption. lia.
    - subst k. simpl in H. lia. }
  assert (Z.log2 m = k - 1); [|lia].
  apply Z.log2_unique; [lia|]. replace (Z.succ (k - 1)) with k by lia. assumption.
Qed.

Lemma shr_1_m r : 0 <= shr_m r -> shr_m (shr_1 r) = shr_m r / 2.
Proof.
  destruct r as [m r s]. simpl. intros H.
  destruct m as [|[p|p|]|p]; cbn [shr_m]; try lia; try reflexivity.
  - change (Z.pos p = Z.pos p~1 / 2). apply Z.div_unique with (r := 1); lia.
  - change (Z.pos p = Z.pos p~0 / 2). apply Z.div_unique with (r := 0); lia.
Qed.

Lemma shr_1_nonneg r : 0 <= shr_m r -> 0 <= shr_m (shr_1 r).
Proof. intros H. rewrite shr_1_m by assumption. apply Z.div_pos; lia. Qed.

Lemma pow2_xI p : 2 ^ Z.pos p~1 = 2 * 2 ^ Z.pos p * 2 ^ Z.pos p.
Proof.
  replace (Z.pos p~1) with (1 + Z.pos p + Z.pos p) by lia.
  rewrite !Z.pow_add_r by lia. reflexivity.
Qed.

Lemma pow2_xO p : 2 ^ Z.pos p~0 = 2 ^ Z.pos p * 2 ^ Z.pos p.
Proof.
  replace (Z.pos p~0) with (Z.pos p + Z.pos p) by lia.
  rewrite !Z.pow_add_r by lia. reflexivity.
Qed.

Lemma iter_shr_1_m p : forall r, 0 <= shr_m r ->
  shr_m (SpecFloat.iter_pos shr_1 p r) = shr_m r / 2 ^ Zpos p.
Proof.
  induction p as [p IH|p IH|]; intros r Hr; simpl SpecFloat.iter_pos.
  - assert (H1 := shr_1_nonneg r Hr).
    assert (H2 : 0 <= shr_m (SpecFloat.iter_pos shr_1 p (shr_1 r))).
    { rewrite IH by assumption. apply Z.div_pos; lia. }
    rewrite IH, IH, shr_1_m by assumption.
    rewrite !Z.div_div by lia. rewrite pow2_xI. f_equal. lia.
  - assert (H2 : 0 <= shr_m (SpecFloat.iter_pos shr_1 p r)).
    { rewrite IH by assumption. apply Z.div_pos; lia. }
    rewrite IH, IH by assumption.
    rewrite !Z.div_div by lia. rewrite pow2_xO. f_equal.
  - rewrite shr_1_m by assumption. reflexivity.
Qed.

Lemma Zdigits2_le m k : 0 <= m < 2 ^ k -> 0 <= k -> Zdigits2 m <= k.
Proof.
  intros [H0 H1] Hk. destruct (Z.eq_dec m 0) as [->|Hm]; [simpl; lia|].
  destruct (Zdigits2_bounds m) as [Hl _]; [lia|].
  assert (2 ^ (Zdigits2 m - 1) < 2 ^ k) as Hlt by lia.
  apply Z.pow_lt_mono_r_iff in Hlt; lia.
Qed.

Lemma Zdigits2_ge m k : 2 ^ (k - 1) <= m -> 0 < k -> k <= Zdigits2 m.
Proof.
  intros H Hk. assert (0 < 2 ^ (k - 1)) by (apply Z.pow_pos_nonneg; lia).
  destruct (Zdigits2_bounds m) as [_ Hu]; [lia|].
  assert (2 ^ (k - 1) < 2 ^ Zdigits2 m) as Hlt by lia.
  apply Z.pow_lt_mono_r_iff in Hlt; [lia|lia|apply Zdigits2_nonneg].
Qed.

Lemma shr_record_of_loc_m m l : shr_m (shr_record_of_loc m l) = m.
Proof. destruct l as [|[]]; reflexivity. Qed.

Lemma shr_fexp_spec m e l : 0 <= m ->
  let n := Z.max 0 (fexp (Zdigits2 m + e) - e) in
  shr_m (fst (shr_fexp prec emax m e l)) = m / 2 ^ n /\
  snd (shr_fexp prec emax m e l) = e + n.
Proof.
  intros Hm n. unfold shr_fexp, shr. subst n.
  destruct (fexp (Zdigits2 m + e) - e) as [|p|p] eqn:E; simpl fst; simpl snd.
  - rewrite shr_record_of_loc_m. change (2 ^ Z.max 0 0) with 1. rewrite Z.div_1_r. lia.
  - rewrite iter_shr_1_m by (rewrite shr_record_of_loc_m; assumption).
    rewrite shr_record_of_loc_m. rewrite Z.max_r by lia. split; [reflexivity|lia].
  - rewrite shr_record_of_loc_m. rewrite Z.max_l by lia. change (2 ^ 0) with 1. rewrite Z.div_1_r. lia.
Qed.

Lemma round_nearest_even_cases m l :
  round_nearest_even m l = m \/ round_nearest_even m l = m + 1.
Proof.
  destruct l as [|[]]; simpl; auto. destruct (Z.even m); auto.
Qed.

Lemma binary_round_aux_pack s m e l :
  binary_round_aux prec emax s m e l =
  let r1 := shr_fexp prec emax m e l in
  let r2 := shr_fexp prec emax
              (round_nearest_even (shr_m (fst r1)) (loc_of_shr_record (fst r1)))
              (snd r1) loc_Exact in
  pack s (shr_m (fst r2)) (snd r2).
Proof.
  unfold binary_round_aux, pack.
  destruct (shr_fexp prec emax m e l) as [r1 e1]. cbn [fst snd].
  destruct (shr_fexp prec emax _ e1 loc_Exact) as [r2 e2]. reflexivity.
Qed.

Lemma fexp_eq x : fexp x = Z.max (x - 53) (-1074).
Proof. reflexivity. Qed.

Lemma pow2_split a b : 0 <= a -> 0 <= b -> 2 ^ (a + b) = 2 ^ a * 2 ^ b.
Proof. intros. apply Z.pow_add_r; assumption. Qed.

Lemma div_pow2_bounds m d n :
  0 <= n -> n <= d -> 2 ^ (d - 1) <= m < 2 ^ d -> n < d ->
  2 ^ (d - n - 1) <= m / 2 ^ n < 2 ^ (d - n).
Proof.
  intros Hn Hnd [Hl Hu] Hlt.
  assert (0 < 2 ^ n) by (apply Z.pow_pos_nonneg; lia).
  split.
  - apply Z.div_le_lower_bound; [assumption|].
    rewrite <- pow2_split by lia. replace (n + (d - n - 1)) with (d - 1) by lia. assumption.
  - apply Z.div_lt_upper_bound; [assumption|].
    rewrite <- pow2_split by lia. replace (n + (d - n)) with d by lia. assumption.
Qed.

Lemma div_pow2_small m d n :
  0 <= m < 2 ^ d -> 0 <= d -> d <= n -> m / 2 ^ n = 0.
Proof.
  intros [H0 H1] Hd Hn. apply Z.div_small. split; [assumption|].
  apply Z.lt_le_trans with (2 ^ d); [assumption|].
  apply Z.pow_le_mono_r; lia.
Qed.

Lemma binary_round_aux_spec s m e l :
  0 <= m -> e <= fexp (Zdigits2 m + e) ->
  exists m2 e2,
    binary_round_aux prec emax s m e l = pack s m2 e2 /\
    0 <= m2 /\
    (0 < m2 -> fexp (Zdigits2 m2 + e2) = e2) /\
    e2 <= fexp (Zdigits2 m + e) + 1 /\
    (0 < m -> emin <= e -> 0 < m2).
Proof.
  intros Hm He. rewrite binary_round_aux_pack. cbv zeta.
  destruct (shr_fexp_spec m e l Hm) as [Hm1 He1].
  set (r1 := shr_fexp prec emax m e l) in *.
  set (m1 := shr_m (fst r1)) in *. set (e1 := snd r1) in *.
  set (m1' := round_nearest_even m1 (loc_of_shr_record (fst r1))).
  assert (Hr : m1' = m1 \/ m1' = m1 + 1) by apply round_nearest_even_cases.
  rewrite Z.max_r in Hm1, He1 by lia.
  remember (Zdigits2 m) as d eqn:Hd.
  remember (fexp (d + e) - e) as n eqn:Hndef.
  assert (Hn : 0 <= n) by lia.
  assert (H2n : 0 < 2 ^ n) by (apply Z.pow_pos_nonneg; lia).
  assert (Hm1pos : 0 <= m1) by (rewrite Hm1; apply Z.div_pos; lia).
  assert (Hm1' : 0 <= m1') by lia.
  destruct (shr_fexp_spec m1' e1 loc_Exact Hm1') as [Hm2 He2].
  set (r2 := shr_fexp prec emax m1' e1 loc_Exact) in *.
  exists (shr_m (fst r2)), (snd r2). split; [reflexivity|].
  assert (Hd0 : 0 <= d) by (subst d; apply Zdigits2_nonneg).
  (* bound on the rounded mantissa *)
  assert (Hb : (2 ^ 52 <= m1 < 2 ^ 53 /\ e1 = d + e - 53 /\ -1074 <= d + e - 53 /\ 0 < m) \/
               (m1 < 2 ^ 52 /\ e1 = -1074 /\ (0 < m -> emin <= e -> 0 < m1))).
  { destruct (Z.eq_dec m 0) as [Hz|Hnz].
    - right. subst m. simpl Zdigits2 in Hd. subst d. rewrite fexp_eq in *.
      rewrite Hm1. rewrite Z.div_0_l by lia. split; [lia|]. split; lia.
    - destruct (Zdigits2_bounds m) as [Hl Hu]; [lia|]. rewrite <- Hd in Hl, Hu.
      rewrite fexp_eq in *.
      destruct (Z_le_gt_dec (-1074) (d + e - 53)) as [Hc|Hc].
      + left. rewrite Z.max_l in * by lia.
        assert (n = d - 53) by lia.
        destruct (div_pow2_bounds m d n) as [A B]; try lia.
        replace (d - n - 1) with 52 in A by lia. replace (d - n) with 53 in B by lia.
        rewrite <- Hm1 in A, B. repeat split; lia.
      + right. rewrite Z.max_r in * by lia.
        assert (n = -1074 - e) by lia.
        split; [|split; [lia|]].
        * destruct (Z_lt_le_dec n d) as [Hnd|Hnd].
          -- destruct (div_pow2_bounds m d n) as [A B]; try lia.
             rewrite <- Hm1 in B. apply Z.lt_le_trans with (2 ^ (d - n)); [assumption|].
             apply Z.pow_le_mono_r; lia.
          -- rewrite Hm1, (div_pow2_small m d n) by lia. lia.
        * intros _ Hemin. change emin with (-1074) in Hemin.
          assert (n = 0) by lia. rewrite Hm1. replace n with 0. rewrite Z.div_1_r. lia. }
  rewrite fexp_eq in He.
  destruct Hb as [(Hb1 & Hb2 & Hb3 & Hb4)|(Hb1 & Hb2 & Hb3)].
  - (* normal range *)
    assert (e1 = fexp (d + e)) by (rewrite fexp_eq; lia).
    destruct (Z.eq_dec m1' (2 ^ 53)) as [Hc|Hc].
    + assert (Zdigits2 m1' = 54) by (apply Zdigits2_unique; rewrite Hc; simpl; lia).
      rewrite H0, fexp_eq in Hm2, He2.
      rewrite Z.max_r in Hm2, He2 by lia.
      replace (Z.max (54 + e1 - 53) (-1074) - e1) with 1 in * by lia.
      rewrite Hc in Hm2. change (2 ^ 53 / 2 ^ 1) with (2 ^ 52) in Hm2.
      rewrite Hm2, He2. split; [simpl; lia|]. split.
      * intros _. change (Zdigits2 (2 ^ 52)) with 53. rewrite fexp_eq. lia.
      * split; [lia|]. intros; simpl; lia.
    + assert (Zdigits2 m1' = 53) by (apply Zdigits2_unique; simpl; simpl in Hb1; lia).
      rewrite H0, fexp_eq in Hm2, He2.
      replace (Z.max (53 + e1 - 53) (-1074) - e1) with 0 in * by lia.
      simpl in Hm2. rewrite Z.div_1_r in Hm2. rewrite Hm2, He2.
      split; [lia|]. split.
      * intros _. rewrite H0, fexp_eq. lia.
      * split; [lia|]. intros; simpl in Hb1; lia.
  - (* subnormal range *)
    assert (Hd' : Zdigits2 m1' <= 53).
    { apply Zdigits2_le; [|lia]. split; [lia|]. simpl; simpl in Hb1; lia. }
    assert (0 <= Zdigits2 m1') by apply Zdigits2_nonneg.
    rewrite fexp_eq in Hm2, He2.
    replace (Z.max (Zdigits2 m1' + e1 - 53) (-1074) - e1) with 0 in * by lia.
    simpl in Hm2. rewrite Z.div_1_r in Hm2. rewrite Hm2, He2.
    split; [lia|]. split.
    + intros _. rewrite fexp_eq. lia.
    + split; [rewrite fexp_eq; lia|]. intros A B. specialize (Hb3 A B). lia.
Qed.

Lemma pack_valid s m e :
  0 <= m -> (0 < m -> fexp (Zdigits2 m + e) = e) ->
  valid_binary prec emax (pack s m e) = true /\ pack s m e <> S754_nan.
Proof.
  intros Hm Hc. unfold pack. destruct m as [|p|p]; [split; [reflexivity|discriminate]| |lia].
  destruct (e <=? emax - prec) eqn:E; [|split; [reflexivity|discriminate]].
  split; [|discriminate]. simpl. unfold bounded, canonical_mantissa.
  rewrite E, andb_true_r. apply Z.eqb_eq. apply Hc. lia.
Qed.

Lemma SFdiv_core_binary_spec m1 e1 m2 e2 :
  0 < m1 -> 0 < m2 ->
  let '(q, e', _) := SFdiv_core_binary prec emax m1 e1 m2 e2 in
  0 <= q /\ e' <= fexp (Zdigits2 q + e').
Proof.
  intros H1 H2. unfold SFdiv_core_binary.
  set (d1 := Zdigits2 m1). set (d2 := Zdigits2 m2).
  set (e' := Z.min (fexp (d1 + e1 - (d2 + e2))) (e1 - e2)).
  set (s := e1 - e2 - e').
  set (m' := match s with Z.pos _ => Z.shiftl m1 s | 0 => m1 | Z.neg _ => 0 end).
  assert (Hs : 0 <= s) by (unfold s, e'; lia).
  assert (Hm' : m' = m1 * 2 ^ s).
  { unfold m'. destruct s; [simpl; lia| |lia]. rewrite Z.shiftl_mul_pow2; lia. }
  assert (Hq := Z_div_mod m' m2 ltac:(lia)).
  unfold Z.div. destruct (Z.div_eucl m' m2) as [q r] eqn:E.
  assert (Hqd : q = m' / m2) by (unfold Z.div; rewrite E; reflexivity).
  assert (H2s : 0 < 2 ^ s) by (apply Z.pow_pos_nonneg; lia).
  assert (Hq0 : 0 <= q) by (rewrite Hqd; apply Z.div_pos; nia).
  split; [assumption|].
  rewrite fexp_eq. destruct (Z_le_gt_dec e' (-1074)) as [Hle|Hgt]; [lia|].
  assert (53 <= Zdigits2 q); [|lia].
  destruct (Zdigits2_bounds m1 H1) as [A1 B1]. destruct (Zdigits2_bounds m2 H2) as [A2 B2].
  fold d1 in A1, B1. fold d2 in A2, B2.
  assert (Hk : 53 <= d1 - d2 + s).
  { unfold s. unfold e' in *. rewrite fexp_eq in *. lia. }
  assert (0 < d1) by (unfold d1; destruct m1; simpl; lia).
  assert (0 < d2) by (unfold d2; destruct m2; simpl; lia).
  apply Z.le_trans with (d1 - d2 + s); [assumption|].
  apply Zdigits2_ge; [|lia].
  rewrite Hqd. apply Z.div_le_lower_bound; [lia|].
  apply Z.le_trans with (2 ^ d2 * 2 ^ (d1 - d2 + s - 1)).
  - apply Z.mul_le_mono_nonneg_r; [apply Z.pow_nonneg; lia|lia].
  - rewrite <- pow2_split by lia. replace (d2 + (d1 - d2 + s - 1)) with ((d1 - 1) + s) by lia.
    rewrite pow2_split by lia. rewrite Hm'. apply Z.mul_le_mono_nonneg_r; lia.
Qed.

Lemma fdiv_valid x y : fvalid (fdiv x y) = true.
Proof.
  destruct x as [sx|sx| |sx mx ex], y as [sy|sy| |sy my ey]; try reflexivity.
  unfold fvalid, fdiv, SFdiv.
  pose proof (SFdiv_core_binary_spec (Zpos mx) ex (Zpos my) ey ltac:(lia) ltac:(lia)) as H.
  destruct (SFdiv_core_binary prec emax (Z.pos mx) ex (Z.pos my) ey) as [[q e'] l].
  destruct H as [Hq He].
  destruct (binary_round_aux_spec (xorb sx sy) q e' l Hq He) as (m2 & e2 & -> & A & B & _).
  apply pack_valid; assumption.
Qed.

Lemma pos_iter_xO m d : Z.pos (Pos.iter xO m d) = Z.pos m * 2 ^ Z.pos d.
Proof.
  induction d as [|d IH] using Pos.peano_ind.
  - simpl. lia.
  - rewrite Pos.iter_succ, Pos2Z.inj_xO, IH, Pos2Z.inj_succ, Z.pow_succ_r by lia. lia.
Qed.

Lemma shl_align_spec mx ex ez :
  Z.pos (fst (shl_align mx ex ez)) = Z.pos mx * 2 ^ Z.max 0 (ex - ez) /\
  snd (shl_align mx ex ez) = Z.min ex ez.
Proof.
  unfold shl_align. destruct (ez - ex) as [|d|d] eqn:E; cbn [fst snd].
  - replace (ex - ez) with 0 by lia. change (2 ^ Z.max 0 0) with 1. lia.
  - rewrite Z.max_l by lia. change (2 ^ 0) with 1. lia.
  - rewrite pos_iter_xO. rewrite Z.max_r by lia. split; [f_equal; f_equal; lia|lia].
Qed.

Lemma Zdigits2_mul_pow2 m k : 0 < m -> 0 <= k -> Zdigits2 (m * 2 ^ k) = Zdigits2 m + k.
Proof.
  intros Hm Hk. destruct (Zdigits2_bounds m Hm) as [A B].
  assert (0 < 2 ^ k) by (apply Z.pow_pos_nonneg; lia).
  assert (0 < Zdigits2 m) by (destruct m; simpl; lia).
  apply Zdigits2_unique; [|nia].
  replace (Zdigits2 m + k - 1) with ((Zdigits2 m - 1) + k) by lia.
  rewrite !pow2_split by lia. split.
  - apply Z.mul_le_mono_nonneg_r; lia.
  - apply Z.mul_lt_mono_pos_r; lia.
Qed.

Lemma binary_round_pack s p e :
  exists m2 e2,
    binary_round prec emax s p e = pack s m2 e2 /\
    0 <= m2 /\ (0 < m2 -> fexp (Zdigits2 m2 + e2) = e2) /\
    e2 <= fexp (Zdigits2 (Z.pos p) + e) + 1 /\
    (emin <= e -> 0 < m2).
Proof.
  unfold binary_round.
  set (F := fexp (Z.pos (digits2_pos p) + e)).
  destruct (shl_align_spec p e F) as [Hm Hz].
  destruct (shl_align p e F) as [mz ez]. cbn [fst snd] in Hm, Hz.
  assert (Hdig : Zdigits2 (Z.pos mz) + ez = Zdigits2 (Z.pos p) + e).
  { rewrite Hm, Zdigits2_mul_pow2 by lia. lia. }
  assert (HF : F = fexp (Zdigits2 (Z.pos p) + e)) by reflexivity.
  assert (Hpre : ez <= fexp (Zdigits2 (Z.pos mz) + ez)) by (rewrite Hdig, <- HF; lia).
  destruct (binary_round_aux_spec s (Z.pos mz) ez loc_Exact ltac:(lia) Hpre)
    as (m2 & e2 & Heq & A & B & C & D).
  exists m2, e2. split; [assumption|]. split; [assumption|]. split; [assumption|].
  split; [rewrite Hdig in C; assumption|].
  intros He. apply D; [lia|].
  rewrite Hz. unfold F. rewrite fexp_eq. change emin with (-1074) in *. lia.
Qed.

Lemma binary_round_spec s p e :
  emin <= e ->
  exists m2 e2,
    binary_round prec emax s p e = pack s m2 e2 /\
    0 < m2 /\ fexp (Zdigits2 m2 + e2) = e2 /\
    e2 <= fexp (Zdigits2 (Z.pos p) + e) + 1.
Proof.
  intros He. destruct (binary_round_pack s p e) as (m2 & e2 & Heq & A & B & C & D).
  exists m2, e2. specialize (D He). repeat split; auto.
Qed.

Lemma pack_pos s m e : 0 < m ->
  pack s m e = S754_infinity s \/ exists p e', pack s m e = S754_finite s p e'.
Proof.
  intros H. unfold pack. destruct m as [|p|p]; try lia.
  destruct (e <=? emax - prec); eauto.
Qed.

Lemma valid_finite_canonical s m e :
  valid_binary prec emax (S754_finite s m e) = true ->
  fexp (Zdigits2 (Z.pos m) + e) = e.
Proof.
  simpl. unfold bounded, canonical_mantissa. intros H.
  apply andb_true_iff in H. destruct H as [H _]. apply Z.eqb_eq in H. exact H.
Qed.

Lemma canonical_magnitude_lt m1 e1 m2 e2 :
  fexp (Zdigits2 (Z.pos m1) + e1) = e1 ->
  fexp (Zdigits2 (Z.pos m2) + e2) = e2 ->
  e1 < e2 ->
  Z.pos m1 < Z.pos m2 * 2 ^ (e2 - e1).
Proof.
  intros C1 C2 Hlt. rewrite fexp_eq in C1, C2.
  destruct (Zdigits2_bounds (Z.pos m1)) as [A1 B1]; [lia|].
  destruct (Zdigits2_bounds (Z.pos m2)) as [A2 B2]; [lia|].
  assert (Zdigits2 (Z.pos m2) = 53) as D2 by lia.
  assert (Zdigits2 (Z.pos m1) <= 53) as D1 by lia.
  rewrite D2 in A2. 
  assert (2 ^ Zdigits2 (Z.pos m1) <= 2 ^ 53) by (apply Z.pow_le_mono_r; lia).
  assert (2 ^ 1 <= 2 ^ (e2 - e1)) by (apply Z.pow_le_mono_r; lia).
  change (2 ^ 1) with 2 in *. change (2 ^ (53 - 1)) with 4503599627370496 in A2.
  change (2 ^ 53) with 9007199254740992 in *. nia.
Qed.

Lemma SFcompare_aligned sx mx ex sy my ey :
  valid_binary prec emax (S754_finite sx mx ex) = true ->
  valid_binary prec emax (S754_finite sy my ey) = true ->
  SFcompare (S754_finite sx mx ex) (S754_finite sy my ey) =
  Some (aligned sx mx ex (Z.min ex ey) ?= aligned sy my ey (Z.min ex ey)).
Proof.
  intros Vx Vy. apply valid_finite_canonical in Vx, Vy.
  unfold aligned.
  destruct (shl_align_spec mx ex (Z.min ex ey)) as [-> _].
  destruct (shl_align_spec my ey (Z.min ex ey)) as [-> _].
  simpl SFcompare. f_equal.
  assert (Hm : (Z.pos mx * 2 ^ Z.max 0 (ex - Z.min ex ey) ?=
                Z.pos my * 2 ^ Z.max 0 (ey - Z.min ex ey)) =
               match ex ?= ey with
               | Lt => Lt | Gt => Gt | Eq => Pos.compare_cont Eq mx my
               end).
  { destruct (Z.compare_spec ex ey) as [E|E|E].
    - subst ey. rewrite Z.min_id, Z.sub_diag. change (2 ^ Z.max 0 0) with 1.
      rewrite !Z.mul_1_r. reflexivity.
    - rewrite Z.min_l by lia. rewrite Z.sub_diag. change (2 ^ Z.max 0 0) with 1.
      rewrite Z.mul_1_r, Z.max_r by lia. apply Z.compare_lt_iff.
      apply canonical_magnitude_lt; assumption.
    - rewrite Z.min_r by lia. rewrite Z.sub_diag. change (2 ^ Z.max 0 0) with 1.
      rewrite Z.mul_1_r, Z.max_r by lia. apply Z.compare_gt_iff.
      apply canonical_magnitude_lt; assumption. }
  assert (0 < 2 ^ Z.max 0 (ex - Z.min ex ey)) by (apply Z.pow_pos_nonneg; lia).
  assert (0 < 2 ^ Z.max 0 (ey - Z.min ex ey)) by (apply Z.pow_pos_nonneg; lia).
  set (X := Z.pos mx * 2 ^ Z.max 0 (ex - Z.min ex ey)) in *.
  set (Y := Z.pos my * 2 ^ Z.max 0 (ey - Z.min ex ey)) in *.
  assert (0 < X) by (unfold X; lia). assert (0 < Y) by (unfold Y; lia).
  destruct sx, sy; unfold cond_Zopp.
  - rewrite Z.compare_opp, (Z.compare_antisym X Y), Hm.
    destruct (ex ?= ey); reflexivity.
  - symmetry. apply Z.compare_lt_iff. lia.
  - symmetry. apply Z.compare_gt_iff. lia.
  - rewrite Hm. reflexivity.
Qed.

Lemma pack_pos_compare s m e :
  0 < m ->
  is_nan (pack s m e) = false /\
  SFcompare (pack s m e) fzero = Some (if s then Lt else Gt).
Proof.
  intros H. destruct (pack_pos s m e H) as [->|(p & e' & ->)]; destruct s; split; reflexivity.
Qed.

(** The sign of a rounded difference is the order of its operands: the
    subtraction of two doubles never rounds a non-zero difference to zero.
    A NaN difference (of two equal infinities) is read as [+0]. *)
Lemma fsub_compare x y c :
  fvalid x = true -> fvalid y = true ->
  SFcompare x y = Some c ->
  SFcompare (if is_nan (fsub x y) then fzero else fsub x y) fzero = Some c.
Proof.
  intros Vx Vy.
  destruct x as [sx|sx| |sx mx ex], y as [sy|sy| |sy my ey];
    try (destruct sx, sy; simpl; congruence);
    try (destruct sx; simpl; congruence);
    try (destruct sy; simpl; congruence);
    try (simpl; congruence).
  unfold fvalid in Vx, Vy.
  rewrite (SFcompare_aligned _ _ _ _ _ _ Vx Vy). intros [= <-].
  unfold fsub, SFsub. fold (aligned sx mx ex (Z.min ex ey)). fold (aligned sy my ey (Z.min ex ey)).
  set (a := aligned sx mx ex (Z.min ex ey)). set (b := aligned sy my ey (Z.min ex ey)).
  rewrite (Z.compare_sub a b).
  assert (Hemin : emin <= Z.min ex ey).
  { apply valid_finite_canonical in Vx, Vy. rewrite fexp_eq in Vx, Vy.
    change emin with (-1074). lia. }
  unfold binary_normalize. destruct (a - b) as [|p|p] eqn:E.
  - reflexivity.
  - destruct (binary_round_spec false p _ Hemin) as (m2 & e2 & -> & Hpos & _).
    destruct (pack_pos_compare false m2 e2 Hpos) as [-> ->]. reflexivity.
  - destruct (binary_round_spec true p _ Hemin) as (m2 & e2 & -> & Hpos & _).
    destruct (pack_pos_compare true m2 e2 Hpos) as [-> ->]. reflexivity.
Qed.

Lemma SFcompare_antisym x y :
  SFcompare y x = option_map CompOpp (SFcompare x y).
Proof.
  destruct x as [sx|sx| |sx mx ex], y as [sy|sy| |sy my ey];
    try (destruct sx, sy; reflexivity); try (destruct sx; reflexivity);
    try (destruct sy; reflexivity); try reflexivity.
  simpl. f_equal.
  rewrite (Z.compare_antisym ex ey).
  change (Pos.compare_cont Eq my mx) with (Pos.compare my mx).
  change (Pos.compare_cont Eq mx my) with (Pos.compare mx my).
  rewrite (Pos.compare_antisym mx my).
  destruct sx, sy; try reflexivity; destruct (ex ?= ey); simpl; try reflexivity;
    destruct (Pos.compare mx my); reflexivity.
Qed.

Lemma SFcompare_trans x y z c1 c2 :
  SFcompare x y = Some c1 -> SFcompare y z = Some c2 ->
  (c1 = Eq -> SFcompare x z = Some c2) /\
  (c2 = Eq -> SFcompare x z = Some c1) /\
  (c1 = c2 -> SFcompare x z = Some c1).
Proof.
  destruct x as [sx|sx| |sx mx ex], y as [sy|sy| |sy my ey], z as [sz|sz| |sz mz ez];
    try discriminate;
    try (destruct sx); try (destruct sy); try (destruct sz); simpl;
    intros H1 H2; injection H1 as <-; injection H2 as <-;
    try (repeat split; intros; congruence);
    cmp_cases; subst; simpl; repeat split; intros; try congruence; try lia.
Qed.

End Rounding.


(** ** The literals of the source *)

Section Literals.

Lemma integer_literals :
  of_Z 5 = lit_5 /\ of_Z 1 = lit_1 /\ of_Z (-1) = lit_minus_1 /\ of_Z 0 = fzero.
Proof. repeat split; vm_compute; reflexivity. Qed.

(** [lit_0_7] is within half a unit in the last place of 7/10. *)
Lemma lit_0_7_nearest :
  exists m, lit_0_7 = S754_finite false m (-53) /\
            2 * Z.abs (10 * Z.pos m - 7 * 2 ^ 53) <= 10.
Proof. eexists. split; [reflexivity|]. vm_compute. discriminate. Qed.

(** The strings the handler falls back to parse to the literals. *)
Lemma parsed_defaults :
  Js.parseInt_string "5" = lit_5 /\ Js.parseFloat_string "0.7" = lit_0_7.
Proof. split; vm_compute; reflexivity. Qed.

Lemma parse_examples :
  Js.parseInt_string "  42px" = of_Z 42 /\
  Js.parseInt_string "0x1F" = of_Z 31 /\
  Js.parseInt_string "-7.9" = of_Z (-7) /\
  Js.parseInt_string "abc" = fNaN /\
  Js.parseFloat_string "-Infinity" = S754_infinity true /\
  Js.parseFloat_string "1e3" = of_Z 1000 /\
  Js.parseFloat_string ".5x" = S754_finite false 4503599627370496 (-53) /\
  Js.parseFloat_string "" = fNaN.
Proof. repeat split; vm_compute; reflexivity. Qed.

End Literals.

(** ** Order on numbers *)

Section NumberOrder.

Lemma SFcompare_total x y :
  is_nan x = false -> is_nan y = false -> exists c, SFcompare x y = Some c.
Proof.
  destruct x as [sx|sx| |sx mx ex], y as [sy|sy| |sy my ey];
    try discriminate; intros _ _; simpl; eauto.
Qed.

Lemma SFcompare_not_nan x y c :
  SFcompare x y = Some c -> is_nan x = false /\ is_nan y = false.
Proof.
  destruct x as [sx|sx| |sx mx ex], y as [sy|sy| |sy my ey];
    try discriminate; auto.
Qed.

Lemma num_ge_not_nan x y : num_ge x y = true -> is_nan x = false /\ is_nan y = false.
Proof.
  unfold num_ge. destruct (SFcompare x y) as [c|] eqn:E; [|discriminate].
  intros _. eapply SFcompare_not_nan; eassumption.
Qed.

Lemma num_ge_not_lt x y : num_ge x y = true -> num_lt x y = false.
Proof. unfold num_ge, num_lt. destruct (SFcompare x y) as [[]|]; congruence. Qed.

Lemma num_lt_false_ge x y :
  is_nan x = false -> is_nan y = false -> num_lt x y = false -> num_ge x y = true.
Proof.
  intros Hx Hy. destruct (SFcompare_total x y Hx Hy) as [c Hc].
  unfold num_ge, num_lt. rewrite Hc. destruct c; congruence.
Qed.

Lemma num_lt_ge_flip x y : num_lt x y = true -> num_ge y x = true.
Proof.
  unfold num_lt, num_ge. rewrite (SFcompare_antisym x y).
  destruct (SFcompare x y) as [[]|]; simpl; congruence.
Qed.

Lemma num_ge_trans x y z : num_ge x y = true -> num_ge y z = true -> num_ge x z = true.
Proof.
  unfold num_ge. destruct (SFcompare x y) as [c1|] eqn:E1; [|discriminate].
  destruct (SFcompare y z) as [c2|] eqn:E2; [|destruct c1; discriminate].
  destruct (SFcompare_trans x y z c1 c2 E1 E2) as (A & B & C).
  destruct c1, c2; try discriminate; intros _ _;
    first [rewrite A by reflexivity | rewrite B by reflexivity | rewrite C by reflexivity];
    reflexivity.
Qed.

Lemma num_strict_eq_ge x y : num_strict_eq x y = true -> num_ge x y = true /\ num_ge y x = true.
Proof.
  unfold num_strict_eq, num_ge. rewrite (SFcompare_antisym x y).
  destruct (SFcompare x y) as [[]|]; simpl; try discriminate. auto.
Qed.

Lemma num_strict_eq_not_lt x y : num_strict_eq x y = true -> num_lt x y = false.
Proof. unfold num_strict_eq, num_lt. destruct (SFcompare x y) as [[]|]; congruence. Qed.

End NumberOrder.

(** ** The sort of [query] *)

Section SortFacts.
Import Pinecone.

(** The comparison function is consistent with [<] on scores. *)
Lemma by_score_desc_after x y :
  good x -> good y ->
  num_gt (Js.SortCompare by_score_desc x y) fzero = num_lt (s_score x) (s_score y).
Proof.
  intros [Vx Nx] [Vy Ny].
  destruct (SFcompare_total (s_score y) (s_score x) Ny Nx) as [c Hc].
  pose proof (fsub_compare _ _ _ Vy Vx Hc) as H.
  unfold Js.SortCompare, by_score_desc, num_gt, num_lt. cbv zeta. rewrite H.
  rewrite (SFcompare_antisym (s_score y) (s_score x)), Hc.
  destruct c; reflexivity.
Qed.

Lemma sort_insert_perm {A} (cmp : A -> A -> number) x l :
  Permutation (Js.sort_insert cmp x l) (x :: l).
Proof.
  induction l as [|y l IH]; simpl; [reflexivity|].
  destruct (num_gt _ _); [|reflexivity].
  rewrite IH. apply perm_swap.
Qed.

Lemma sort_perm {A} (cmp : A -> A -> number) l : Permutation (Js.sort cmp l) l.
Proof.
  induction l as [|x l IH]; simpl; [reflexivity|].
  rewrite sort_insert_perm. constructor. exact IH.
Qed.

Lemma sort_insert_sorted x l :
  good x -> Forall good l ->
  StronglySorted score_ge l -> StronglySorted score_ge (Js.sort_insert by_score_desc x l).
Proof.
  intros Gx Gl Hs. induction l as [|y l IH]; simpl.
  - repeat constructor.
  - inversion Gl as [|? ? Gy Gl']; subst. inversion Hs as [|? ? Hs' Hy]; subst.
    rewrite by_score_desc_after by assumption.
    destruct (num_lt (s_score x) (s_score y)) eqn:E.
    + constructor; [apply IH; assumption|].
      rewrite sort_insert_perm. constructor; [|assumption].
      apply num_lt_ge_flip. exact E.
    + assert (Hxy : score_ge x y).
      { apply num_lt_false_ge; [apply Gx|apply Gy|exact E]. }
      constructor; [assumption|]. constructor; [assumption|].
      eapply Forall_impl; [exact Hy|]. intros z Hz.
      eapply num_ge_trans; eassumption.
Qed.

Lemma sort_sorted l :
  Forall good l -> StronglySorted score_ge (Js.sort by_score_desc l).
Proof.
  induction l as [|x l IH]; simpl; intros G; [constructor|].
  inversion G; subst. apply sort_insert_sorted; auto.
  rewrite sort_perm. assumption.
Qed.

End SortFacts.

(** ** Relative order in an array, and the stability of the sort *)

Section Stability.
Import Pinecone.

Lemma before_split {A} (a b : A) p q : In b q -> before a b (p ++ a :: q).
Proof.
  intros H. induction p as [|y p IH]; simpl.
  - constructor. exact H.
  - apply before_later. exact IH.
Qed.

Lemma before_insert_mid {A} (a b x : A) p q :
  before a b (p ++ q) -> before a b (p ++ x :: q).
Proof.
  induction p as [|y p IH]; simpl; intros H.
  - apply before_later. exact H.
  - inversion H as [l Hin|z l Hb]; subst.
    + apply before_here. apply in_app_iff in Hin. apply in_app_iff.
      destruct Hin; [left|right; right]; assumption.
    + apply before_later. apply IH. exact Hb.
Qed.

Lemma before_decompose {A} (a b : A) l :
  before a b l -> exists p q, l = p ++ a :: q /\ In b q.
Proof.
  induction 1 as [l Hin|x l _ (p & q & -> & Hin)].
  - exists [], l. split; [reflexivity|exact Hin].
  - exists (x :: p), q. split; [reflexivity|exact Hin].
Qed.

Lemma before_map {A B} (f : A -> B) (a b : A) l :
  before a b l -> before (f a) (f b) (map f l).
Proof.
  induction 1 as [l Hin|x l _ IH]; simpl.
  - apply before_here. apply in_map. exact Hin.
  - apply before_later. exact IH.
Qed.

Lemma before_In {A} (a b : A) l : before a b l -> In a l /\ In b l.
Proof.
  induction 1 as [l Hin|x l _ [IHa IHb]]; simpl; auto.
Qed.

Lemma before_take {A} (a b : A) n l :
  NoDup l -> before a b l -> In b (take n l) -> before a b (take n l).
Proof.
  intros Hnd H. revert n. induction H as [l Hin|x l Hb IH]; intros [|n]; simpl; try tauto.
  - apply NoDup_cons in Hnd. destruct Hnd as [Hnotin _].
    rewrite list_elem_of_In in Hnotin.
    intros [Heq|Hb]; [subst; contradiction|]. apply before_here. exact Hb.
  - apply NoDup_cons in Hnd. destruct Hnd as [Hnotin Hnd].
    rewrite list_elem_of_In in Hnotin.
    intros [Heq|Hin].
    + subst x. destruct (before_In _ _ _ Hb) as [_ Hbl]. contradiction.
    + apply before_later. apply IH; assumption.
Qed.

Lemma sort_insert_split x l :
  good x -> Forall good l ->
  exists p q, l = p ++ q /\ Js.sort_insert by_score_desc x l = p ++ x :: q /\
    Forall (fun y => num_lt (s_score x) (s_score y) = true) p.
Proof.
  intros Gx Gl. induction l as [|y l IH]; simpl.
  - exists [], []. repeat split. constructor.
  - inversion Gl as [|? ? Gy Gl']; subst.
    rewrite by_score_desc_after by assumption.
    destruct (num_lt (s_score x) (s_score y)) eqn:E.
    + destruct (IH Gl') as (p & q & -> & -> & Hp).
      exists (y :: p), q. repeat split. constructor; assumption.
    + exists [], (y :: l). repeat split. constructor.
Qed.

Lemma sort_insert_before_old a b x l :
  good x -> Forall good l ->
  before a b l -> before a b (Js.sort_insert by_score_desc x l).
Proof.
  intros Gx Gl H. destruct (sort_insert_split x l Gx Gl) as (p & q & -> & -> & _).
  apply before_insert_mid. exact H.
Qed.

Lemma sort_insert_before_new x b l :
  good x -> Forall good l -> In b l ->
  num_strict_eq (s_score x) (s_score b) = true ->
  before x b (Js.sort_insert by_score_desc x l).
Proof.
  intros Gx Gl Hin Heq. destruct (sort_insert_split x l Gx Gl) as (p & q & -> & -> & Hp).
  apply before_split. apply in_app_iff in Hin. destruct Hin as [Hin|Hin]; [|exact Hin].
  rewrite Forall_forall in Hp. apply list_elem_of_In in Hin. specialize (Hp b Hin).
  rewrite num_strict_eq_not_lt in Hp by assumption. discriminate.
Qed.

(** The sort is stable: two elements of equal score keep their order. *)
Lemma sort_stable a b l :
  Forall good l -> before a b l ->
  num_strict_eq (s_score a) (s_score b) = true ->
  before a b (Js.sort by_score_desc l).
Proof.
  intros G H Heq. induction H as [l Hin|x l Hb IH]; simpl.
  - inversion G; subst. apply sort_insert_before_new; try assumption.
    + rewrite sort_perm. assumption.
    + apply (Permutation_in _ (Permutation_sym (sort_perm _ _))). exact Hin.
  - inversion G; subst. apply sort_insert_before_old; auto.
    rewrite sort_perm. assumption.
Qed.

End Stability.


(** ** The sort is the stable sort *)

Section SortUnique.
Import Pinecone.

Lemma before_or {A} (a b : A) l :
  a <> b -> In a l -> In b l -> before a b l \/ before b a l.
Proof.
  intros Hne. induction l as [|x l IH]; [intros []|].
  intros [->|Ha] [->|Hb].
  - contradiction.
  - left. apply before_here. exact Hb.
  - right. apply before_here. exact Ha.
  - destruct (IH Ha Hb); [left|right]; apply before_later; assumption.
Qed.

Lemma before_head_absurd {A} (a b : A) l :
  NoDup (b :: l) -> before a b (b :: l) -> False.
Proof.
  intros Hnd H. apply NoDup_cons in Hnd. destruct Hnd as [Hb _].
  rewrite list_elem_of_In in Hb. inversion H as [l' Hin|x l' Hb']; subst.
  - contradiction.
  - apply before_In in Hb'. tauto.
Qed.

Lemma before_tail {A} (a b x : A) l :
  a <> x -> before a b (x :: l) -> before a b l.
Proof. intros Hne H. inversion H; subst; [contradiction|assumption]. Qed.

Lemma before_asym {A} (a b : A) l :
  NoDup l -> before a b l -> before b a l -> False.
Proof.
  intros Hnd Hab. induction Hab as [l0 Hin|x l0 Hab IH]; intros Hba.
  - apply (before_head_absurd b a l0 Hnd Hba).
  - apply NoDup_cons in Hnd. destruct Hnd as [Hx Hnd].
    rewrite list_elem_of_In in Hx.
    apply IH; [exact Hnd|].
    apply (before_tail b a x); [|exact Hba].
    intros ->. apply before_In in Hab. tauto.
Qed.

Lemma before_irrefl {A} (a : A) l : NoDup l -> before a a l -> False.
Proof. intros Hnd H. exact (before_asym a a l Hnd H H). Qed.

(** Two sorted arrangements of the same distinct elements that order the
    elements of equal score alike are equal. *)
Lemma sorted_arrangement_unique (s1 s2 : list scored) :
  NoDup s1 -> Permutation s1 s2 ->
  StronglySorted score_ge s1 -> StronglySorted score_ge s2 ->
  (forall a b, num_strict_eq (s_score a) (s_score b) = true ->
     before a b s1 -> before a b s2) ->
  s1 = s2.
Proof.
  revert s2. induction s1 as [|h1 t1 IH]; intros s2 Hnd Hp Hs1 Hs2 Hord.
  - apply Permutation_nil in Hp. congruence.
  - destruct s2 as [|h2 t2]; [apply Permutation_sym, Permutation_nil in Hp; discriminate|].
    assert (Hnd2 : NoDup (h2 :: t2)) by (rewrite <- Hp; exact Hnd).
    assert (Hh : h1 = h2).
    { destruct (Permutation_in h2 (Permutation_sym Hp) (or_introl eq_refl)) as [E|Hin1];
        [exact E|].
      destruct (Permutation_in h1 Hp (or_introl eq_refl)) as [E|Hin2]; [congruence|].
      exfalso.
      inversion Hs1 as [|? ? _ Hall1]; subst. inversion Hs2 as [|? ? _ Hall2]; subst.
      rewrite Forall_forall in Hall1, Hall2.
      apply list_elem_of_In in Hin1. apply list_elem_of_In in Hin2.
      pose proof (Hall1 h2 Hin1) as G1. pose proof (Hall2 h1 Hin2) as G2.
      unfold score_ge in G1, G2.
      assert (Heq : num_strict_eq (s_score h1) (s_score h2) = true).
      { unfold num_ge in G1, G2. unfold num_strict_eq.
        rewrite (SFcompare_antisym (s_score h1) (s_score h2)) in G2.
        destruct (SFcompare (s_score h1) (s_score h2)) as [[]|]; simpl in *; congruence. }
      apply list_elem_of_In in Hin1.
      apply (before_head_absurd h1 h2 t2 Hnd2).
      apply Hord; [exact Heq|]. apply before_here. exact Hin1. }
    subst h2. f_equal.
    apply NoDup_cons in Hnd. destruct Hnd as [Hh1 Hnd1].
    rewrite list_elem_of_In in Hh1.
    inversion Hs1; subst. inversion Hs2; subst.
    apply IH; try assumption.
    + eapply Permutation_cons_inv. exact Hp.
    + intros a b Heq Hb. apply (before_tail a b h1).
      * intros ->. apply before_In in Hb. tauto.
      * apply Hord; [exact Heq|]. apply before_later. exact Hb.
Qed.

(** X1. Any sorted permutation of [l] that keeps the elements of equal score
    in their order is the array the model of [sort] returns: with a
    comparison function that is consistent on [l], the result does not
    depend on the algorithm. *)
Theorem sort_is_the_stable_sort (l l' : list scored) :
  Forall good l -> NoDup l ->
  Permutation l' l ->
  StronglySorted score_ge l' ->
  (forall a b, num_strict_eq (s_score a) (s_score b) = true ->
     before a b l -> before a b l') ->
  l' = Js.sort by_score_desc l.
Proof.
  intros Hgood Hnd Hp Hs Hstable.
  assert (Hps : Permutation (Js.sort by_score_desc l) l) by apply sort_perm.
  assert (Hnd' : NoDup l') by (rewrite Hp; exact Hnd).
  assert (Hnds : NoDup (Js.sort by_score_desc l)) by (rewrite Hps; exact Hnd).
  apply sorted_arrangement_unique; try assumption.
  - rewrite Hp, Hps. reflexivity.
  - apply sort_sorted. exact Hgood.
  - intros a b Heq Hb.
    destruct (before_In _ _ _ Hb) as [Ha Hb'].
    assert (Hne : a <> b) by (intros ->; exact (before_irrefl b l' Hnd' Hb)).
    destruct (before_or a b l Hne) as [Hab|Hba].
    + apply (Permutation_in _ Hp). exact Ha.
    + apply (Permutation_in _ Hp). exact Hb'.
    + apply sort_stable; assumption.
    + exfalso.
      assert (Heq' : num_strict_eq (s_score b) (s_score a) = true).
      { unfold num_strict_eq in *. rewrite (SFcompare_antisym (s_score a) (s_score b)).
        destruct (SFcompare (s_score a) (s_score b)) as [[]|]; simpl in *; congruence. }
      exact (before_asym a b l' Hnd' Hb (Hstable b a Heq' Hba)).
Qed.

End SortUnique.

(** ** [cosineSimilarity] and the loop of [query] *)

Section ScanFacts.
Import Pinecone.

Lemma cosineSimilarity_mismatch a b :
  length a <> length b -> cosineSimilarity a b = inl mismatch.
Proof.
  intros H. unfold cosineSimilarity.
  destruct (Nat.eqb_spec (length a) (length b)); [contradiction|reflexivity].
Qed.

Lemma cosineSimilarity_inr a b s :
  cosineSimilarity a b = inr s -> length a = length b /\ fvalid s = true.
Proof.
  unfold cosineSimilarity.
  destruct (Nat.eqb_spec (length a) (length b)) as [E|E]; simpl; [|discriminate].
  destruct (sums a b) as [[d na] nb].
  destruct (num_strict_eq (fsqrt na) fzero || num_strict_eq (fsqrt nb) fzero);
    intros [= <-]; split; auto. apply fdiv_valid.
Qed.

Lemma cosineSimilarity_defined a b :
  length a = length b -> exists s, cosineSimilarity a b = inr s.
Proof.
  intros E. unfold cosineSimilarity.
  destruct (Nat.eqb_spec (length a) (length b)) as [_|N]; [|contradiction]. simpl.
  destruct (sums a b) as [[d na] nb].
  destruct (num_strict_eq (fsqrt na) fzero || num_strict_eq (fsqrt nb) fzero); eauto.
Qed.

Lemma cosineSimilarity_throws a b e :
  cosineSimilarity a b = inl e -> e = mismatch /\ length a <> length b.
Proof.
  unfold cosineSimilarity.
  destruct (Nat.eqb_spec (length a) (length b)) as [E|E]; simpl.
  - destruct (sums a b) as [[d na] nb].
    destruct (num_strict_eq (fsqrt na) fzero || num_strict_eq (fsqrt nb) fzero); discriminate.
  - intros [= <-]. auto.
Qed.

(** What the loop computes when no stored vector has a wrong length. *)
Lemma scan_cons emb t id v rest :
  scan emb t ((id, v) :: rest) =
  match cosineSimilarity emb (embedding v) with
  | inl e => inl e
  | inr s =>
      match scan emb t rest with
      | inl e => inl e
      | inr results =>
          inr (if num_ge s t then scored_of id v s :: results else results)
      end
  end.
Proof. reflexivity. Qed.

Lemma scan_throws emb t entries e :
  scan emb t entries = inl e ->
  e = mismatch /\ exists id v, In (id, v) entries /\ length (embedding v) <> length emb.
Proof.
  induction entries as [|[id v] rest IH]; [discriminate|].
  rewrite scan_cons.
  destruct (cosineSimilarity emb (embedding v)) as [e'|s] eqn:E.
  - intros [= <-]. apply cosineSimilarity_throws in E. destruct E as [-> E].
    split; [reflexivity|]. exists id, v. split; [left; reflexivity|congruence].
  - destruct (scan emb t rest) as [e'|results]; [|discriminate].
    intros [= <-]. destruct (IH eq_refl) as [-> (id' & v' & Hin & Hlen)].
    split; [reflexivity|]. exists id', v'. split; [right; exact Hin|exact Hlen].
Qed.

Lemma scan_mismatch emb t entries id v :
  In (id, v) entries -> length (embedding v) <> length emb ->
  scan emb t entries = inl mismatch.
Proof.
  induction entries as [|[id' v'] rest IH]; [contradiction|].
  intros Hin Hlen. rewrite scan_cons.
  destruct (cosineSimilarity emb (embedding v')) as [e'|s] eqn:E.
  - apply cosineSimilarity_throws in E. destruct E as [-> _]. reflexivity.
  - destruct Hin as [[= -> ->]|Hin].
    + apply cosineSimilarity_inr in E. destruct E as [E _]. congruence.
    + rewrite (IH Hin Hlen). reflexivity.
Qed.

Lemma scan_defined emb t entries :
  (forall id v, In (id, v) entries -> length (embedding v) = length emb) ->
  exists results, scan emb t entries = inr results.
Proof.
  intros H. destruct (scan emb t entries) as [e|results] eqn:E; [|eauto].
  apply scan_throws in E. destruct E as [_ (id & v & Hin & Hlen)].
  specialize (H id v Hin). contradiction.
Qed.

(** Every element pushed comes from an entry, with its score, and passed
    the threshold. *)
Lemma scan_In emb t entries results r :
  scan emb t entries = inr results -> In r results ->
  exists v, In (s_id r, v) entries /\
    cosineSimilarity emb (embedding v) = inr (s_score r) /\
    num_ge (s_score r) t = true /\ r = scored_of (s_id r) v (s_score r).
Proof.
  revert results. induction entries as [|[id v] rest IH]; intros results.
  - intros [= <-] [].
  - rewrite scan_cons.
    destruct (cosineSimilarity emb (embedding v)) as [e'|s] eqn:E; [discriminate|].
    destruct (scan emb t rest) as [e'|results'] eqn:E'; [discriminate|].
    intros [= <-] Hin.
    assert (Hrest : In r results' -> exists v0, In (s_id r, v0) ((id, v) :: rest) /\
      cosineSimilarity emb (embedding v0) = inr (s_score r) /\
      num_ge (s_score r) t = true /\ r = scored_of (s_id r) v0 (s_score r)).
    { intros Hr. destruct (IH _ eq_refl Hr) as (v0 & A & B). exists v0.
      split; [right; exact A|exact B]. }
    destruct (num_ge s t) eqn:G; [|auto].
    destruct Hin as [<-|Hr]; [|auto].
    exists v. simpl. repeat split; auto.
Qed.

Lemma scan_good emb t entries results :
  scan emb t entries = inr results -> Forall good results.
Proof.
  intros H. apply Forall_forall. intros r Hr. apply list_elem_of_In in Hr.
  destruct (scan_In _ _ _ _ _ H Hr) as (v & _ & Hc & Hge & _).
  split.
  - apply cosineSimilarity_inr in Hc. apply Hc.
  - apply num_ge_not_nan in Hge. apply Hge.
Qed.

(** An entry whose score passes the threshold is pushed. *)
Lemma scan_complete emb t entries results id v s :
  scan emb t entries = inr results -> In (id, v) entries ->
  cosineSimilarity emb (embedding v) = inr s -> num_ge s t = true ->
  In (scored_of id v s) results.
Proof.
  revert results. induction entries as [|[id' v'] rest IH]; intros results; [intros _ []|].
  rewrite scan_cons.
  destruct (cosineSimilarity emb (embedding v')) as [e'|s'] eqn:E; [discriminate|].
  destruct (scan emb t rest) as [e'|results'] eqn:E'; [discriminate|].
  intros [= <-] Hin Hc Hge.
  destruct Hin as [[= -> ->]|Hin].
  - rewrite Hc in E. injection E as <-. rewrite Hge. left. reflexivity.
  - specialize (IH _ eq_refl Hin Hc Hge). destruct (num_ge s' t); [right|]; exact IH.
Qed.

(** The identifiers pushed are a subsequence of the keys of the map. *)
Lemma scan_ids_sublist emb t entries results :
  scan emb t entries = inr results ->
  sublist (map s_id results) (map fst entries).
Proof.
  revert results. induction entries as [|[id v] rest IH]; intros results.
  - intros [= <-]. constructor.
  - rewrite scan_cons.
    destruct (cosineSimilarity emb (embedding v)) as [e'|s] eqn:E; [discriminate|].
    destruct (scan emb t rest) as [e'|results'] eqn:E'; [discriminate|].
    intros [= <-]. specialize (IH _ eq_refl).
    destruct (num_ge s t); simpl.
    + apply sublist_skip. exact IH.
    + apply sublist_cons. exact IH.
Qed.

(** The loop keeps the iteration order of the map. *)
Lemma scan_before emb t l1 id1 v1 l2 id2 v2 l3 s1 s2 results :
  scan emb t (l1 ++ (id1, v1) :: l2 ++ (id2, v2) :: l3) = inr results ->
  cosineSimilarity emb (embedding v1) = inr s1 ->
  cosineSimilarity emb (embedding v2) = inr s2 ->
  num_ge s1 t = true -> num_ge s2 t = true ->
  before (scored_of id1 v1 s1) (scored_of id2 v2 s2) results.
Proof.
  intros H C1 C2 G1 G2. revert results H.
  induction l1 as [|[id v] l1 IH]; intros results; simpl app.
  - rewrite scan_cons, C1.
    destruct (scan emb t (l2 ++ (id2, v2) :: l3)) as [e'|results'] eqn:E'; [discriminate|].
    intros [= <-]. rewrite G1. apply before_here.
    eapply scan_complete; try eassumption.
    apply in_app_iff. right. left. reflexivity.
  - rewrite scan_cons.
    destruct (cosineSimilarity emb (embedding v)) as [e'|s] eqn:E; [discriminate|].
    destruct (scan emb t _) as [e'|results'] eqn:E'; [discriminate|].
    intros [= <-]. specialize (IH _ eq_refl).
    destruct (num_ge s t); [apply before_later|]; exact IH.
Qed.

End ScanFacts.

(** ** [slice(0, topK)] and the final [map] *)

Section SliceFacts.

Lemma clamp_index_range len i : 0 <= len -> 0 <= Js.clamp_index len i <= len.
Proof.
  intros H. destruct i as [|z|]; simpl; try lia.
  destruct (Z.ltb_spec z 0); lia.
Qed.

Lemma slice_zero {A} (l : list A) e : Js.slice l fzero e = take (kept (length l) e) l.
Proof.
  unfold Js.slice, kept. simpl Js.ToIntegerOrInfinity.
  set (len := Z.of_nat (length l)).
  assert (Hlen : 0 <= len) by (unfold len; lia).
  pose proof (clamp_index_range len (Js.ToIntegerOrInfinity e) Hlen) as Hr.
  assert (Hk : Js.clamp_index len (Js.Int 0) = 0).
  { simpl. lia. }
  rewrite Hk. simpl drop. f_equal. lia.
Qed.

Lemma trunc_le_number m e n :
  n <= Z.shiftl (Z.pos m) e -> Z_le_number n (S754_finite false m e).
Proof.
  intros H. simpl. destruct (Z.leb_spec 0 e) as [He|He]; simpl.
  - rewrite Z.shiftl_mul_pow2 in H by assumption. exact H.
  - rewrite Z.shiftl_div_pow2 in H by lia.
    assert (0 < 2 ^ (- e)) by (apply Z.pow_pos_nonneg; lia).
    pose proof (Z.mul_div_le (Z.pos m) (2 ^ (- e)) ltac:(lia)).
    nia.
Qed.

(** For a [topK] that is at least 0, [slice(0, topK)] keeps at most
    [topK] elements. *)
Lemma kept_le_topK len topK :
  num_ge topK fzero = true -> Z_le_number (Z.of_nat (kept len topK)) topK.
Proof.
  unfold kept. destruct topK as [s|s| |s m e]; simpl.
  - intros _. lia.
  - destruct s; [discriminate|reflexivity].
  - discriminate.
  - destruct s; [discriminate|]. intros _.
    apply trunc_le_number. simpl cond_Zopp.
    assert (0 <= Z.shiftl (Z.pos m) e) by (apply Z.shiftl_nonneg; lia).
    destruct (Z.ltb_spec (Z.shiftl (Z.pos m) e) 0); lia.
Qed.

End SliceFacts.

Section MapFacts.
Import Pinecone.
Variable toISOString : nat -> string.

Lemma to_result_inr r tick x tick' :
  to_result toISOString r tick = inr (x, tick') ->
  exists md, s_metadata r = Some md /\ x = result_of toISOString r md tick /\
    tick' = (if Js.truthy (Js.get md "createdAt") then tick else S tick).
Proof.
  unfold to_result. destruct (s_metadata r) as [md|]; [|discriminate].
  destruct (Js.truthy (Js.get md "createdAt")) eqn:E; intros [= <- <-];
    exists md; unfold result_of; rewrite E; auto.
Qed.

(** Each result comes from the element at its position, read at some
    tick between the first and the last of the call. *)
Lemma map_results_inr l tick xs tick' :
  map_results toISOString l tick = inr (xs, tick') ->
  (tick <= tick')%nat /\
  Forall2 (fun r x => exists md k, s_metadata r = Some md /\ x = result_of toISOString r md k /\
             (tick <= k)%nat /\
             (Js.truthy (Js.get md "createdAt") = false -> (k < tick')%nat)) l xs.
Proof.
  revert tick xs tick'. induction l as [|r l IH]; intros tick xs tick'; simpl.
  - intros [= <- <-]. split; [lia|constructor].
  - destruct (to_result toISOString r tick) as [e|[x t1]] eqn:E; [discriminate|]. simpl.
    destruct (map_results toISOString l t1) as [e|[xs' t2]] eqn:E'; [discriminate|]. simpl.
    intros [= <- <-]. destruct (IH _ _ _ E') as [Hle HF].
    destruct (to_result_inr _ _ _ _ E) as (md & Hmd & -> & ->).
    assert (Ht : (tick <= (if Js.truthy (Js.get md "createdAt") then tick else S tick))%nat).
    { destruct (Js.truthy _); lia. }
    split; [lia|]. constructor.
    + exists md, tick. repeat split; auto. intros Hf. rewrite Hf in Hle. lia.
    + eapply Forall2_impl; [exact HF|]. intros r' x' (md' & k & A & B & C & D).
      exists md', k. repeat split; auto. lia.
Qed.

Lemma map_results_ids l tick xs tick' :
  map_results toISOString l tick = inr (xs, tick') -> map r_id xs = map s_id l.
Proof.
  intros H. apply map_results_inr in H. destruct H as [_ H].
  induction H as [|r x l xs (md & k & _ & -> & _) _ IH]; simpl; [reflexivity|].
  f_equal. exact IH.
Qed.

Lemma map_results_scores l tick xs tick' :
  map_results toISOString l tick = inr (xs, tick') -> map r_score xs = map s_score l.
Proof.
  intros H. apply map_results_inr in H. destruct H as [_ H].
  induction H as [|r x l xs (md & k & _ & -> & _) _ IH]; simpl; [reflexivity|].
  f_equal. exact IH.
Qed.

(** How [query] unfolds once the loop has succeeded. *)
Lemma query_inr vectors emb topK threshold tick res tick' :
  query toISOString vectors emb topK threshold tick = inr (res, tick') ->
  exists results,
    scan emb (default lit_0_7 threshold) vectors = inr results /\
    map_results toISOString
      (take (kept (length results) (default lit_5 topK))
         (Js.sort by_score_desc results)) tick = inr (res, tick').
Proof.
  unfold query. destruct (scan emb _ vectors) as [e|results]; [discriminate|]. simpl.
  rewrite slice_zero. intros H. exists results. split; [reflexivity|].
  rewrite <- (Permutation_length (sort_perm by_score_desc results)). exact H.
Qed.

End MapFacts.

Section QueryFacts.
Import Pinecone.
Variable toISOString : nat -> string.

Lemma map_results_throws l tick e :
  map_results toISOString l tick = inl e -> e <> mismatch.
Proof.
  revert tick. induction l as [|r l IH]; intros tick; simpl; [discriminate|].
  destruct (to_result toISOString r tick) as [e'|[x t1]] eqn:E; simpl.
  - intros [= <-]. unfold to_result in E. destruct (s_metadata r); [|injection E as <-; discriminate].
    destruct (Js.truthy _); discriminate.
  - destruct (map_results toISOString l t1) as [e'|[xs' t2]] eqn:E'; simpl; [|discriminate].
    intros [= <-]. eapply IH. exact E'.
Qed.

Lemma keys_functional (vectors : vector_map) id v v' :
  NoDup (map fst vectors) -> In (id, v) vectors -> In (id, v') vectors -> v = v'.
Proof.
  induction vectors as [|[k w] rest IH]; simpl; [intros _ []|].
  intros Hnd. apply NoDup_cons in Hnd. destruct Hnd as [Hk Hnd].
  assert (Hfresh : forall u, In (k, u) rest -> False).
  { intros u Hu. apply Hk. apply list_elem_of_In. apply (in_map fst) in Hu. exact Hu. }
  intros [H1|H1] [H2|H2].
  - congruence.
  - injection H1 as -> ->. exfalso. eapply Hfresh. eassumption.
  - injection H2 as -> ->. exfalso. eapply Hfresh. eassumption.
  - apply IH; assumption.
Qed.

Lemma strongly_sorted_take {A} (R : A -> A -> Prop) n l :
  StronglySorted R l -> StronglySorted R (take n l).
Proof.
  intros H. revert n. induction H as [|x l Hs IH Hx]; intros [|n]; simpl; try constructor.
  - apply IH.
  - apply Forall_forall. intros y Hy. rewrite Forall_forall in Hx. apply Hx.
    apply elem_of_take in Hy. destruct Hy as (i & Hy & _).
    eapply list_elem_of_lookup_2. exact Hy.
Qed.

Lemma strongly_sorted_scores l xs :
  map r_score xs = map s_score l ->
  StronglySorted score_ge l ->
  StronglySorted (fun a b => num_ge (r_score a) (r_score b) = true) xs.
Proof.
  intros Hm Hs. revert xs Hm. induction Hs as [|r l Hs IH Hr]; intros [|x xs]; simpl;
    try discriminate; intros Hm; constructor.
  - apply IH. congruence.
  - injection Hm as Hx Hm. apply Forall_forall. intros y Hy.
    apply list_elem_of_In in Hy. apply (in_map r_score) in Hy. rewrite Hm in Hy.
    apply in_map_iff in Hy. destruct Hy as (r' & Hr' & Hin).
    rewrite Forall_forall in Hr. apply list_elem_of_In in Hin. specialize (Hr r' Hin).
    unfold score_ge in Hr. congruence.
Qed.

End QueryFacts.

(** ** The contract of [query] *)

Section QueryContract.
Import Pinecone.
Variable toISOString : nat -> string.

(** C1, as the code has it. Whenever [query] returns, its results are
    sorted by non-increasing score and none has a score below the
    threshold; when [topK] is at least 0 there are at most [topK] of
    them. *)
Theorem query_sorted_filtered_bounded vectors emb topK threshold tick res tick' :
  query toISOString vectors emb topK threshold tick = inr (res, tick') ->
  StronglySorted (fun a b => num_ge (r_score a) (r_score b) = true) res /\
  Forall (fun r => num_lt (r_score r) (default lit_0_7 threshold) = false) res /\
  (num_ge (default lit_5 topK) fzero = true ->
   Z_le_number (Z.of_nat (length res)) (default lit_5 topK)).
Proof.
  intros H. destruct (query_inr _ _ _ _ _ _ _ _ H) as (results & Hscan & Hmap).
  set (t := default lit_0_7 threshold) in *. set (k := default lit_5 topK) in *.
  pose proof (scan_good _ _ _ _ Hscan) as Hgood.
  pose proof (map_results_scores _ _ _ _ _ Hmap) as Hscores.
  split; [|split].
  - eapply strongly_sorted_scores; [exact Hscores|].
    apply strongly_sorted_take. apply sort_sorted. exact Hgood.
  - apply Forall_forall. intros x Hx. apply list_elem_of_In in Hx.
    apply (in_map r_score) in Hx. rewrite Hscores in Hx.
    apply in_map_iff in Hx. destruct Hx as (r & Hr & Hin).
    apply list_elem_of_In, elem_of_take in Hin. destruct Hin as (i & Hin & _).
    apply list_elem_of_lookup_2, list_elem_of_In in Hin.
    apply (Permutation_in _ (sort_perm _ _)) in Hin.
    destruct (scan_In _ _ _ _ _ Hscan Hin) as (v & _ & _ & Hge & _).
    rewrite <- Hr. apply num_ge_not_lt. exact Hge.
  - intros Hk. pose proof (kept_le_topK (length results) k Hk) as Hle.
    assert (Hlen : length res = length (take (kept (length results) k)
                                          (Js.sort by_score_desc results))).
    { rewrite <- (length_map r_score res), Hscores, length_map. reflexivity. }
    rewrite Hlen, length_take.
    rewrite (Permutation_length (sort_perm by_score_desc results)).
    destruct (Nat.le_gt_cases (kept (length results) k) (length results)) as [Hc|Hc].
    + rewrite Nat.min_l by exact Hc. exact Hle.
    + exfalso. unfold kept in Hc.
      pose proof (clamp_index_range (Z.of_nat (length results))
                    (Js.ToIntegerOrInfinity k) ltac:(lia)). lia.
Qed.

(** C3. [query] throws the length error as soon as one stored vector has
    not the length of the query vector, and never throws it when all
    have. *)
Theorem query_dimension_mismatch vectors emb topK threshold tick :
  (forall id v, In (id, v) vectors -> length (embedding v) <> length emb ->
     query toISOString vectors emb topK threshold tick = inl mismatch) /\
  ((forall id v, In (id, v) vectors -> length (embedding v) = length emb) ->
     query toISOString vectors emb topK threshold tick <> inl mismatch).
Proof.
  split.
  - intros id v Hin Hlen. unfold query.
    rewrite (scan_mismatch _ _ _ _ _ Hin Hlen). reflexivity.
  - intros Hall. unfold query.
    destruct (scan_defined emb (default lit_0_7 threshold) vectors Hall) as [results ->].
    simpl. intros Hthrow. exact (map_results_throws _ _ _ _ Hthrow eq_refl).
Qed.

End QueryContract.

(** ** The map of stored vectors *)

Section MapSetFacts.
Import Pinecone.

Lemma Map_set_keys k v (m : vector_map) :
  map fst (Map_set k v m) =
  if decide (k ∈ map fst m) then map fst m else map fst m ++ [k].
Proof.
  induction m as [|[k' v'] m IH]; simpl.
  - destruct (decide (k ∈ [])) as [H|H]; [inversion H|reflexivity].
  - destruct (String.eqb_spec k k') as [->|Hne]; simpl.
    + destruct (decide (k' ∈ k' :: map fst m)) as [H|H]; [reflexivity|].
      exfalso. apply H. left.
    + rewrite IH. destruct (decide (k ∈ map fst m)) as [Hin|Hin];
        destruct (decide (k ∈ k' :: map fst m)) as [Hor|Hor]; try reflexivity.
      * exfalso. apply Hor. right. exact Hin.
      * apply elem_of_cons in Hor. destruct Hor; [congruence|contradiction].
Qed.

(** [upsert] keeps the keys distinct: a key set again keeps its place, a
    new key goes last. *)
Lemma Map_set_NoDup k v (m : vector_map) :
  NoDup (map fst m) -> NoDup (map fst (Map_set k v m)).
Proof.
  intros H. rewrite Map_set_keys. destruct (decide (k ∈ map fst m)) as [Hin|Hin].
  - exact H.
  - apply NoDup_app. split; [exact H|]. split.
    + intros x Hx Hk. apply list_elem_of_singleton in Hk. subst x. contradiction.
    + apply NoDup_singleton.
Qed.

Lemma Map_set_In k v (m : vector_map) : In (k, v) (Map_set k v m).
Proof.
  induction m as [|[k' v'] m IH]; simpl; [left; reflexivity|].
  destruct (String.eqb_spec k k'); [left; reflexivity|right; exact IH].
Qed.

Lemma Map_set_other k v (m : vector_map) k' v' :
  In (k', v') (Map_set k v m) -> k' <> k -> In (k', v') m.
Proof.
  induction m as [|[k0 v0] m IH]; simpl.
  - intros [[= -> ->]|[]] Hne. contradiction.
  - destruct (String.eqb_spec k k0) as [->|Hne0]; simpl.
    + intros [[= -> ->]|Hin] Hne; [contradiction|right; exact Hin].
    + intros [Heq|Hin] Hne; [left; exact Heq|right; apply IH; assumption].
Qed.

End MapSetFacts.

(** ** Cosine similarity at a zero norm *)

Section ZeroNorm.
Import Pinecone.

Lemma sums_from acc a b :
  length a = length b ->
  fold_left sums_step (combine a b) acc =
  (fold_left (fun d xy => fadd d (fmul (fst xy) (snd xy))) (combine a b) (fst (fst acc)),
   fold_left (fun n x => fadd n (fmul x x)) a (snd (fst acc)),
   fold_left (fun n x => fadd n (fmul x x)) b (snd acc)).
Proof.
  revert acc b. induction a as [|x a IH]; intros [[d na] nb] [|y b]; simpl;
    try discriminate; intros Hlen; [reflexivity|].
  rewrite IH by congruence. reflexivity.
Qed.

Lemma sums_spec a b :
  length a = length b -> sums a b = (dot a b, norm_sq a, norm_sq b).
Proof. intros H. unfold sums. rewrite sums_from by exact H. reflexivity. Qed.

(** [cosineSimilarity] on vectors of one length, in terms of the three
    sums: the quotient is only computed past the guard. *)
Lemma cosineSimilarity_spec a b :
  length a = length b ->
  cosineSimilarity a b =
  inr (if num_strict_eq (norm a) fzero || num_strict_eq (norm b) fzero
       then fzero
       else fdiv (dot a b) (fmul (norm a) (norm b))).
Proof.
  intros H. unfold cosineSimilarity.
  destruct (Nat.eqb_spec (length a) (length b)) as [_|N]; [|contradiction].
  simpl. rewrite sums_spec by exact H. fold (norm a) (norm b).
  destruct (num_strict_eq (norm a) fzero || num_strict_eq (norm b) fzero); reflexivity.
Qed.

Lemma norm_sq_zeros_from a : Forall (fun x => is_zero x = true) a ->
  fold_left (fun n x => fadd n (fmul x x)) a fzero = fzero.
Proof.
  induction 1 as [|x a Hx _ IH]; simpl; [reflexivity|].
  destruct x as [s| | |]; try discriminate.
  destruct s; simpl; exact IH.
Qed.

Lemma norm_zeros a : Forall (fun x => is_zero x = true) a -> norm a = fzero.
Proof. intros H. unfold norm, norm_sq. rewrite norm_sq_zeros_from by exact H. reflexivity. Qed.

(** C4. On vectors of one length, a norm that is exactly 0 gives the
    similarity 0, returned by the guard before the quotient is computed;
    the all-zero vector has norm 0, so its similarity with any vector,
    itself included, is 0. *)
Theorem cosine_similarity_zero_norm a b :
  length a = length b ->
  (num_strict_eq (norm a) fzero = true \/ num_strict_eq (norm b) fzero = true ->
   cosineSimilarity a b = inr fzero) /\
  (Forall (fun x => is_zero x = true) a \/ Forall (fun x => is_zero x = true) b ->
   cosineSimilarity a b = inr fzero) /\
  (forall s, cosineSimilarity a b = inr s -> s <> fzero ->
   num_strict_eq (norm a) fzero = false /\ num_strict_eq (norm b) fzero = false /\
   s = fdiv (dot a b) (fmul (norm a) (norm b))).
Proof.
  intros Hlen. rewrite (cosineSimilarity_spec a b Hlen).
  split; [|split].
  - intros [H|H]; rewrite H; [reflexivity|]. rewrite orb_true_r. reflexivity.
  - intros [H|H]; rewrite (norm_zeros _ H); [reflexivity|].
    rewrite orb_true_r. reflexivity.
  - intros s. destruct (num_strict_eq (norm a) fzero) eqn:Ea; simpl.
    + intros [= <-] Hs. contradiction.
    + destruct (num_strict_eq (norm b) fzero) eqn:Eb; simpl.
      * intros [= <-] Hs. contradiction.
      * intros [= <-] _. auto.
Qed.

(** *** Symmetry *)

Lemma fmul_comm x y : fmul x y = fmul y x.
Proof.
  destruct x as [sx|sx| |sx mx ex], y as [sy|sy| |sy my ey]; simpl;
    try reflexivity; try (rewrite xorb_comm; reflexivity).
  unfold fmul, SFmul. rewrite xorb_comm, Pos.mul_comm, Z.add_comm. reflexivity.
Qed.

Lemma dot_from_comm acc a b :
  fold_left (fun d xy => fadd d (fmul (fst xy) (snd xy))) (combine a b) acc =
  fold_left (fun d xy => fadd d (fmul (fst xy) (snd xy))) (combine b a) acc.
Proof.
  revert acc b. induction a as [|x a IH]; intros acc [|y b]; simpl; try reflexivity.
  rewrite (fmul_comm x y). apply IH.
Qed.

(** X2. The similarity does not depend on the order of its arguments, the
    exception included. *)
Lemma cosineSimilarity_sym a b : cosineSimilarity a b = cosineSimilarity b a.
Proof.
  destruct (Nat.eq_dec (length a) (length b)) as [E|E].
  - rewrite (cosineSimilarity_spec a b E), (cosineSimilarity_spec b a (eq_sym E)).
    unfold dot. rewrite (dot_from_comm fzero a b), (fmul_comm (norm a) (norm b)).
    rewrite orb_comm. reflexivity.
  - rewrite (cosineSimilarity_mismatch a b E).
    rewrite (cosineSimilarity_mismatch b a); [reflexivity|congruence].
Qed.

(** X3. After [deleteAll] the index is empty and every query returns no
    result. *)
Lemma deleteAll_empties toISOString vectors emb topK threshold tick :
  getVectorCount (deleteAll vectors) = 0%nat /\
  query toISOString (deleteAll vectors) emb topK threshold tick = inr ([], tick).
Proof.
  split; [reflexivity|]. unfold query, deleteAll. simpl scan. simpl Js.bind.
  rewrite slice_zero. simpl Js.sort. rewrite take_nil. reflexivity.
Qed.

End ZeroNorm.

(** ** Ties, the best match, and the fallbacks of the results *)

Section QueryResults.
Import Pinecone.
Variable toISOString : nat -> string.

Lemma take_map_ids n (l : list scored) : take n (map s_id l) = map s_id (take n l).
Proof. apply firstn_map. Qed.

(** C2. Two entries of equal score come out in the iteration order of the
    map, which is the order in which their keys were first inserted:
    whenever the later one is among the results, the earlier one is too,
    at a smaller position. *)
Theorem query_ties_in_insertion_order
  l1 id1 v1 l2 id2 v2 l3 emb topK threshold tick res tick' s1 s2 :
  NoDup (map fst (l1 ++ (id1, v1) :: l2 ++ (id2, v2) :: l3)) ->
  cosineSimilarity emb (embedding v1) = inr s1 ->
  cosineSimilarity emb (embedding v2) = inr s2 ->
  num_strict_eq s1 s2 = true ->
  query toISOString (l1 ++ (id1, v1) :: l2 ++ (id2, v2) :: l3)
    emb topK threshold tick = inr (res, tick') ->
  In id2 (map r_id res) ->
  exists p q, map r_id res = p ++ id1 :: q /\ In id2 q.
Proof.
  set (vectors := l1 ++ (id1, v1) :: l2 ++ (id2, v2) :: l3).
  intros Hnd C1 C2 Heq H Hin2.
  destruct (query_inr _ _ _ _ _ _ _ _ H) as (results & Hscan & Hmap).
  set (t := default lit_0_7 threshold) in *.
  set (n := kept (length results) (default lit_5 topK)) in *.
  set (sorted := Js.sort by_score_desc results) in *.
  pose proof (scan_good _ _ _ _ Hscan) as Hgood.
  rewrite (map_results_ids _ _ _ _ _ Hmap) in *.
  assert (Hnd' : NoDup (map s_id sorted)).
  { assert (Hp : Permutation (map s_id sorted) (map s_id results))
      by (apply Permutation_map, sort_perm).
    rewrite Hp.
    eapply sublist_NoDup; [exact Hnd|apply (scan_ids_sublist _ _ _ _ Hscan)]. }
  (* the later entry passed the threshold *)
  assert (G2 : num_ge s2 t = true).
  { apply in_map_iff in Hin2. destruct Hin2 as (r & Hid & Hr).
    apply list_elem_of_In, elem_of_take in Hr. destruct Hr as (i & Hr & _).
    apply list_elem_of_lookup_2, list_elem_of_In in Hr.
    apply (Permutation_in _ (sort_perm _ _)) in Hr.
    destruct (scan_In _ _ _ _ _ Hscan Hr) as (v & Hv & Hc & Hge & _).
    rewrite Hid in Hv.
    assert (v = v2).
    { eapply keys_functional; [exact Hnd|exact Hv|].
      unfold vectors. apply in_app_iff. right. right. apply in_app_iff. right. left.
      reflexivity. }
    subst v. rewrite C2 in Hc. injection Hc as Hc. rewrite Hc. exact Hge. }
  assert (G1 : num_ge s1 t = true).
  { eapply num_ge_trans; [|exact G2]. exact (proj1 (num_strict_eq_ge _ _ Heq)). }
  pose proof (scan_before _ _ _ _ _ _ _ _ _ _ _ _ Hscan C1 C2 G1 G2) as Hb.
  apply (sort_stable _ _ _ Hgood) in Hb; [|exact Heq].
  apply (before_map s_id) in Hb. simpl in Hb. fold sorted in Hb.
  rewrite <- take_map_ids in *.
  apply before_decompose. apply before_take; assumption.
Qed.



(** C10. Every result whose stored attributes have no truthy [category]
    has the category "unknown"; without a truthy [content] its text is the
    empty string; without a truthy [createdAt] its timestamp is a reading
    of the clock made during the call. The attributes are those of the
    stored entry of that identifier. *)
Theorem query_result_fallbacks vectors emb topK threshold tick res tick' :
  query toISOString vectors emb topK threshold tick = inr (res, tick') ->
  Forall (fun x =>
    (exists v, In (r_id x, v) vectors /\ metadata v = Some (r_metadata x)) /\
    (Js.truthy (Js.get (r_metadata x) "category") = false ->
       r_category x = Js.JStr "unknown") /\
    (Js.truthy (Js.get (r_metadata x) "content") = false ->
       r_text x = Js.JStr "") /\
    (Js.truthy (Js.get (r_metadata x) "createdAt") = false ->
       exists k, (tick <= k < tick')%nat /\ r_timestamp x = Js.JStr (toISOString k))) res.
Proof.
  intros H. destruct (query_inr _ _ _ _ _ _ _ _ H) as (results & Hscan & Hmap).
  apply map_results_inr in Hmap. destruct Hmap as [_ HF].
  set (top := take _ _) in HF.
  assert (Htop : forall r, In r top -> In r results).
  { intros r Hr. apply list_elem_of_In, elem_of_take in Hr. destruct Hr as (i & Hr & _).
    apply list_elem_of_lookup_2, list_elem_of_In in Hr.
    apply (Permutation_in _ (sort_perm _ _)) in Hr. exact Hr. }
  clearbody top. clear H.
  induction HF as [|r x l xs (md & k & Hmd & -> & Hk & Hfresh) _ IH];
    constructor.
  - split; [|split; [|split]]; simpl.
    + destruct (scan_In _ _ _ _ _ Hscan (Htop r (or_introl eq_refl))) as (v & Hv & _ & _ & Hr).
      exists v. split; [exact Hv|]. rewrite Hr in Hmd. simpl in Hmd. exact Hmd.
    + intros Hf. unfold Js.js_or. rewrite Hf. reflexivity.
    + intros Hf. unfold Js.js_or. rewrite Hf. reflexivity.
    + intros Hf. rewrite Hf. exists k. split; [|reflexivity]. split; [exact Hk|auto].
  - apply IH. intros r' Hr'. apply Htop. right. exact Hr'.
Qed.

End QueryResults.

(** ** The prompt *)

Section Prompt.
Import OpenAI.

Lemma append_nil (s : string) : "" +:+ s = s.
Proof. reflexivity. Qed.

Lemma append_cons c (a s : string) : String c a +:+ s = String c (a +:+ s).
Proof. reflexivity. Qed.

Lemma append_assoc (a b c : string) : (a +:+ b) +:+ c = a +:+ (b +:+ c).
Proof.
  induction a as [|x a IH]; [reflexivity|].
  rewrite !append_cons. f_equal. exact IH.
Qed.

Lemma contains_cons needle c s :
  contains needle (String c s) -> starts_with needle (String c s) \/ contains needle s.
Proof.
  intros ([|c' pre] & post & H).
  - left. exists post. exact H.
  - right. rewrite append_cons in H. injection H as _ H. exists pre, post. exact H.
Qed.

Lemma contains_later needle c s : contains needle s -> contains needle (String c s).
Proof. intros (pre & post & ->). exists (String c pre), post. reflexivity. Qed.

Lemma starts_with_contains needle s : starts_with needle s -> contains needle s.
Proof. intros (rest & ->). exists "", rest. reflexivity. Qed.

Lemma starts_with_prefix p s : starts_with p s -> String.prefix p s = true.
Proof.
  intros (rest & ->). induction p as [|c p IH].
  - rewrite append_nil. destruct rest; reflexivity.
  - rewrite append_cons. simpl. destruct (ascii_dec c c); [exact IH|contradiction].
Qed.

Lemma contains_containsb needle s : contains needle s -> containsb needle s = true.
Proof.
  induction s as [|c s IH]; intros H.
  - destruct H as ([|c' pre] & post & H); [|discriminate].
    destruct needle; [reflexivity|discriminate].
  - change (containsb needle (String c s))
      with (String.prefix needle (String c s) || containsb needle s).
    destruct (contains_cons _ _ _ H) as [Hs|Hc].
    + rewrite (starts_with_prefix _ _ Hs). reflexivity.
    + rewrite (IH Hc). apply orb_true_r.
Qed.

Lemma ends_with_occurs c x s : ends_with (String c x) s -> occurs c s = true.
Proof.
  intros (pre & ->). induction pre as [|c' pre IH].
  - rewrite append_nil. simpl. rewrite Ascii.eqb_refl. reflexivity.
  - rewrite append_cons. simpl. rewrite IH. apply orb_true_r.
Qed.

(** A prefix of [s +:+ t] lies within [s], or ends with a non-empty
    prefix of [t]. *)
Lemma starts_with_append m s t :
  starts_with m (s +:+ t) ->
  starts_with m s \/ exists c x, ends_with (String c x) m /\ starts_with (String c x) t.
Proof.
  revert s. induction m as [|a m IH]; intros s H.
  - left. exists s. reflexivity.
  - destruct s as [|b s].
    + right. exists a, m. split; [exists ""; reflexivity|exact H].
    + destruct H as (rest & H). rewrite !append_cons in H. injection H as <- H.
      destruct (IH s (ex_intro _ rest H)) as [(r & ->)|(c & x & (pre & ->) & Ht)].
      * left. exists r. reflexivity.
      * right. exists c, x. split; [exists (String b pre); reflexivity|exact Ht].
Qed.

Lemma marker_first c s :
  starts_with context_marker (String c s) -> c = "C"%char.
Proof.
  intros (rest & H). unfold context_marker in H. rewrite append_cons in H.
  injection H as -> _. reflexivity.
Qed.

Lemma marker_skip c s :
  c <> "C"%char -> contains context_marker (String c s) -> contains context_marker s.
Proof.
  intros Hc H. destruct (contains_cons _ _ _ H) as [Hs|Hs]; [|exact Hs].
  apply marker_first in Hs. contradiction.
Qed.

(** The marker does not reach into what follows the query. *)
Lemma marker_within_query q :
  contains context_marker (q +:+ blank_line +:+ instruction) ->
  contains context_marker q.
Proof.
  induction q as [|c q IH]; intros H.
  - apply contains_containsb in H. vm_compute in H. discriminate.
  - rewrite append_cons in H. destruct (contains_cons _ _ _ H) as [Hs|Hc].
    + rewrite <- append_cons in Hs. apply starts_with_append in Hs.
      destruct Hs as [Hs|(c' & x & Hend & (rest & Ht))].
      * apply starts_with_contains. exact Hs.
      * vm_compute in Ht. injection Ht as <- _. apply ends_with_occurs in Hend.
        vm_compute in Hend. discriminate.
    + apply contains_later. apply IH. exact Hc.
Qed.

Lemma contains_append needle a s b :
  contains needle s -> contains needle (a +:+ s +:+ b).
Proof.
  intros (pre & post & ->). exists (a +:+ pre), (post +:+ b).
  rewrite !append_assoc. reflexivity.
Qed.

(** C7, as the code has it. With no snippet the prompt is the question
    followed by the instruction, and holds the marker only where the
    query text itself does. With snippets the prompt begins with the
    marker line, then the snippets in their order, one blank line between
    two of them and one after the last, then the question and the
    instruction. The prompt sent to the provider is this function of the
    query and the snippets, whatever the provider answers. *)
Theorem prompt_assembly query :
  (build_prompt query [] = question_label +:+ query +:+ blank_line +:+ instruction /\
   (contains context_marker (build_prompt query []) <-> contains context_marker query)) /\
  (forall c cs,
     build_prompt query (c :: cs) =
       context_marker +:+ ":" +:+ Js.nl +:+ Js.join blank_line (c :: cs) +:+ blank_line
       +:+ question_label +:+ query +:+ blank_line +:+ instruction /\
     starts_with context_marker (build_prompt query (c :: cs))) /\
  (forall c, Js.join blank_line [c] = c) /\
  (forall c c' cs,
     Js.join blank_line (c :: c' :: cs) = c +:+ blank_line +:+ Js.join blank_line (c' :: cs)) /\
  (forall N chat context model,
     fst (generateChatResponse N chat query context model) =
     [EvChatCompletionsCreate (default (Js.JStr "gpt-4o") model)
        (build_prompt query (map (element_string N) context))]).
Proof.
  split; [split|split; [|split; [|split]]].
  - reflexivity.
  - split.
    + unfold build_prompt. simpl length. cbv iota zeta. rewrite append_nil.
      unfold question_label. intros H. rewrite !append_cons, append_nil in H.
      repeat (apply marker_skip in H; [|discriminate]).
      apply marker_within_query. exact H.
    + intros H. change (build_prompt query [])
        with (question_label +:+ query +:+ (blank_line +:+ instruction)).
      apply contains_append. exact H.
  - intros c cs. split.
    + unfold build_prompt. simpl length. cbv iota beta zeta.
      change (0 <? S (length cs))%nat with true. cbv iota.
      rewrite !append_assoc. reflexivity.
    + unfold build_prompt. simpl length. change (0 <? S (length cs))%nat with true. cbv iota zeta.
      eexists. rewrite !append_assoc. reflexivity.
  - reflexivity.
  - reflexivity.
  - intros N chat context model. unfold generateChatResponse. cbv zeta.
    unfold tbind, emit, lift, tret. simpl.
    destruct (chat _ _) as [e|completion]; reflexivity.
Qed.

End Prompt.

(** ** Sums and quotients that are not NaN *)

Section NotNaN.







End NotNaN.

(** ** The query route *)

Section Route.
Import OpenAI Routes.
Variable NumberToString : number -> string.
Variable toISOString : nat -> string.
Variable embeddings_create : string -> string -> Js.result (list number).
Variable chat_completions_create :
  Js.jsval -> string -> Js.result (Js.jsval * Js.jsval).
Variable insertQuerySchema_parse : gmap string Js.jsval -> Js.result string.

Abbreviation handler :=
  (post_api_query NumberToString toISOString embeddings_create
     chat_completions_create insertQuerySchema_parse).

Abbreviation pipeline :=
  (run_pipeline NumberToString toISOString embeddings_create
     chat_completions_create).

Abbreviation embedding_model := "text-embedding-3-small"%string.

(** The events of a run in which every step succeeds. *)
Lemma run_pipeline_ok vectors q topK threshold chatModel tick tr p :
  pipeline vectors q topK threshold chatModel tick = (tr, inr p) ->
  exists emb tick',
    embeddings_create embedding_model q = inr emb /\
    Pinecone.query toISOString vectors emb (Some topK) (Some threshold) tick
      = inr (searchResults p, tick') /\
    contextCount (chatResponse p) = length (searchResults p) /\
    avgSimilarity (chatResponse p) = average_similarity (searchResults p) /\
    tr = [EvCreateQuery q; EvEmbeddingsCreate embedding_model q;
          EvChatCompletionsCreate chatModel
            (build_prompt q
               (map (element_string NumberToString)
                  (map Pinecone.r_text (searchResults p))));
          EvUpdateQuery; EvApiLog 200].
Proof.
  unfold run_pipeline, generateEmbedding, generateChatResponse, tbind, lift, emit, tret,
    Js.ret.
  simpl default.
  destruct (embeddings_create embedding_model q) as [e|emb]; [discriminate|].
  cbn [e_embedding].
  destruct (Pinecone.query toISOString vectors emb (Some topK) (Some threshold) tick)
    as [e|[res tick']] eqn:Q; [discriminate|].
  cbn [fst].
  match goal with
  | |- context [chat_completions_create ?m ?pr] =>
      destruct (chat_completions_create m pr) as [e|completion]; [discriminate|]
  end.
  simpl. intros [= <- <-]. exists emb, tick'. simpl. auto.
Qed.

(** The first two events of any run past the schema. *)
Lemma run_pipeline_starts vectors q topK threshold chatModel tick :
  exists rest,
    fst (pipeline vectors q topK threshold chatModel tick) =
    EvCreateQuery q :: EvEmbeddingsCreate embedding_model q :: rest.
Proof.
  unfold run_pipeline, generateEmbedding, generateChatResponse, tbind, lift, emit, tret,
    Js.ret.
  simpl default.
  destruct (embeddings_create embedding_model q) as [e|emb]; [eexists; reflexivity|].
  cbn [e_embedding].
  destruct (Pinecone.query toISOString vectors emb (Some topK) (Some threshold) tick)
    as [e|[res tick']]; [eexists; reflexivity|].
  cbn [fst].
  match goal with
  | |- context [chat_completions_create ?m ?pr] =>
      destruct (chat_completions_create m pr) as [e|completion]; eexists; reflexivity
  end.
Qed.

Lemma handler_ok vectors body tick tr p :
  handler vectors body tick = (tr, Ok p) ->
  exists q,
    insertQuerySchema_parse body = inr q /\
    pipeline vectors q (body_topK NumberToString body)
      (body_threshold NumberToString body) (body_chatModel body) tick = (tr, inr p).
Proof.
  unfold post_api_query, process_query, lift. unfold tbind at 1.
  destruct (insertQuerySchema_parse body) as [e|q]; [discriminate|].
  destruct (run_pipeline _ _ _ _ _ q _ _ _ tick) as [tr' [e|p']] eqn:E; simpl;
    [discriminate|].
  intros [= <- <-]. exists q. split; [reflexivity|exact E].
Qed.

(** C5, as the code has it. The handler validates the body against the
    schema and nothing else: a body the schema rejects is answered 400
    with no provider called; a body the schema accepts reaches the
    embedding provider whatever its [topK] and [threshold], and the
    generation provider as soon as the search returns. *)
Theorem route_rejects_on_schema_only vectors body tick :
  (forall e, insertQuerySchema_parse body = inl e ->
     handler vectors body tick =
       ([EvApiLog 400], BadRequest "Failed to process query" e)) /\
  (forall q, insertQuerySchema_parse body = inr q ->
     exists rest,
       fst (handler vectors body tick) =
       EvCreateQuery q :: EvEmbeddingsCreate embedding_model q :: rest) /\
  (forall tr p, handler vectors body tick = (tr, Ok p) ->
     exists q prompt,
       tr = [EvCreateQuery q; EvEmbeddingsCreate embedding_model q;
             EvChatCompletionsCreate (body_chatModel body) prompt;
             EvUpdateQuery; EvApiLog 200]).
Proof.
  split; [|split].
  - intros e He. unfold post_api_query, process_query, lift, tbind. rewrite He. reflexivity.
  - intros q Hq. unfold post_api_query, process_query, lift. unfold tbind at 1. rewrite Hq.
    destruct (run_pipeline_starts vectors q (body_topK NumberToString body)
                (body_threshold NumberToString body) (body_chatModel body) tick)
      as [rest Hrest].
    destruct (run_pipeline _ _ _ _ _ q _ _ _ tick) as [tr [e|p]]; simpl in *;
      subst tr; eexists; reflexivity.
  - intros tr p H. destruct (handler_ok _ _ _ _ _ H) as (q & _ & Hrun).
    destruct (run_pipeline_ok _ _ _ _ _ _ _ _ Hrun) as (emb & tick' & _ & _ & _ & _ & ->).
    eexists; eexists; reflexivity.
Qed.



End Route.

(** ** The statements at concrete inputs *)

Section Instances.
Import Pinecone OpenAI Routes Examples.

(** The end-to-end scenario of the specification: [d1] at [[1, 0]],
    queried at [[1, 0]] with [topK = 5] and threshold 0.5. *)
Lemma query_sorted_filtered_bounded_witness :
  exists res tick',
    query clock index_d1 [lit_1; fzero] (Some lit_5) (Some lit_0_5) 0 = inr (res, tick') /\
    StronglySorted (fun a b => num_ge (r_score a) (r_score b) = true) res /\
    Forall (fun r => num_lt (r_score r) lit_0_5 = false) res /\
    num_ge lit_5 fzero = true /\
    Z_le_number (Z.of_nat (length res)) lit_5.
Proof.
  run_query (query clock index_d1 [lit_1; fzero] (Some lit_5) (Some lit_0_5) 0) Hq.
  split; [exact Hq|].
  destruct (query_sorted_filtered_bounded clock _ _ _ _ _ _ _ Hq) as (A & B & C).
  split; [exact A|]. split; [exact B|]. split; [reflexivity|]. apply C. reflexivity.
Defined.

(** C1 as stated fails at a negative [topK]: [slice(0, -1)] drops the
    last element only, so two matches and [topK = -1] give one result,
    which is more than [topK]. *)
Lemma query_negative_topK_counterexample :
  exists res tick',
    query clock index_ab [lit_1; fzero] (Some lit_minus_1) None 0 = inr (res, tick') /\
    length res = 1%nat /\
    (Z_le_number (Z.of_nat (length res)) lit_minus_1 -> False).
Proof.
  run_query (query clock index_ab [lit_1; fzero] (Some lit_minus_1) None 0) Hq.
  split; [exact Hq|]. split; [reflexivity|]. simpl. lia.
Qed.

(** Two entries of the same direction tie at score 1: [a], inserted
    first, comes out before [b]. *)
Lemma query_ties_in_insertion_order_witness :
  NoDup (map fst index_ab) /\
  cosineSimilarity [lit_1; fzero] [lit_1; fzero] = inr lit_1 /\
  cosineSimilarity [lit_1; fzero] [lit_2; fzero] = inr lit_1 /\
  num_strict_eq lit_1 lit_1 = true /\
  exists res tick',
    query clock index_ab [lit_1; fzero] None None 0 = inr (res, tick') /\
    In "b"%string (map r_id res) /\
    exists p q, map r_id res = p ++ "a"%string :: q /\ In "b"%string q.
Proof.
  assert (Hnd : NoDup (map fst index_ab)).
  { apply (bool_decide_unpack _). vm_compute. exact I. }
  assert (C1 : cosineSimilarity [lit_1; fzero] [lit_1; fzero] = inr lit_1)
    by (vm_compute; reflexivity).
  assert (C2 : cosineSimilarity [lit_1; fzero] [lit_2; fzero] = inr lit_1)
    by (vm_compute; reflexivity).
  split; [exact Hnd|]. split; [exact C1|]. split; [exact C2|]. split; [reflexivity|].
  run_query (query clock index_ab [lit_1; fzero] None None 0) Hq.
  split; [exact Hq|].
  match goal with
  | |- In ?x ?l /\ _ => assert (Hin : In x l) by (simpl; auto)
  end.
  split; [exact Hin|].
  exact (query_ties_in_insertion_order clock
           [] "a" {| embedding := [lit_1; fzero]; metadata := Some no_metadata |}
           [] "b" {| embedding := [lit_2; fzero]; metadata := Some no_metadata |}
           [] [lit_1; fzero] None None 0 _ _ lit_1 lit_1 Hnd C1 C2 eq_refl Hq Hin).
Defined.

(** A stored vector of length 3 makes a query of length 2 throw; an
    index of vectors of length 2 does not. *)
Lemma query_dimension_mismatch_witness :
  (In ("long"%string, {| embedding := [lit_1; fzero; fzero]; metadata := Some no_metadata |})
      index_mixed /\
   query clock index_mixed [lit_1; fzero] None None 0 = inl mismatch) /\
  ((forall id v, In (id, v) index_ab -> length (embedding v) = length [lit_1; fzero]) /\
   query clock index_ab [lit_1; fzero] None None 0 <> inl mismatch).
Proof.
  pose proof (query_dimension_mismatch clock index_mixed [lit_1; fzero] None None 0) as [A _].
  pose proof (query_dimension_mismatch clock index_ab [lit_1; fzero] None None 0) as [_ B].
  assert (Hin : In ("long"%string,
                    {| embedding := [lit_1; fzero; fzero]; metadata := Some no_metadata |})
                  index_mixed) by (right; left; reflexivity).
  assert (Hall : forall id v, In (id, v) index_ab ->
                   length (embedding v) = length [lit_1; fzero]).
  { intros id v [[= <- <-]|[[= <- <-]|[]]]; reflexivity. }
  split; [split; [exact Hin|]|split; [exact Hall|]].
  - apply (A _ _ Hin). simpl. lia.
  - apply B. exact Hall.
Defined.

(** The vector [[+0, -0]] against [[1, 2]] and against itself. *)
Lemma cosine_similarity_zero_norm_witness :
  length [fzero; S754_zero true] = length [lit_1; lit_2] /\
  Forall (fun x => is_zero x = true) [fzero; S754_zero true] /\
  cosineSimilarity [fzero; S754_zero true] [lit_1; lit_2] = inr fzero /\
  cosineSimilarity [fzero; S754_zero true] [fzero; S754_zero true] = inr fzero.
Proof.
  assert (Hz : Forall (fun x => is_zero x = true) [fzero; S754_zero true])
    by (repeat constructor).
  split; [reflexivity|]. split; [exact Hz|]. split.
  - apply (cosine_similarity_zero_norm [fzero; S754_zero true] [lit_1; lit_2] eq_refl).
    left. exact Hz.
  - apply (cosine_similarity_zero_norm [fzero; S754_zero true] [fzero; S754_zero true] eq_refl).
    left. exact Hz.
Defined.

(** An empty body is rejected by the schema with no provider called; a
    body with a query reaches the embedding provider. *)
Lemma route_rejects_on_schema_only_witness :
  (schema_query_only ∅ = inl (Js.Error "ZodError") /\
   example_handler index_d1 ∅ 0 =
     ([EvApiLog 400], BadRequest "Failed to process query" (Js.Error "ZodError"))) /\
  (schema_query_only body_plain = inr "capital?"%string /\
   exists rest,
     fst (example_handler index_d1 body_plain 0) =
     EvCreateQuery "capital?" :: EvEmbeddingsCreate "text-embedding-3-small" "capital?"
       :: rest).
Proof.
  pose proof (route_rejects_on_schema_only number_to_string clock embed_unit chat_fixed
                schema_query_only index_d1 ∅ 0) as (A & _ & _).
  pose proof (route_rejects_on_schema_only number_to_string clock embed_unit chat_fixed
                schema_query_only index_d1 body_plain 0) as (_ & B & _).
  split; [split|split].
  - reflexivity.
  - apply A. reflexivity.
  - reflexivity.
  - apply B. reflexivity.
Defined.

(** C5 as stated fails: with [topK = -1] and [threshold = 2] the body is
    not rejected. Under every schema that accepts it, both providers are
    called and the answer is 200; the schema that asks for a string
    [query] accepts it. *)
Lemma route_invalid_request_counterexample :
  schema_query_only body_invalid = inr "capital?"%string /\
  (forall N, body_topK N body_invalid = lit_minus_1 /\
             body_threshold N body_invalid = lit_2) /\
  (forall N schema q, schema body_invalid = inr q ->
   exists p,
     post_api_query N clock embed_unit chat_fixed schema index_d1 body_invalid 0 =
     ([EvCreateQuery q; EvEmbeddingsCreate "text-embedding-3-small" q;
       EvChatCompletionsCreate (Js.JStr "gpt-4o") (build_prompt q []);
       EvUpdateQuery; EvApiLog 200], Ok p)).
Proof.
  split; [vm_compute; reflexivity|]. split.
  - intros N. split; vm_compute; reflexivity.
  - intros N schema q Hq. unfold post_api_query, process_query, lift. unfold tbind at 1.
    rewrite Hq. eexists. vm_compute. reflexivity.
Qed.



(** C7 as stated fails when the query text holds the marker: with no
    snippet the prompt still contains it. *)
Lemma prompt_marker_in_query_counterexample :
  contains context_marker (build_prompt context_marker []) /\
  build_prompt context_marker [] =
    question_label +:+ context_marker +:+ blank_line +:+ instruction.
Proof.
  split; [|reflexivity].
  exists question_label, (blank_line +:+ instruction). reflexivity.
Qed.




(** Two entries without attributes: category "unknown", empty text,
    and one reading of the clock each. *)
Lemma query_result_fallbacks_witness :
  exists res tick',
    query clock index_ab [lit_1; fzero] None None 0 = inr (res, tick') /\
    map r_category res = [Js.JStr "unknown"; Js.JStr "unknown"] /\
    map r_text res = [Js.JStr ""; Js.JStr ""] /\
    map r_timestamp res = [Js.JStr (clock 0); Js.JStr (clock 1)] /\
    Forall (fun x =>
      Js.truthy (Js.get (r_metadata x) "category") = false ->
      r_category x = Js.JStr "unknown") res.
Proof.
  run_query (query clock index_ab [lit_1; fzero] None None 0) Hq.
  split; [exact Hq|]. split; [reflexivity|]. split; [reflexivity|]. split; [reflexivity|].
  eapply Forall_impl; [exact (query_result_fallbacks clock _ _ _ _ _ _ _ Hq)|].
  intros x (_ & A & _). exact A.
Defined.

End Instances.

(** ** More on [query]: what the results are *)

Section QueryAnswers.
Import Pinecone.
Variable toISOString : nat -> string.

(** The elements [query] maps are elements the loop pushed. *)
Lemma query_results_scanned vectors emb topK threshold tick res tick' :
  query toISOString vectors emb topK threshold tick = inr (res, tick') ->
  exists results kept_results,
    scan emb (default lit_0_7 threshold) vectors = inr results /\
    kept_results = take (kept (length results) (default lit_5 topK))
                     (Js.sort by_score_desc results) /\
    (forall r, In r kept_results -> In r results) /\
    Forall2 (fun r x => exists md k, s_metadata r = Some md /\
               x = result_of toISOString r md k) kept_results res.
Proof.
  intros H. destruct (query_inr _ _ _ _ _ _ _ _ H) as (results & Hs & Hm).
  exists results, (take (kept (length results) (default lit_5 topK))
                     (Js.sort by_score_desc results)).
  split; [exact Hs|]. split; [reflexivity|]. split.
  - intros r Hr. apply list_elem_of_In in Hr.
    apply (fun H => elem_of_sublist _ _ _ H (sublist_take _ _)) in Hr.
    apply list_elem_of_In in Hr.
    eapply Permutation_in; [apply sort_perm|exact Hr].
  - destruct (map_results_inr _ _ _ _ _ Hm) as [_ HF].
    eapply Forall2_impl; [exact HF|].
    intros r x (md & k & A & B & _). exists md, k. auto.
Qed.

(** X4. Every score [query] returns is a double that passed the filter
    [score >= threshold]: it is not NaN, and with a NaN threshold no
    entry is returned at all. *)
Theorem query_scores_pass_threshold vectors emb topK threshold tick res tick' :
  query toISOString vectors emb topK threshold tick = inr (res, tick') ->
  Forall (fun r => num_ge (r_score r) (default lit_0_7 threshold) = true /\
                   is_nan (r_score r) = false /\ fvalid (r_score r) = true) res /\
  (is_nan (default lit_0_7 threshold) = true -> res = []).
Proof.
  intros H.
  destruct (query_results_scanned _ _ _ _ _ _ _ H) as (results & l & Hs & _ & Hin & HF).
  assert (HA : Forall (fun r => num_ge (r_score r) (default lit_0_7 threshold) = true /\
                   is_nan (r_score r) = false /\ fvalid (r_score r) = true) res).
  { clear H. induction HF as [|r x l xs (md & k & _ & ->) _ IH]; constructor.
    - assert (Hr : In r results) by (apply Hin; left; reflexivity).
      destruct (scan_In _ _ _ _ _ Hs Hr) as (v & _ & _ & Hge & _).
      pose proof (scan_good _ _ _ _ Hs) as Hg.
      rewrite List.Forall_forall in Hg. destruct (Hg _ Hr) as [Hv Hn].
      simpl. auto.
    - apply IH. intros r' Hr'. apply Hin. right. exact Hr'. }
  split; [exact HA|].
  intros Hnan. destruct res as [|x res]; [reflexivity|].
  inversion HA as [|? ? (Hge & _) _]; subst.
  apply num_ge_not_nan in Hge. destruct Hge as [_ Ht]. congruence.
Qed.

(** X5. The results of [query] are entries of the index, each at most
    once: a result carries the key of an entry, the similarity of the
    query vector with the vector stored there, and the metadata stored
    there. *)
Theorem query_results_are_entries vectors emb topK threshold tick res tick' :
  NoDup (map fst vectors) ->
  query toISOString vectors emb topK threshold tick = inr (res, tick') ->
  NoDup (map r_id res) /\
  Forall (fun r => exists v, In (r_id r, v) vectors /\
            cosineSimilarity emb (embedding v) = inr (r_score r) /\
            metadata v = Some (r_metadata r)) res.
Proof.
  intros Hnd H.
  destruct (query_results_scanned _ _ _ _ _ _ _ H) as (results & l & Hs & Hl & Hin & HF).
  split.
  - destruct (query_inr _ _ _ _ _ _ _ _ H) as (results' & Hs' & Hm).
    rewrite Hs in Hs'. injection Hs' as <-.
    rewrite (map_results_ids _ _ _ _ _ Hm).
    assert (N1 : NoDup (map s_id results)).
    { eapply sublist_NoDup; [exact Hnd|]. eapply scan_ids_sublist. exact Hs. }
    assert (N2 : NoDup (map s_id (Js.sort by_score_desc results))).
    { rewrite (Permutation_map s_id (sort_perm by_score_desc results)). exact N1. }
    eapply sublist_NoDup; [exact N2|].
    apply fmap_sublist. apply sublist_take.
  - clear H Hl. induction HF as [|r x l xs (md & k & Hmd & ->) _ IH]; constructor.
    + assert (Hr : In r results) by (apply Hin; left; reflexivity).
      destruct (scan_In _ _ _ _ _ Hs Hr) as (v & Hv & Hc & _ & Hr').
      exists v. simpl. split; [exact Hv|]. split; [exact Hc|].
      rewrite Hr' in Hmd. simpl in Hmd. exact Hmd.
    + apply IH. intros r' Hr'. apply Hin. right. exact Hr'.
Qed.

(** [slice(0, topK)] keeps the whole array when [topK] is at least its
    length. *)
Lemma kept_all n len topK :
  Z_le_number (Z.of_nat n) topK -> (len <= n)%nat -> kept len topK = len.
Proof.
  intros H Hle. unfold kept.
  destruct topK as [s|s| |s m e]; simpl in *.
  - assert (len = 0%nat) by lia. subst. reflexivity.
  - subst s. simpl. lia.
  - contradiction.
  - assert (Hz : Z.of_nat n <= cond_Zopp s (Z.shiftl (Z.pos m) e)).
    { destruct (Z.leb_spec 0 e) as [He|He].
      - rewrite Z.shiftl_mul_pow2 by assumption.
        destruct s; simpl in *; [|exact H].
        assert (0 < Z.pos m * 2 ^ e) by (apply Z.mul_pos_pos; [lia|apply Z.pow_pos_nonneg; lia]).
        lia.
      - rewrite Z.shiftl_div_pow2 by lia.
        assert (P : 0 < 2 ^ (- e)) by (apply Z.pow_pos_nonneg; lia).
        destruct s; simpl in *; [nia|].
        apply Z.div_le_lower_bound; lia. }
    destruct (Z.ltb_spec (cond_Zopp s (Z.shiftl (Z.pos m) e)) 0); lia.
Qed.

(** X6. With a [topK] that is at least the number of stored vectors,
    [query] leaves no match out: every entry whose similarity passes the
    threshold is among the results, with its similarity as score. *)
Theorem query_returns_every_match vectors emb topK threshold tick res tick' id v s :
  query toISOString vectors emb (Some topK) threshold tick = inr (res, tick') ->
  Z_le_number (Z.of_nat (length vectors)) topK ->
  In (id, v) vectors ->
  cosineSimilarity emb (embedding v) = inr s ->
  num_ge s (default lit_0_7 threshold) = true ->
  exists r, In r res /\ r_id r = id /\ r_score r = s /\
            metadata v = Some (r_metadata r).
Proof.
  intros H Hk Hv Hc Hge.
  destruct (query_results_scanned _ _ _ _ _ _ _ H) as (results & l & Hs & Hl & _ & HF).
  simpl default in Hl.
  assert (Hlen : (length results <= length vectors)%nat).
  { pose proof (scan_ids_sublist _ _ _ _ Hs) as S.
    apply sublist_length in S. rewrite !length_map in S. exact S. }
  rewrite (kept_all _ _ _ Hk Hlen) in Hl.
  rewrite take_ge in Hl by (rewrite (Permutation_length (sort_perm by_score_desc results)); lia).
  pose proof (scan_complete _ _ _ _ _ _ _ Hs Hv Hc Hge) as Hin.
  assert (Hin' : In (scored_of id v s) l).
  { subst l. eapply Permutation_in; [symmetry; apply sort_perm|exact Hin]. }
  clear Hl H. induction HF as [|r x l xs (md & k & Hmd & ->) _ IH]; [destruct Hin'|].
  destruct Hin' as [->|Hin'].
  - eexists. split; [left; reflexivity|]. simpl. auto.
  - destruct (IH Hin') as (r' & A & B). exists r'. split; [right; exact A|exact B].
Qed.

(** *** A larger [topK] only adds results *)

Lemma shiftl_aligned m e ez :
  ez <= e -> Z.shiftl (Z.pos m) e = Z.shiftl (Z.pos m * 2 ^ Z.max 0 (e - ez)) ez.
Proof.
  intros H. replace (Z.max 0 (e - ez)) with (e - ez) by lia.
  rewrite <- Z.shiftl_mul_pow2 by lia.
  rewrite Z.shiftl_shiftl by lia. f_equal. lia.
Qed.

Lemma shiftl_mono a b n : 0 <= a <= b -> Z.shiftl a n <= Z.shiftl b n.
Proof.
  intros H. destruct (Z.leb_spec 0 n) as [Hn|Hn].
  - rewrite !Z.shiftl_mul_pow2 by assumption.
    apply Z.mul_le_mono_nonneg_r; [apply Z.pow_nonneg|]; lia.
  - rewrite !Z.shiftl_div_pow2 by lia.
    apply Z.div_le_mono; [apply Z.pow_pos_nonneg|]; lia.
Qed.

(** [slice(0, topK)] keeps more of an array as [topK] grows from 0. *)
Lemma kept_mono len k1 k2 :
  fvalid k1 = true -> fvalid k2 = true ->
  num_le fzero k1 = true -> num_le k1 k2 = true ->
  (kept len k1 <= kept len k2)%nat.
Proof.
  intros V1 V2 H0 H12. unfold kept.
  assert (Hlen : 0 <= Z.of_nat len) by lia.
  pose proof (clamp_index_range (Z.of_nat len) (Js.ToIntegerOrInfinity k2) Hlen) as R2.
  apply Z2Nat.inj_le; [apply clamp_index_range; lia|lia|].
  destruct k1 as [s1|s1| |s1 m1 e1]; try discriminate.
  - simpl. lia.
  - destruct s1; [discriminate|].
    destruct k2 as [s2|s2| |s2 m2 e2]; try discriminate.
    destruct s2; [discriminate|]. simpl. lia.
  - destruct s1; [discriminate|].
    destruct k2 as [s2|s2| |s2 m2 e2]; try discriminate.
    + destruct s2; [discriminate|]. simpl Js.ToIntegerOrInfinity at 2.
      simpl Js.clamp_index at 2.
      apply (clamp_index_range (Z.of_nat len) _ Hlen).
    + destruct s2; [discriminate|].
      unfold num_le in H12. rewrite (SFcompare_aligned _ _ _ _ _ _ V1 V2) in H12.
      unfold aligned in H12. simpl cond_Zopp in H12.
      destruct (shl_align_spec m1 e1 (Z.min e1 e2)) as [A1 _].
      destruct (shl_align_spec m2 e2 (Z.min e1 e2)) as [A2 _].
      rewrite A1, A2 in H12.
      assert (Hle : Z.pos m1 * 2 ^ Z.max 0 (e1 - Z.min e1 e2)
                    <= Z.pos m2 * 2 ^ Z.max 0 (e2 - Z.min e1 e2)).
      { destruct (Z.compare_spec (Z.pos m1 * 2 ^ Z.max 0 (e1 - Z.min e1 e2))
                    (Z.pos m2 * 2 ^ Z.max 0 (e2 - Z.min e1 e2))); try lia; discriminate. }
      simpl Js.ToIntegerOrInfinity. simpl cond_Zopp.
      rewrite (shiftl_aligned m1 e1 (Z.min e1 e2)) by lia.
      rewrite (shiftl_aligned m2 e2 (Z.min e1 e2)) by lia.
      assert (P : 0 <= Z.pos m1 * 2 ^ Z.max 0 (e1 - Z.min e1 e2)).
      { apply Z.mul_nonneg_nonneg; [lia|apply Z.pow_nonneg; lia]. }
      pose proof (shiftl_mono _ _ (Z.min e1 e2) (conj P Hle)) as M.
      assert (Q : 0 <= Z.shiftl (Z.pos m1 * 2 ^ Z.max 0 (e1 - Z.min e1 e2)) (Z.min e1 e2)).
      { apply Z.shiftl_nonneg. exact P. }
      simpl Js.clamp_index.
      repeat match goal with |- context [Z.ltb ?a 0] => destruct (Z.ltb_spec a 0) end; lia.
Qed.

Lemma map_results_take l tick xs tick' n :
  map_results toISOString l tick = inr (xs, tick') ->
  exists tick'', map_results toISOString (take n l) tick = inr (take n xs, tick'').
Proof.
  revert tick xs tick' n. induction l as [|r l IH]; intros tick xs tick' n.
  - simpl. intros [= <- <-]. destruct n; eexists; reflexivity.
  - destruct n as [|n]; [intros _; eexists; reflexivity|].
    simpl. destruct (to_result toISOString r tick) as [e|[x t1]]; [discriminate|].
    simpl. destruct (map_results toISOString l t1) as [e|[ys t2]] eqn:E; [discriminate|].
    simpl. intros [= <- <-].
    destruct (IH _ _ _ n E) as [t3 ->]. simpl. eexists; reflexivity.
Qed.

(** X7. A larger [topK] only adds results at the end: for
    [0 <= k1 <= k2], what [query] returns for [k1] is a prefix of what it
    returns for [k2]. *)
Theorem query_smaller_topK_is_prefix vectors emb k1 k2 threshold tick res2 tick2 :
  fvalid k1 = true -> fvalid k2 = true ->
  num_le fzero k1 = true -> num_le k1 k2 = true ->
  query toISOString vectors emb (Some k2) threshold tick = inr (res2, tick2) ->
  exists n tick1,
    query toISOString vectors emb (Some k1) threshold tick = inr (take n res2, tick1).
Proof.
  intros V1 V2 H0 H12 H.
  destruct (query_inr _ _ _ _ _ _ _ _ H) as (results & Hs & Hm).
  simpl default in Hm.
  exists (kept (length results) k1).
  destruct (map_results_take _ _ _ _ (kept (length results) k1) Hm) as [t1 Ht].
  exists t1. unfold query. simpl default at 1. rewrite Hs. simpl Js.bind.
  rewrite slice_zero.
  rewrite (Permutation_length (sort_perm by_score_desc results)).
  rewrite take_take in Ht.
  rewrite Nat.min_l in Ht by (apply kept_mono; assumption).
  exact Ht.
Qed.

End QueryAnswers.

(** ** A higher threshold only removes results *)

Section ThresholdFacts.
Import Pinecone.
Variable toISOString : nat -> string.

Lemma num_strict_eq_sym x y : num_strict_eq x y = true -> num_strict_eq y x = true.
Proof.
  unfold num_strict_eq. rewrite (SFcompare_antisym x y).
  destruct (SFcompare x y) as [[]|]; simpl; congruence.
Qed.

Lemma num_le_ge x y : num_le x y = num_ge y x.
Proof.
  unfold num_le, num_ge. rewrite (SFcompare_antisym x y).
  destruct (SFcompare x y) as [[]|]; reflexivity.
Qed.

(** The loop of [query] at a higher threshold pushes the elements of the
    lower one that pass it. *)
Lemma scan_filter emb t1 t2 entries results :
  num_le t1 t2 = true ->
  scan emb t1 entries = inr results ->
  scan emb t2 entries
    = inr (List.filter (fun r => num_ge (s_score r) t2) results).
Proof.
  intros Ht. rewrite num_le_ge in Ht.
  revert results. induction entries as [|[id v] rest IH]; intros results.
  - simpl. intros [= <-]. reflexivity.
  - rewrite !scan_cons.
    destruct (cosineSimilarity emb (embedding v)) as [e|s]; [discriminate|].
    destruct (scan emb t1 rest) as [e|r1]; [discriminate|].
    rewrite (IH r1 eq_refl). intros [= <-]. f_equal.
    destruct (num_ge s t2) eqn:E2.
    + rewrite (num_ge_trans _ _ _ E2 Ht). simpl. rewrite E2. reflexivity.
    + destruct (num_ge s t1); [|reflexivity]. simpl. rewrite E2. reflexivity.
Qed.

Lemma filter_strongly_sorted {A} (R : A -> A -> Prop) f l :
  StronglySorted R l -> StronglySorted R (List.filter f l).
Proof.
  induction 1 as [|x l _ IH Hx]; simpl; [constructor|].
  destruct (f x); [|exact IH]. constructor; [exact IH|].
  rewrite List.Forall_forall in *. intros y Hy. apply Hx.
  apply filter_In in Hy. tauto.
Qed.

Lemma before_filter {A} f (a b : A) l :
  before a b l -> f a = true -> f b = true -> before a b (List.filter f l).
Proof.
  intros H Ha Hb. induction H as [l Hin|x l _ IH]; simpl.
  - rewrite Ha. apply before_here. apply filter_In. auto.
  - destruct (f x); [apply before_later|]; exact IH.
Qed.

Lemma before_filter_inv {A} f (a b : A) l :
  before a b (List.filter f l) -> before a b l.
Proof.
  induction l as [|x l IH]; simpl; [inversion 1|].
  destruct (f x) eqn:E.
  - intros H. inversion H as [l' Hin|y l' Hb]; subst.
    + apply before_here. apply filter_In in Hin. tauto.
    + apply before_later. apply IH. exact Hb.
  - intros H. apply before_later. apply IH. exact H.
Qed.

(** Among elements of equal score the sort changes nothing: their order
    in the sorted array is their order before. *)
Lemma sort_reflects_ties a b l :
  Forall good l -> NoDup l ->
  num_strict_eq (s_score a) (s_score b) = true ->
  before a b (Js.sort by_score_desc l) -> before a b l.
Proof.
  intros G Hnd Heq Hb.
  assert (Hnds : NoDup (Js.sort by_score_desc l)) by (rewrite sort_perm; exact Hnd).
  destruct (before_In _ _ _ Hb) as [Ha Hb'].
  assert (Hne : a <> b) by (intros ->; exact (before_irrefl b _ Hnds Hb)).
  destruct (before_or a b l Hne) as [Hab|Hba].
  - apply (Permutation_in _ (sort_perm by_score_desc l)). exact Ha.
  - apply (Permutation_in _ (sort_perm by_score_desc l)). exact Hb'.
  - exact Hab.
  - exfalso. apply (before_asym a b _ Hnds Hb).
    apply sort_stable; [exact G|exact Hba|]. apply num_strict_eq_sym. exact Heq.
Qed.

(** Filtering commutes with the sort. *)
Lemma sort_filter f l :
  Forall good l -> NoDup l ->
  List.filter f (Js.sort by_score_desc l) = Js.sort by_score_desc (List.filter f l).
Proof.
  intros G Hnd.
  assert (Gf : Forall good (List.filter f l)).
  { rewrite List.Forall_forall in *. intros x Hx. apply G. apply filter_In in Hx. tauto. }
  assert (Hnds : NoDup (Js.sort by_score_desc l)) by (rewrite sort_perm; exact Hnd).
  assert (Gs : Forall good (Js.sort by_score_desc l)) by (rewrite sort_perm; exact G).
  apply sorted_arrangement_unique.
  - apply NoDup_ListNoDup. apply List.NoDup_filter. apply NoDup_ListNoDup. exact Hnds.
  - assert (P : forall l1 l2 : list scored, Permutation l1 l2 ->
                  Permutation (List.filter f l1) (List.filter f l2)).
    { induction 1; simpl; try (repeat destruct (f _)); eauto using Permutation. }
    transitivity (List.filter f l); [apply P, sort_perm|symmetry; apply sort_perm].
  - apply filter_strongly_sorted. apply sort_sorted. exact G.
  - apply sort_sorted. exact Gf.
  - intros a b Heq Hb.
    destruct (before_In _ _ _ Hb) as [Ha Hb'].
    apply filter_In in Ha. apply filter_In in Hb'.
    apply sort_stable; [exact Gf| |exact Heq].
    apply before_filter; [|tauto|tauto].
    apply sort_reflects_ties; try assumption.
    eapply before_filter_inv. exact Hb.
Qed.

(** In an array sorted by score, the elements that pass a threshold come
    first. *)
Lemma sorted_filter_prefix t l :
  StronglySorted score_ge l ->
  List.filter (fun r => num_ge (s_score r) t) l
    = take (length (List.filter (fun r => num_ge (s_score r) t) l)) l.
Proof.
  induction 1 as [|x l _ IH Hx]; simpl; [reflexivity|].
  destruct (num_ge (s_score x) t) eqn:E; simpl.
  - f_equal. exact IH.
  - assert (N : List.filter (fun r => num_ge (s_score r) t) l = []).
    { clear IH. induction l as [|y l IHl]; simpl; [reflexivity|].
      inversion Hx as [|? ? Hxy Hx']; subst.
      destruct (num_ge (s_score y) t) eqn:Ey.
      - unfold score_ge in Hxy. rewrite (num_ge_trans _ _ _ Hxy Ey) in E. discriminate.
      - apply IHl. exact Hx'. }
    rewrite N. reflexivity.
Qed.

(** [slice(0, topK)] keeps no more of a shorter array. *)
Lemma kept_len_mono len1 len2 topK :
  (len2 <= len1)%nat -> (kept len2 topK <= kept len1 topK)%nat.
Proof.
  intros H. unfold kept. apply Z2Nat.inj_le; try (apply clamp_index_range; lia).
  destruct (Js.ToIntegerOrInfinity topK) as [|z|]; simpl; try lia.
  destruct (Z.ltb_spec z 0); lia.
Qed.

(** X8. A higher threshold only removes results, from the end: for
    [t1 <= t2], what [query] returns at the threshold [t2] is a prefix
    of what it returns at [t1]. *)
Theorem query_higher_threshold_is_prefix vectors emb topK t1 t2 tick res1 tick1 :
  NoDup (map fst vectors) ->
  num_le t1 t2 = true ->
  query toISOString vectors emb topK (Some t1) tick = inr (res1, tick1) ->
  exists n tick2,
    query toISOString vectors emb topK (Some t2) tick = inr (take n res1, tick2).
Proof.
  intros Hnd Ht H.
  destruct (query_inr _ _ _ _ _ _ _ _ H) as (results & Hs & Hm).
  simpl default in Hs, Hm.
  pose proof (scan_good _ _ _ _ Hs) as G.
  assert (Hndr : NoDup results).
  { apply (NoDup_fmap_1 s_id). eapply sublist_NoDup; [exact Hnd|].
    eapply scan_ids_sublist. exact Hs. }
  set (f := fun r : scored => num_ge (s_score r) t2).
  set (k := default lit_5 topK) in *.
  pose proof (sort_filter f results G Hndr) as Hsf.
  pose proof (sorted_filter_prefix t2 _ (sort_sorted results G)) as Hpre.
  fold f in Hpre. rewrite Hsf in Hpre.
  assert (Hlen : length (Js.sort by_score_desc (List.filter f results))
                 = length (List.filter f results))
    by (apply Permutation_length, sort_perm).
  rewrite Hlen in Hpre.
  assert (Hle : (length (List.filter f results) <= length results)%nat)
    by apply filter_length_le.
  exists (kept (length (List.filter f results)) k).
  destruct (map_results_take toISOString _ _ _ _
              (kept (length (List.filter f results)) k) Hm) as [t2' Ht2].
  exists t2'. unfold query. simpl default. fold k.
  rewrite (scan_filter _ _ _ _ _ Ht Hs). simpl Js.bind. fold f.
  rewrite slice_zero, Hlen, Hpre.
  rewrite take_take in Ht2 |- *.
  rewrite Nat.min_l in Ht2 by (apply kept_len_mono; exact Hle).
  rewrite Nat.min_l.
  - exact Ht2.
  - unfold kept.
    pose proof (clamp_index_range (Z.of_nat (length (List.filter f results)))
                  (Js.ToIntegerOrInfinity k) ltac:(lia)).
    lia.
Qed.

End ThresholdFacts.

(** ** More on the map of stored vectors *)

Section UpsertFacts.
Import Pinecone.

Lemma Map_set_keeps k v (m : vector_map) k' v' :
  In (k', v') m -> k' <> k -> In (k', v') (Map_set k v m).
Proof.
  induction m as [|[k0 v0] m IH]; simpl; [tauto|].
  destruct (String.eqb_spec k k0) as [->|Hne0]; simpl.
  - intros [[= -> ->]|Hin] Hne; [contradiction|right; exact Hin].
  - intros [Heq|Hin] Hne; [left; exact Heq|right; apply IH; assumption].
Qed.

(** X9. [upsert] adds one entry for a new identifier and none for one
    that is stored already: [getVectorCount] counts identifiers, not
    calls. *)
Theorem upsert_vector_count id emb md vectors :
  getVectorCount (upsert id emb md vectors) =
  if decide (id ∈ map fst vectors) then getVectorCount vectors
  else S (getVectorCount vectors).
Proof.
  unfold getVectorCount, upsert.
  rewrite <- (length_map fst (Map_set _ _ _)), Map_set_keys.
  destruct (decide (id ∈ map fst vectors)).
  - apply length_map.
  - rewrite length_app, length_map. simpl. lia.
Qed.

(** X10. After [upsert(id, v, a)] the index holds exactly [v] and [a]
    under [id], and under every other identifier what it held before. *)
Theorem upsert_then_entries id emb md vectors id' v :
  NoDup (map fst vectors) ->
  In (id', v) (upsert id emb md vectors) <->
  (id' = id /\ v = {| embedding := emb; metadata := md |}) \/
  (id' <> id /\ In (id', v) vectors).
Proof.
  intros Hnd. unfold upsert. split.
  - intros Hin. destruct (String.eqb_spec id' id) as [->|Hne].
    + left. split; [reflexivity|].
      eapply keys_functional; [apply Map_set_NoDup; exact Hnd|exact Hin|apply Map_set_In].
    + right. split; [exact Hne|]. eapply Map_set_other; eassumption.
  - intros [[-> ->]|[Hne Hin]]; [apply Map_set_In|apply Map_set_keeps; assumption].
Qed.

(** X11. The last write wins: a second [upsert] under the same identifier
    leaves the index as if the first had not been made, the position of
    the entry included. *)
Theorem upsert_last_write_wins id emb1 md1 emb2 md2 vectors :
  upsert id emb2 md2 (upsert id emb1 md1 vectors) = upsert id emb2 md2 vectors.
Proof.
  unfold upsert. induction vectors as [|[k v] m IH]; simpl.
  - rewrite String.eqb_refl. reflexivity.
  - destruct (String.eqb_spec id k) as [->|Hne]; simpl.
    + rewrite String.eqb_refl. reflexivity.
    + destruct (String.eqb_spec id k); [contradiction|]. rewrite IH. reflexivity.
Qed.

(** X12. Two [upsert]s under different identifiers can be made in either
    order: the index holds the same entries. *)
Theorem upsert_distinct_ids_commute id1 emb1 md1 id2 emb2 md2 vectors :
  id1 <> id2 ->
  Permutation (upsert id1 emb1 md1 (upsert id2 emb2 md2 vectors))
              (upsert id2 emb2 md2 (upsert id1 emb1 md1 vectors)).
Proof.
  intros Hne. unfold upsert. induction vectors as [|[k v] m IH]; simpl.
  - destruct (String.eqb_spec id1 id2); [contradiction|].
    destruct (String.eqb_spec id2 id1); [congruence|]. apply perm_swap.
  - destruct (String.eqb_spec id2 k) as [->|N2]; destruct (String.eqb_spec id1 k) as [->|N1];
      simpl; try congruence.
    + destruct (String.eqb_spec id1 k); [contradiction|]. rewrite String.eqb_refl. reflexivity.
    + destruct (String.eqb_spec id2 k); [contradiction|]. rewrite String.eqb_refl. reflexivity.
    + destruct (String.eqb_spec id1 k); [contradiction|].
      destruct (String.eqb_spec id2 k); [contradiction|].
      apply perm_skip. exact IH.
Qed.

End UpsertFacts.

(** ** The comparison function of the sort *)

Section ScoreOrder.
Import Pinecone.

(** X13. The comparison function of the sort, [b.score - a.score], has
    the sign of the order of the two scores: on doubles that are not NaN
    the rounded difference is positive, negative or zero exactly when
    [b.score] is above, below or equal to [a.score] (the NaN of two equal
    infinities counts as zero). *)
Theorem comparator_sign_is_score_order a b :
  good a -> good b ->
  num_gt (Js.SortCompare by_score_desc a b) fzero = num_gt (s_score b) (s_score a) /\
  num_lt (Js.SortCompare by_score_desc a b) fzero = num_lt (s_score b) (s_score a) /\
  num_strict_eq (Js.SortCompare by_score_desc a b) fzero
    = num_strict_eq (s_score b) (s_score a).
Proof.
  intros [Va Na] [Vb Nb].
  destruct (SFcompare_total _ _ Nb Na) as [c Hc].
  pose proof (fsub_compare _ _ _ Vb Va Hc) as H.
  unfold Js.SortCompare, by_score_desc, num_gt, num_lt, num_strict_eq.
  rewrite H, Hc. auto.
Qed.

End ScoreOrder.

(** ** Sorting by a key, largest first *)

Section KeySort.
Context {A : Type}.
Variable key : A -> number.

(** A key the comparison orders: a double that is not NaN. *)
Abbreviation ordered := (fun x : A => fvalid (key x) = true /\ is_nan (key x) = false).
Abbreviation by_key_desc := (fun a b : A => fsub (key b) (key a)).

Lemma by_key_desc_after x y :
  ordered x -> ordered y ->
  num_gt (Js.SortCompare by_key_desc x y) fzero = num_lt (key x) (key y).
Proof.
  intros [Vx Nx] [Vy Ny].
  destruct (SFcompare_total (key y) (key x) Ny Nx) as [c Hc].
  pose proof (fsub_compare _ _ _ Vy Vx Hc) as H.
  unfold Js.SortCompare, num_gt, num_lt. cbv beta zeta. rewrite H.
  rewrite (SFcompare_antisym (key y) (key x)), Hc.
  destruct c; reflexivity.
Qed.

Lemma key_sort_insert_split x l :
  ordered x -> Forall ordered l ->
  exists p q, l = p ++ q /\ Js.sort_insert by_key_desc x l = p ++ x :: q /\
    Forall (fun y => num_lt (key x) (key y) = true) p /\
    match q with [] => True | y :: _ => num_ge (key x) (key y) = true end.
Proof.
  intros Gx Gl. induction l as [|y l IH]; simpl.
  - exists [], []. repeat split. constructor.
  - inversion Gl as [|? ? Gy Gl']; subst.
    rewrite by_key_desc_after by assumption.
    destruct (num_lt (key x) (key y)) eqn:E.
    + destruct (IH Gl') as (p & q & -> & -> & Hp & Hq).
      exists (y :: p), q. repeat split; [constructor; assumption|exact Hq].
    + exists [], (y :: l). repeat split; [constructor|].
      apply num_lt_false_ge; [apply Gx|apply Gy|exact E].
Qed.

Lemma key_sort_sorted l :
  Forall ordered l ->
  StronglySorted (fun a b => num_ge (key a) (key b) = true) (Js.sort by_key_desc l).
Proof.
  induction l as [|x l IH]; simpl; intros G; [constructor|].
  inversion G as [|? ? Gx Gl]; subst. specialize (IH Gl).
  assert (Gs : Forall ordered (Js.sort by_key_desc l)) by (rewrite sort_perm; exact Gl).
  destruct (key_sort_insert_split x _ Gx Gs) as (p & q & E & -> & Hp & Hq).
  rewrite E in IH. clear E Gs.
  induction p as [|y p IHp]; simpl in *.
  - constructor; [exact IH|]. destruct q as [|z q]; constructor; [exact Hq|].
    inversion IH as [|? ? _ Hz]; subst.
    eapply Forall_impl; [exact Hz|]. intros t Ht. eapply num_ge_trans; eassumption.
  - inversion IH as [|? ? Hs Hy]; subst. inversion Hp as [|? ? Hxy Hp']; subst.
    constructor; [apply IHp; assumption|].
    apply Forall_app in Hy. destruct Hy as [Hy1 Hy2].
    apply Forall_app. split; [exact Hy1|]. constructor; [|exact Hy2].
    apply num_lt_ge_flip. exact Hxy.
Qed.

Lemma key_sort_stable a b l :
  Forall ordered l -> before a b l ->
  num_strict_eq (key a) (key b) = true ->
  before a b (Js.sort by_key_desc l).
Proof.
  intros G H Heq. induction H as [l Hin|x l Hb IH]; simpl.
  - inversion G as [|? ? Ga Gl]; subst.
    assert (Gs : Forall ordered (Js.sort by_key_desc l)) by (rewrite sort_perm; exact Gl).
    destruct (key_sort_insert_split a _ Ga Gs) as (p & q & E & -> & Hp & _).
    apply before_split.
    assert (Hin' : In b (p ++ q)).
    { rewrite <- E. apply (Permutation_in _ (Permutation_sym (sort_perm _ _))). exact Hin. }
    apply in_app_iff in Hin'. destruct Hin' as [Hin'|Hin']; [|exact Hin'].
    rewrite Forall_forall in Hp. apply list_elem_of_In in Hin'. specialize (Hp b Hin').
    rewrite num_strict_eq_not_lt in Hp by assumption. discriminate.
  - inversion G as [|? ? Gx Gl]; subst.
    assert (Gs : Forall ordered (Js.sort by_key_desc l)) by (rewrite sort_perm; exact Gl).
    destruct (key_sort_insert_split x _ Gx Gs) as (p & q & E & -> & _).
    apply before_insert_mid. rewrite <- E. apply IH. exact Gl.
Qed.

End KeySort.

(** ** The maps of the storage *)

Section JsMapFacts.
Import Storage.
Context {V : Type}.
Implicit Types (m : list (string * V)) (k : string) (v : V).

Lemma Map_get_set k v m : Map_get k (Map_set k v m) = Some v.
Proof.
  induction m as [|[k' v'] m IH]; simpl.
  - rewrite String.eqb_refl. reflexivity.
  - destruct (String.eqb_spec k k') as [->|Hne]; simpl.
    + rewrite String.eqb_refl. reflexivity.
    + destruct (String.eqb_spec k k'); [contradiction|exact IH].
Qed.

Lemma Map_set_holds k v m : In (k, v) (Map_set k v m).
Proof.
  induction m as [|[k' v'] m IH]; simpl; [left; reflexivity|].
  destruct (String.eqb_spec k k'); [left; reflexivity|right; exact IH].
Qed.

Lemma Map_get_set_other k v m k' : k' <> k -> Map_get k' (Map_set k v m) = Map_get k' m.
Proof.
  intros Hne. induction m as [|[k0 v0] m IH]; simpl.
  - destruct (String.eqb_spec k' k); [contradiction|reflexivity].
  - destruct (String.eqb_spec k k0) as [->|Hne0]; simpl.
    + destruct (String.eqb_spec k' k0); [contradiction|reflexivity].
    + destruct (String.eqb_spec k' k0); [reflexivity|exact IH].
Qed.

Lemma Map_set_new k v m : Map_get k m = None -> Map_set k v m = m ++ [(k, v)].
Proof.
  induction m as [|[k' v'] m IH]; simpl; [reflexivity|].
  destruct (String.eqb_spec k k'); [discriminate|].
  intros H. rewrite IH by exact H. reflexivity.
Qed.

(** Setting a key that is present replaces its first binding in place. *)
Lemma Map_set_old k v m v0 :
  Map_get k m = Some v0 ->
  exists p q, m = p ++ (k, v0) :: q /\ Map_get k p = None /\
              Map_set k v m = p ++ (k, v) :: q.
Proof.
  induction m as [|[k' v'] m IH]; simpl; [discriminate|].
  destruct (String.eqb_spec k k') as [->|Hne].
  - intros [= ->]. exists [], m. auto.
  - intros H. destruct (IH H) as (p & q & -> & Hp & ->).
    exists ((k', v') :: p), q. simpl.
    destruct (String.eqb_spec k k'); [contradiction|]. auto.
Qed.

Lemma Map_get_None k m : Map_get k m = None <-> ~ In k (map fst m).
Proof.
  induction m as [|[k' v'] m IH]; simpl; [tauto|].
  destruct (String.eqb_spec k k') as [->|Hne]; [split; [discriminate|tauto]|].
  rewrite IH. split; [intros H [E|E]; [congruence|tauto]|tauto].
Qed.

Lemma Map_get_first k v p q :
  ~ In k (map fst p) -> Map_get k (p ++ (k, v) :: q) = Some v.
Proof.
  induction p as [|[k' v'] p IH]; simpl; intros H.
  - rewrite String.eqb_refl. reflexivity.
  - destruct (String.eqb_spec k k'); [subst; tauto|]. apply IH. tauto.
Qed.

End JsMapFacts.

Lemma find_app {A} (f : A -> bool) l1 l2 :
  List.find f (l1 ++ l2) =
  match List.find f l1 with Some x => Some x | None => List.find f l2 end.
Proof.
  induction l1 as [|x l1 IH]; simpl; [reflexivity|].
  destruct (f x); [reflexivity|exact IH].
Qed.

(** ** The storage *)

Section StorageFacts.
Import Schema Storage.
Variable randomUUID : nat -> string.
Variable getTime : Date -> number.

(** X14. A document created is found again under its identifier, and no
    other identifier is affected. With an identifier that is new, the
    document goes last in [getDocuments]; were [randomUUID] to return an
    identifier in use, the document stored under it would be replaced
    in place. The index of vectors is not touched. *)
Theorem createDocument_then_getDocumentById insertDocument w :
  let document := fst (createDocument randomUUID insertDocument w) in
  let w' := snd (createDocument randomUUID insertDocument w) in
  getDocumentById (d_id document) w' = Some document /\
  (forall id, id <> d_id document -> getDocumentById id w' = getDocumentById id w) /\
  (getDocumentById (d_id document) w = None ->
     getDocuments w' = getDocuments w ++ [document]) /\
  (forall old, getDocumentById (d_id document) w = Some old ->
     exists p q, getDocuments w = p ++ old :: q /\
                 getDocuments w' = p ++ document :: q) /\
  vectors w' = vectors w.
Proof.
  unfold createDocument, getDocumentById, getDocuments. simpl.
  split; [apply Map_get_set|]. split; [|split; [|split; [|reflexivity]]].
  - intros id Hne. apply Map_get_set_other. exact Hne.
  - intros H. rewrite (Map_set_new _ _ _ H). unfold Map_values.
    rewrite map_app. reflexivity.
  - intros old H.
    match goal with
    | |- context [Map_set ?k ?v ?m] =>
        destruct (Map_set_old k v m old H) as (p & q & E & _ & ->)
    end.
    exists (map snd p), (map snd q). rewrite E. unfold Map_values.
    rewrite !map_app. auto.
Qed.

(** X15. [updateQuery] on an identifier that is not stored returns
    [undefined] and changes nothing. On a stored identifier it returns
    the stored query with the properties of [updates] written over it,
    and stores it at the place the query had in [getQueries]. *)
Theorem updateQuery_in_place id updates w :
  (~ In id (map fst (queries (storage w))) -> updateQuery id updates w = (None, w)) /\
  (forall p query q,
     queries (storage w) = p ++ (id, query) :: q -> ~ In id (map fst p) ->
     fst (updateQuery id updates w) = Some (merge query updates) /\
     getQueries (snd (updateQuery id updates w)) =
       Map_values p ++ merge query updates :: Map_values q /\
     getQueries w = Map_values p ++ query :: Map_values q).
Proof.
  unfold updateQuery, getQueries. split.
  - intros H. apply Map_get_None in H. rewrite H. reflexivity.
  - intros p query q E Hp. rewrite E.
    rewrite (Map_get_first _ _ _ _ Hp). simpl.
    destruct (Map_set_old id (merge query updates) _ _ (Map_get_first _ query _ q Hp))
      as (p' & q' & E' & Hp' & ->).
    assert (p' = p /\ q' = q) as [-> ->].
    { clear -E' Hp Hp'. revert p' E' Hp'. induction p as [|[k v] p IH]; intros [|[k' v'] p'];
        simpl; intros E' Hp'.
      - injection E' as E1. subst. auto.
      - injection E' as E1 E2 E3. subst. rewrite String.eqb_refl in Hp'. discriminate.
      - injection E' as E1 E2 E3. subst. simpl in Hp. tauto.
      - injection E' as E1 E2 E3. subst k' v'.
        destruct (String.eqb_spec id k); [discriminate|].
        destruct (IH ltac:(simpl in Hp; tauto) p' E3 Hp') as [-> ->]. auto. }
    unfold Map_values. rewrite !map_app. auto.
Qed.

(** X16. The query [createQuery] returns can be updated at once: the
    identifier it carries is stored, whatever [randomUUID] returned, and
    [updateQuery] on it returns the new query with the updates written
    over its [null] columns. *)
Theorem createQuery_then_updateQuery insertQuery updates w :
  let query := fst (createQuery randomUUID insertQuery w) in
  let w1 := snd (createQuery randomUUID insertQuery w) in
  fst (updateQuery (q_id query) updates w1) = Some (merge query updates) /\
  In (merge query updates) (getQueries (snd (updateQuery (q_id query) updates w1))) /\
  q_query (merge query updates) = default (iq_query insertQuery) (pq_query updates) /\
  q_response (merge query updates) = default None (pq_response updates).
Proof.
  unfold createQuery, updateQuery, getQueries. simpl.
  rewrite Map_get_set. simpl. split; [reflexivity|]. split; [|split; reflexivity].
  unfold Map_values. apply in_map_iff.
  match goal with
  | |- context [Map_set ?k ?v ?m] => exists (k, v); split; [reflexivity|apply Map_set_holds]
  end.
Qed.

(** X17. [createUser] does not check the user name. A user created is
    found under its identifier; a lookup by name returns the first user
    created with that name, so a user created under a name that is taken
    is stored but never returned by [getUserByUsername]. *)
Theorem createUser_then_lookup insertUser w :
  let user := fst (createUser randomUUID insertUser w) in
  let w' := snd (createUser randomUUID insertUser w) in
  getUser (u_id user) w' = Some user /\
  (getUser (u_id user) w = None ->
   forall name,
     getUserByUsername name w' =
     match getUserByUsername name w with
     | Some u => Some u
     | None => if String.eqb (iu_username insertUser) name then Some user else None
     end).
Proof.
  unfold createUser, getUser, getUserByUsername. simpl.
  split; [apply Map_get_set|].
  intros H name. rewrite (Map_set_new _ _ _ H). unfold Map_values.
  rewrite map_app, find_app. simpl. reflexivity.
Qed.

(** X18. [getApiLogs] returns every stored log once, the latest first:
    the times (0 for a log without a time) do not increase along the
    array, and logs of the same time stay in the order in which they
    were written. *)
Theorem getApiLogs_latest_first w :
  Forall (fun log => fvalid (time_or_0 getTime log) = true)
    (Map_values (apiLogs (storage w))) ->
  Permutation (getApiLogs getTime w) (Map_values (apiLogs (storage w))) /\
  StronglySorted
    (fun a b => num_ge (time_or_0 getTime a) (time_or_0 getTime b) = true)
    (getApiLogs getTime w) /\
  (forall a b,
     before a b (Map_values (apiLogs (storage w))) ->
     num_strict_eq (time_or_0 getTime a) (time_or_0 getTime b) = true ->
     before a b (getApiLogs getTime w)).
Proof.
  intros HV. unfold getApiLogs.
  assert (G : Forall (fun log => fvalid (time_or_0 getTime log) = true /\
                        is_nan (time_or_0 getTime log) = false)
                (Map_values (apiLogs (storage w)))).
  { eapply Forall_impl; [exact HV|]. intros log V. split; [exact V|].
    unfold time_or_0, number_or_0. destruct (l_timestamp log); [|reflexivity].
    destruct (getTime d); reflexivity. }
  split; [apply sort_perm|]. split.
  - apply (key_sort_sorted (time_or_0 getTime)). exact G.
  - intros a b Hb He. apply (key_sort_stable (time_or_0 getTime)); assumption.
Qed.

End StorageFacts.

(** ** The routes of the knowledge base *)

Section ApiFacts.
Import Schema Storage Api.
Variable randomUUID : nat -> string.
Variable getTime : nat -> number.
Variable toISOString : nat -> string.
Variable embeddings_create : string -> string -> Js.result (list number).
Variable models_list : Js.result unit.
Variable request_body : Type.
Variable insertDocumentSchema_parse : request_body -> Js.result InsertDocument.

Abbreviation post_documents :=
  (post_api_documents randomUUID getTime toISOString embeddings_create
     request_body insertDocumentSchema_parse).
Abbreviation delete_documents := (delete_api_documents randomUUID getTime).
Abbreviation get_documents := (get_api_documents randomUUID getTime).
Abbreviation test_connections :=
  (get_api_test_connections randomUUID getTime models_list).
Abbreviation embedding_model' := "text-embedding-3-small"%string.

(** The entry [log_request] writes, and the state it leaves. *)
Lemma log_request_writes method endpoint status startTime w :
  exists log,
    log_request randomUUID getTime method endpoint status startTime w =
      (inr tt,
       with_storage (with_apiLogs (Map_set (l_id log) log (apiLogs (storage w)))
                       (storage w))
         (tick (drawn (tick w)))) /\
    l_method log = method /\ l_endpoint log = endpoint /\ l_status log = status.
Proof.
  exists {| l_id := randomUUID (uuids w);
            l_method := method; l_endpoint := endpoint; l_status := status;
            l_duration := fdiv (fsub (getTime (readings w)) startTime) (of_Z 1000);
            l_timestamp := Some (S (readings w)) |}.
  split; [reflexivity|]. simpl. auto.
Qed.

(** A handler that logs and then answers: the answer, and the state
    with the entry written. *)
Lemma reply_after_log {A} method endpoint status startTime (r : reply A) w :
  exists log,
    io_bind (log_request randomUUID getTime method endpoint status startTime)
      (fun _ => io_ret r) w =
      (inr r,
       with_storage (with_apiLogs (Map_set (l_id log) log (apiLogs (storage w)))
                       (storage w))
         (tick (drawn (tick w)))) /\
    l_method log = method /\ l_endpoint log = endpoint /\ l_status log = status.
Proof.
  destruct (log_request_writes method endpoint status startTime w) as (log & L & H).
  exists log. unfold io_bind. rewrite L. split; [reflexivity|exact H].
Qed.

(** X19. [POST /api/documents] always answers, with 201 or 400, and
    stores all or nothing. Answering 201 it has stored the document
    under its identifier, and under the same identifier its embedding
    and metadata in the index. It answers 400 when the schema rejects
    the body (the embedding provider is then not called) or when the
    provider fails, and has then changed neither the documents nor the
    index. *)
Theorem ingestion_all_or_nothing body w :
  exists r w',
    post_documents body w = (inr r, w') /\
    match r with
    | Sent status c =>
        status = 201 /\
        getDocumentById (d_id (document c)) w' = Some (document c) /\
        exists documentData emb,
          insertDocumentSchema_parse body = inr documentData /\
          embeddings_create embedding_model' (i_content documentData) = inr emb /\
          dimensions c = length emb /\
          vectors w' =
            Pinecone.upsert (d_id (document c)) emb
              (Some (index_metadata toISOString documentData (document c))) (vectors w) /\
          calls w' =
            calls w ++ [OpenAI.EvEmbeddingsCreate embedding_model' (i_content documentData)]
    | Failed status error details =>
        status = 400 /\ error = "Failed to add document"%string /\
        vectors w' = vectors w /\
        documents (storage w') = documents (storage w) /\
        exists e,
          details = details_of e /\
          ((insertDocumentSchema_parse body = inl e /\ calls w' = calls w) \/
           (exists documentData,
              insertDocumentSchema_parse body = inr documentData /\
              embeddings_create embedding_model' (i_content documentData) = inl e /\
              calls w' =
                calls w ++
                [OpenAI.EvEmbeddingsCreate embedding_model' (i_content documentData)]))
    end.
Proof.
  unfold post_api_documents, try_catch, io_bind, io_lift, io_traced, Date_now,
    OpenAI.generateEmbedding, OpenAI.tbind, OpenAI.emit, OpenAI.lift, OpenAI.tret, Js.ret.
  destruct (insertDocumentSchema_parse body) as [e|d] eqn:P.
  - eexists; eexists; split; [reflexivity|]. simpl.
    repeat (split; [reflexivity|]). exists e. split; [reflexivity|]. left.
    split; reflexivity.
  - cbn [fst snd].
    destruct (embeddings_create embedding_model' (i_content d)) as [e|emb] eqn:E.
    + eexists; eexists; split; [reflexivity|]. simpl.
      repeat (split; [reflexivity|]). exists e. split; [reflexivity|]. right.
      exists d. rewrite E. auto.
    + eexists; eexists; split; [reflexivity|]. simpl.
      split; [reflexivity|]. split.
      * unfold getDocumentById. simpl. apply Map_get_set.
      * exists d, emb. rewrite E. repeat (split; [reflexivity|]). reflexivity.
Qed.

(** The state [POST /api/documents] leaves when the schema and the
    provider accept: one vector written, two identifiers drawn. *)
Lemma ingestion_accepted body w documentData emb :
  insertDocumentSchema_parse body = inr documentData ->
  embeddings_create embedding_model' (i_content documentData) = inr emb ->
  exists document,
    vectors (snd (post_documents body w)) =
      Pinecone.upsert (randomUUID (uuids w)) emb
        (Some (index_metadata toISOString documentData document)) (vectors w) /\
    uuids (snd (post_documents body w)) = (2 + uuids w)%nat.
Proof.
  intros P E.
  unfold post_api_documents, try_catch, io_bind, io_lift, io_traced, Date_now,
    OpenAI.generateEmbedding, OpenAI.tbind, OpenAI.emit, OpenAI.lift, OpenAI.tret, Js.ret.
  rewrite P. cbn [fst snd]. rewrite E. simpl. eexists. split; reflexivity.
Qed.

(** X20. The identifier of a stored vector is drawn for each request:
    the same body sent twice is stored twice, under two identifiers,
    whatever its [documentId]. *)
Theorem ingestion_does_not_deduplicate body w documentData emb :
  insertDocumentSchema_parse body = inr documentData ->
  embeddings_create embedding_model' (i_content documentData) = inr emb ->
  randomUUID (uuids w) <> randomUUID (2 + uuids w) ->
  ~ In (randomUUID (uuids w)) (map fst (vectors w)) ->
  ~ In (randomUUID (2 + uuids w)) (map fst (vectors w)) ->
  let w1 := snd (post_documents body w) in
  let w2 := snd (post_documents body w1) in
  Pinecone.getVectorCount (vectors w2) = (2 + Pinecone.getVectorCount (vectors w))%nat /\
  exists v1 v2,
    In (randomUUID (uuids w), v1) (vectors w2) /\
    In (randomUUID (2 + uuids w), v2) (vectors w2) /\
    Pinecone.embedding v1 = emb /\ Pinecone.embedding v2 = emb.
Proof.
  intros P E Hne H1 H2 w1 w2.
  destruct (ingestion_accepted body w _ _ P E) as (d1 & V1 & U1).
  destruct (ingestion_accepted body w1 _ _ P E) as (d2 & V2 & U2).
  fold w1 in V1, U1. fold w2 in V2, U2. rewrite U1 in V2.
  rewrite <- list_elem_of_In in H1, H2.
  assert (K1 : map fst (vectors w1) = map fst (vectors w) ++ [randomUUID (uuids w)]).
  { rewrite V1. unfold Pinecone.upsert. rewrite Map_set_keys.
    destruct (decide (randomUUID (uuids w) ∈ map fst (vectors w))); [contradiction|].
    reflexivity. }
  assert (K2 : map fst (vectors w2) = map fst (vectors w1) ++ [randomUUID (2 + uuids w)]).
  { rewrite V2. unfold Pinecone.upsert. rewrite Map_set_keys.
    destruct (decide (randomUUID (2 + uuids w) ∈ map fst (vectors w1))) as [Hin|]; [|reflexivity].
    exfalso. rewrite K1 in Hin. apply elem_of_app in Hin.
    destruct Hin as [Hin|Hin]; [contradiction|].
    apply list_elem_of_singleton in Hin. congruence. }
  split.
  - unfold Pinecone.getVectorCount.
    rewrite <- (length_map fst (vectors w2)), K2, K1, !length_app, length_map. simpl. lia.
  - eexists; eexists. split; [|split; [|split]].
    + rewrite V2. apply Map_set_keeps; [|exact Hne]. rewrite V1. apply Map_set_In.
    + rewrite V2. apply Map_set_In.
    + reflexivity.
    + reflexivity.
Qed.

(** The properties spread into the metadata object are the own
    properties of the document's metadata. *)
Lemma index_metadata_union documentData document :
  index_metadata toISOString documentData document =
  match i_metadata documentData with
  | Some j => own_properties j
  | None => ∅
  end ∪
  (<[ "createdAt" := match d_createdAt document with
                     | Some d => Js.JStr (toISOString d)
                     | None => Js.JUndefined
                     end ]>
   (<[ "documentId" := Js.JStr (i_documentId documentData) ]>
    (<[ "category" := Js.JStr (i_category documentData) ]>
     (<[ "content" := Js.JStr (i_content documentData) ]> ∅)))).
Proof.
  unfold index_metadata. destruct (i_metadata documentData) as [j|]; [|reflexivity].
  destruct j as [|b|n|s|l|o]; try reflexivity; simpl.
  - destruct b; reflexivity.
  - destruct n; reflexivity.
  - destruct (String.eqb s ""); reflexivity.
Qed.

(** X21. In the metadata written to the index, a property of the
    document's own metadata replaces the property of the same name the
    handler sets: a metadata object with a [content] property replaces
    the text [query] returns for the document. Without such a property
    the text is the content of the document. *)
Theorem index_metadata_precedence documentData document :
  (forall j k v,
     i_metadata documentData = Some j -> own_properties j !! k = Some v ->
     index_metadata toISOString documentData document !! k = Some v) /\
  ((forall j, i_metadata documentData = Some j ->
              own_properties j !! "content" = None) ->
   index_metadata toISOString documentData document !! "content"
     = Some (Js.JStr (i_content documentData))) /\
  (forall o v,
     i_metadata documentData = Some (JsonObject o) -> o !! "content" = Some v ->
     Js.get (index_metadata toISOString documentData document) "content" = v).
Proof.
  rewrite index_metadata_union. split; [|split].
  - intros j k v -> H. apply lookup_union_Some_l. exact H.
  - intros H. rewrite lookup_union_r.
    + reflexivity.
    + destruct (i_metadata documentData) as [j|]; [apply H; reflexivity|reflexivity].
  - intros o v -> H. unfold Js.get. simpl own_properties.
    rewrite (lookup_union_Some_l _ _ _ _ H). reflexivity.
Qed.

(** X22. A document added to an empty index is what a query with its
    own embedding returns: one result, under the identifier of the
    document, scored with the similarity of the embedding with itself,
    and with the content of the document as text. *)
Theorem ingested_document_is_retrieved body w documentData emb s topK threshold t :
  insertDocumentSchema_parse body = inr documentData ->
  embeddings_create embedding_model' (i_content documentData) = inr emb ->
  (forall j, i_metadata documentData = Some j ->
             own_properties j !! "content" = None) ->
  vectors w = [] ->
  Pinecone.cosineSimilarity emb emb = inr s ->
  num_ge s threshold = true ->
  Z_le_number 1 topK ->
  exists res t',
    Pinecone.query toISOString (vectors (snd (post_documents body w))) emb
      (Some topK) (Some threshold) t = inr (res, t') /\
    map Pinecone.r_id res = [randomUUID (uuids w)] /\
    map Pinecone.r_score res = [s] /\
    map Pinecone.r_text res = [Js.JStr (i_content documentData)].
Proof.
  intros P E Hno Hw Hc Hge Hk.
  destruct (ingestion_accepted body w _ _ P E) as (document & V & _).
  rewrite V, Hw. unfold Pinecone.upsert. simpl Pinecone.Map_set.
  unfold Pinecone.query. simpl default. rewrite scan_cons. simpl Pinecone.embedding.
  rewrite Hc. simpl Pinecone.scan. unfold Js.ret. rewrite Hge. simpl Js.bind.
  rewrite slice_zero. simpl Js.sort. simpl length.
  rewrite (kept_all 1 1 topK Hk (le_n 1)). simpl take.
  unfold Pinecone.map_results, Pinecone.to_result, scored_of. simpl Pinecone.s_metadata.
  destruct (index_metadata_precedence documentData document) as (_ & Hcontent & _).
  specialize (Hcontent Hno).
  destruct (Js.truthy (Js.get (index_metadata toISOString documentData document) "createdAt"));
    simpl; eexists; eexists; (split; [reflexivity|]); simpl;
    (split; [reflexivity|]); (split; [reflexivity|]);
    unfold Js.get; rewrite Hcontent; simpl; unfold Js.js_or; simpl;
    destruct (String.eqb_spec (i_content documentData) "") as [->|]; reflexivity.
Qed.

(** X23. [DELETE /api/documents] always answers 200 and empties both the
    documents and the index: afterwards [getDocuments] returns nothing,
    no vector is counted, and every query returns no result. Users and
    queries are kept. *)
Theorem clearing_the_knowledge_base w :
  exists w',
    delete_documents w = (inr (Sent 200 "Knowledge base cleared successfully"%string), w') /\
    getDocuments w' = [] /\
    Pinecone.getVectorCount (vectors w') = 0%nat /\
    users (storage w') = users (storage w) /\
    queries (storage w') = queries (storage w) /\
    (forall emb topK threshold t,
       Pinecone.query toISOString (vectors w') emb topK threshold t = inr ([], t)).
Proof.
  eexists. split; [reflexivity|]. simpl. repeat split.
  intros emb topK threshold t. unfold Pinecone.query. simpl Pinecone.scan. simpl Js.bind.
  rewrite slice_zero. simpl Js.sort. rewrite take_nil. reflexivity.
Qed.

(** X24. [GET /api/test-connections] never answers 500: a failure of the
    provider is caught by [testOpenAIConnection] and reported as
    [openai: false], the index is always reported as reachable, and the
    count is the number of stored vectors. *)
Theorem test_connections_always_answers w :
  exists w',
    get_api_test_connections randomUUID getTime models_list w =
      (inr (Sent 200 {| openai := match models_list with inr _ => true | inl _ => false end;
                        pinecone := true;
                        vectorCount := length (vectors w) |}), w') /\
    vectors w' = vectors w /\ documents (storage w') = documents (storage w).
Proof.
  eexists. split; [reflexivity|]. simpl. auto.
Qed.

(** X25. Every request to a logged route is logged once, with its method,
    its path and the status that is sent; reading or clearing the logs is
    not logged. *)
Theorem routes_log_what_they_answer body w :
  (exists r w' log,
     post_documents body w = (inr r, w') /\
     apiLogs (storage w') = Map_set (l_id log) log (apiLogs (storage w)) /\
     l_method log = "POST"%string /\ l_endpoint log = "/api/documents"%string /\
     l_status log = match r with Sent status _ | Failed status _ _ => status end) /\
  (exists r w' log,
     get_documents w = (inr r, w') /\
     apiLogs (storage w') = Map_set (l_id log) log (apiLogs (storage w)) /\
     l_method log = "GET"%string /\ l_endpoint log = "/api/documents"%string /\
     l_status log = match r with Sent status _ | Failed status _ _ => status end) /\
  (exists r w' log,
     delete_documents w = (inr r, w') /\
     apiLogs (storage w') = Map_set (l_id log) log (apiLogs (storage w)) /\
     l_method log = "DELETE"%string /\ l_endpoint log = "/api/documents"%string /\
     l_status log = match r with Sent status _ | Failed status _ _ => status end) /\
  (exists r w' log,
     test_connections w = (inr r, w') /\
     apiLogs (storage w') = Map_set (l_id log) log (apiLogs (storage w)) /\
     l_method log = "GET"%string /\ l_endpoint log = "/api/test-connections"%string /\
     l_status log = match r with Sent status _ | Failed status _ _ => status end) /\
  get_api_logs getTime w = (inr (Sent 200 (getApiLogs getTime w)), w) /\
  (exists w', delete_api_logs w = (inr (Sent 200 "API logs cleared successfully"%string), w') /\
     getApiLogs getTime w' = []).
Proof.
  split; [|split; [|split; [|split; [|split]]]].
  - unfold post_api_documents, try_catch, io_bind, io_lift, io_traced, Date_now,
      OpenAI.generateEmbedding, OpenAI.tbind, OpenAI.emit, OpenAI.lift, OpenAI.tret, Js.ret.
    destruct (insertDocumentSchema_parse body) as [e|d].
    + answer_with_log.
    + cbn [fst snd].
      destruct (embeddings_create embedding_model' (i_content d)) as [e|emb].
      * answer_with_log.
      * answer_with_log.
  - answer_with_log.
  - answer_with_log.
  - answer_with_log.
  - reflexivity.
  - eexists. split; reflexivity.
Qed.

End ApiFacts.

(** ** The query route: failures, and the empty index *)

Section RouteOutcomes.
Import OpenAI Routes.
Variable NumberToString : number -> string.
Variable toISOString : nat -> string.
Variable embeddings_create : string -> string -> Js.result (list number).
Variable chat_completions_create :
  Js.jsval -> string -> Js.result (Js.jsval * Js.jsval).
Variable insertQuerySchema_parse : gmap string Js.jsval -> Js.result string.

Abbreviation query_handler :=
  (post_api_query NumberToString toISOString embeddings_create
     chat_completions_create insertQuerySchema_parse).



End RouteOutcomes.

(** ** More statements at concrete inputs *)

Section MoreInstances.
Import Pinecone OpenAI Routes Examples Schema Storage Api Scenario.

(** The scenario [d1] at [[1, 0]] again: its one score, 1, passes the
    default threshold. *)
Lemma query_scores_pass_threshold_witness :
  exists res tick',
    query clock index_d1 [lit_1; fzero] None None 0 = inr (res, tick') /\
    Forall (fun r => num_ge (r_score r) lit_0_7 = true /\
                     is_nan (r_score r) = false /\ fvalid (r_score r) = true) res /\
    (is_nan lit_0_7 = true -> res = []).
Proof.
  run_query (query clock index_d1 [lit_1; fzero] None None 0) Hq.
  split; [exact Hq|].
  exact (query_scores_pass_threshold clock _ _ _ _ _ _ _ Hq).
Defined.

(** The two entries [a] and [b] are both returned, once each. *)
Lemma query_results_are_entries_witness :
  NoDup (map fst index_ab) /\
  exists res tick',
    query clock index_ab [lit_1; fzero] None None 0 = inr (res, tick') /\
    NoDup (map r_id res) /\
    Forall (fun r => exists v, In (r_id r, v) index_ab /\
              cosineSimilarity [lit_1; fzero] (embedding v) = inr (r_score r) /\
              metadata v = Some (r_metadata r)) res.
Proof.
  assert (Hnd : NoDup (map fst index_ab)).
  { apply (bool_decide_unpack _). vm_compute. exact I. }
  split; [exact Hnd|].
  run_query (query clock index_ab [lit_1; fzero] None None 0) Hq.
  split; [exact Hq|].
  exact (query_results_are_entries clock _ _ _ _ _ _ _ Hnd Hq).
Defined.

(** With [topK = 5] on two entries, [b] is among the results. *)
Lemma query_returns_every_match_witness :
  Z_le_number (Z.of_nat (length index_ab)) lit_5 /\
  In ("b"%string, {| embedding := [lit_2; fzero]; metadata := Some no_metadata |}) index_ab /\
  cosineSimilarity [lit_1; fzero] [lit_2; fzero] = inr lit_1 /\
  num_ge lit_1 lit_0_7 = true /\
  exists res tick',
    query clock index_ab [lit_1; fzero] (Some lit_5) None 0 = inr (res, tick') /\
    exists r, In r res /\ r_id r = "b"%string /\ r_score r = lit_1 /\
              Some no_metadata = Some (r_metadata r).
Proof.
  assert (Hk : Z_le_number (Z.of_nat (length index_ab)) lit_5) by (simpl; lia).
  assert (Hin : In ("b"%string,
                    {| embedding := [lit_2; fzero]; metadata := Some no_metadata |})
                  index_ab) by (right; left; reflexivity).
  assert (Hc : cosineSimilarity [lit_1; fzero] [lit_2; fzero] = inr lit_1)
    by (vm_compute; reflexivity).
  split; [exact Hk|]. split; [exact Hin|]. split; [exact Hc|]. split; [reflexivity|].
  run_query (query clock index_ab [lit_1; fzero] (Some lit_5) None 0) Hq.
  split; [exact Hq|].
  exact (query_returns_every_match clock _ _ _ _ _ _ _ _ _ _ Hq Hk Hin Hc eq_refl).
Defined.

(** [topK = 1] against [topK = 5] on the two entries. *)
Lemma query_smaller_topK_is_prefix_witness :
  fvalid lit_1 = true /\ fvalid lit_5 = true /\
  num_le fzero lit_1 = true /\ num_le lit_1 lit_5 = true /\
  exists res2 tick2,
    query clock index_ab [lit_1; fzero] (Some lit_5) None 0 = inr (res2, tick2) /\
    exists n tick1,
      query clock index_ab [lit_1; fzero] (Some lit_1) None 0 = inr (take n res2, tick1).
Proof.
  repeat (split; [reflexivity|]).
  run_query (query clock index_ab [lit_1; fzero] (Some lit_5) None 0) Hq.
  split; [exact Hq|].
  exact (query_smaller_topK_is_prefix clock _ _ lit_1 lit_5 _ _ _ _
           eq_refl eq_refl eq_refl eq_refl Hq).
Defined.

(** [upsert] of [c] into the index of [a] and [b]: [c] is there with its
    vector, [a] is kept. *)
Lemma upsert_then_entries_witness :
  NoDup (map fst index_ab) /\
  (In ("a"%string, {| embedding := [lit_1; fzero]; metadata := Some no_metadata |})
      (upsert "c" [fzero; lit_1] None index_ab) <->
   ("a"%string = "c"%string /\
    {| embedding := [lit_1; fzero]; metadata := Some no_metadata |}
    = {| embedding := [fzero; lit_1]; metadata := None |}) \/
   ("a"%string <> "c"%string /\
    In ("a"%string, {| embedding := [lit_1; fzero]; metadata := Some no_metadata |})
       index_ab)).
Proof.
  assert (Hnd : NoDup (map fst index_ab)).
  { apply (bool_decide_unpack _). vm_compute. exact I. }
  split; [exact Hnd|].
  exact (upsert_then_entries "c" [fzero; lit_1] None index_ab "a" _ Hnd).
Defined.

Lemma upsert_distinct_ids_commute_witness :
  "c"%string <> "d"%string /\
  Permutation (upsert "c" [fzero; lit_1] None (upsert "d" [lit_1; lit_1] None index_ab))
              (upsert "d" [lit_1; lit_1] None (upsert "c" [fzero; lit_1] None index_ab)).
Proof.
  assert (Hne : "c"%string <> "d"%string) by discriminate.
  split; [exact Hne|].
  exact (upsert_distinct_ids_commute "c" [fzero; lit_1] None "d" [lit_1; lit_1] None
           index_ab Hne).
Defined.

(** The scores 0 and 1: the difference [1 - 0] is positive. *)
Lemma comparator_sign_is_score_order_witness :
  good low /\ good high /\
  num_gt (Js.SortCompare by_score_desc low high) fzero = true /\
  num_gt (s_score high) (s_score low) = true.
Proof.
  assert (Gl : good low) by (split; reflexivity).
  assert (Gh : good high) by (split; reflexivity).
  split; [exact Gl|]. split; [exact Gh|].
  destruct (comparator_sign_is_score_order low high Gl Gh) as (A & _ & _).
  split; [rewrite A|]; reflexivity.
Defined.

(** The array [[low, high]] has one sorted arrangement, [[high, low]]. *)
Lemma sort_is_the_stable_sort_witness :
  Forall good [low; high] /\ NoDup [low; high] /\
  Permutation [high; low] [low; high] /\
  StronglySorted score_ge [high; low] /\
  [high; low] = Js.sort by_score_desc [low; high].
Proof.
  assert (G : Forall good [low; high]) by (repeat constructor).
  assert (Hnd : NoDup [low; high]).
  { apply NoDup_cons. split; [|apply NoDup_singleton].
    intros H. apply list_elem_of_singleton in H. discriminate. }
  assert (P : Permutation [high; low] [low; high]) by apply perm_swap.
  assert (S : StronglySorted score_ge [high; low]).
  { repeat constructor. }
  split; [exact G|]. split; [exact Hnd|]. split; [exact P|]. split; [exact S|].
  apply (sort_is_the_stable_sort [low; high] [high; low] G Hnd P S).
  intros a b Heq Hb. exfalso.
  inversion Hb as [l Hin|x l Hb']; subst.
  - destruct Hin as [<-|[]]. discriminate Heq.
  - inversion Hb' as [l Hin|x l Hb'']; subst; [destruct Hin|inversion Hb''].
Defined.

(** Three entries: the two of the reading 7 come first, in the order
    they were written, the one without a time last. *)
Lemma getApiLogs_latest_first_witness :
  Forall (fun log => fvalid (time_or_0 millis log) = true)
    (Map_values (apiLogs (storage three_logs))) /\
  getApiLogs millis three_logs =
    [log_at "a" 200 (Some 7%nat); log_at "b" 400 (Some 7%nat); log_at "n" 500 None] /\
  StronglySorted
    (fun a b => num_ge (time_or_0 millis a) (time_or_0 millis b) = true)
    (getApiLogs millis three_logs) /\
  before (log_at "a" 200 (Some 7%nat)) (log_at "b" 400 (Some 7%nat))
    (getApiLogs millis three_logs).
Proof.
  assert (HV : Forall (fun log => fvalid (time_or_0 millis log) = true)
                 (Map_values (apiLogs (storage three_logs)))).
  { repeat constructor. }
  destruct (getApiLogs_latest_first millis three_logs HV) as (_ & S & B).
  split; [exact HV|]. split; [vm_compute; reflexivity|]. split; [exact S|].
  apply B.
  - apply before_later, before_here. left. reflexivity.
  - vm_compute. reflexivity.
Defined.

(** The thresholds 0.5 and 1 on [x] and [y]: both pass the first, [x]
    alone the second. *)
Lemma query_higher_threshold_is_prefix_witness :
  NoDup (map fst index_xy) /\
  num_le lit_0_5 lit_1 = true /\
  exists res1 tick1,
    query clock index_xy [lit_1; fzero] None (Some lit_0_5) 0 = inr (res1, tick1) /\
    map r_id res1 = ["x"; "y"]%string /\
    exists n tick2,
      query clock index_xy [lit_1; fzero] None (Some lit_1) 0 = inr (take n res1, tick2).
Proof.
  assert (Hnd : NoDup (map fst index_xy)).
  { apply (bool_decide_unpack _). vm_compute. exact I. }
  split; [exact Hnd|]. split; [reflexivity|].
  run_query (query clock index_xy [lit_1; fzero] None (Some lit_0_5) 0) Hq.
  split; [exact Hq|]. split; [reflexivity|].
  exact (query_higher_threshold_is_prefix clock _ _ None lit_0_5 lit_1 _ _ _
           Hnd eq_refl Hq).
Defined.

(** The start-up state, one document about Paris, and the query with its
    embedding. *)
Lemma ingested_document_is_retrieved_witness :
  accept_document paris_document = inr paris_document /\
  embed_unit "text-embedding-3-small" (i_content paris_document) = inr [lit_1; fzero] /\
  (forall j, i_metadata paris_document = Some j -> own_properties j !! "content" = None) /\
  vectors boot = [] /\
  cosineSimilarity [lit_1; fzero] [lit_1; fzero] = inr lit_1 /\
  num_ge lit_1 lit_0_7 = true /\
  Z_le_number 1 lit_5 /\
  exists res t',
    query iso
      (vectors (snd (post_api_documents uuid millis iso embed_unit InsertDocument
                       accept_document paris_document boot)))
      [lit_1; fzero] (Some lit_5) (Some lit_0_7) 0 = inr (res, t') /\
    map r_id res = [uuid (uuids boot)] /\
    map r_score res = [lit_1] /\
    map r_text res = [Js.JStr (i_content paris_document)].
Proof.
  assert (Hno : forall j, i_metadata paris_document = Some j ->
                  own_properties j !! "content" = None).
  { intros j [= <-]. reflexivity. }
  assert (Hc : cosineSimilarity [lit_1; fzero] [lit_1; fzero] = inr lit_1)
    by (vm_compute; reflexivity).
  assert (Hk : Z_le_number 1 lit_5) by (simpl; lia).
  split; [reflexivity|]. split; [reflexivity|]. split; [exact Hno|].
  split; [reflexivity|]. split; [exact Hc|]. split; [reflexivity|]. split; [exact Hk|].
  exact (ingested_document_is_retrieved uuid millis iso embed_unit InsertDocument
           accept_document paris_document boot paris_document [lit_1; fzero] lit_1
           lit_5 lit_0_7 0%nat eq_refl eq_refl Hno eq_refl Hc eq_refl Hk).
Defined.

(** The same document sent twice to the server at start-up. *)
Lemma ingestion_does_not_deduplicate_witness :
  accept_document paris_document = inr paris_document /\
  embed_unit "text-embedding-3-small" (i_content paris_document) = inr [lit_1; fzero] /\
  uuid (uuids boot) <> uuid (2 + uuids boot) /\
  ~ In (uuid (uuids boot)) (map fst (vectors boot)) /\
  ~ In (uuid (2 + uuids boot)) (map fst (vectors boot)) /\
  getVectorCount
    (vectors (snd (post_api_documents uuid millis iso embed_unit InsertDocument
                     accept_document paris_document
                     (snd (post_api_documents uuid millis iso embed_unit InsertDocument
                             accept_document paris_document boot)))))
  = (2 + getVectorCount (vectors boot))%nat.
Proof.
  assert (Hne : uuid (uuids boot) <> uuid (2 + uuids boot)) by (vm_compute; discriminate).
  assert (H1 : ~ In (uuid (uuids boot)) (map fst (vectors boot))) by (simpl; tauto).
  assert (H2 : ~ In (uuid (2 + uuids boot)) (map fst (vectors boot))) by (simpl; tauto).
  split; [reflexivity|]. split; [reflexivity|]. split; [exact Hne|].
  split; [exact H1|]. split; [exact H2|].
  exact (proj1 (ingestion_does_not_deduplicate uuid millis iso embed_unit InsertDocument
                  accept_document paris_document boot paris_document [lit_1; fzero]
                  eq_refl eq_refl Hne H1 H2)).
Defined.



End MoreInstances.
